(** * scale-font.py: a shallow embedding and its verified properties

    The script [scripts/scale-font.py] loads a font with fontTools, multiplies
    every outline coordinate and metric by a floating-point scale factor,
    converts the product back to an integer with Python's [int()], optionally
    renames the family, and saves the font.

    The embedding follows the script function by function:
    - Python [float] is IEEE-754 binary64, modelled with the executable
      specification of the Standard Library ([SpecFloat], precision 53,
      maximal exponent 1024);
    - Python [int] is [Z];
    - exceptions are an explicit [exn] type threaded through a [result] monad;
    - objects whose attributes are probed with [hasattr] are finite maps from
      attribute names to integers ([gmap string Z]);
    - Python dictionaries that are iterated are association lists in
      insertion order. *)

From Stdlib Require Import ZArith Lia SpecFloat.
From stdpp Require Import gmap strings list fin_maps.

Local Open Scope Z_scope.

(** ** Exceptions and the result monad *)

Inductive exn : Type :=
| KeyError (key : string)
| AttributeError (attr : string)
| OverflowError
| ValueError
| TTLibError (path : string).

Inductive result (A : Type) : Type :=
| Ok (a : A)
| Raise (e : exn).

Arguments Ok {A} a.
Arguments Raise {A} e.

#[global] Instance result_ret : MRet result := fun A a => Ok a.
#[global] Instance result_bind : MBind result := fun A B f r =>
  match r with
  | Ok a => f a
  | Raise e => Raise e
  end.
#[global] Instance result_fmap : FMap result := fun A B f r =>
  match r with
  | Ok a => Ok (f a)
  | Raise e => Raise e
  end.

Definition is_Ok {A} (r : result A) : Prop := exists a, r = Ok a.

(** [for x in l: ...] with a body that may raise, collecting the results. *)
Fixpoint traverse {A B} (f : A -> result B) (l : list A) : result (list B) :=
  match l with
  | [] => Ok []
  | x :: l' => y ← f x; ys ← traverse f l'; Ok (y :: ys)
  end.

(** [for x in l: ...] with a body that updates a state and may raise. *)
Fixpoint for_each {A S} (body : S -> A -> result S) (l : list A) (s : S) : result S :=
  match l with
  | [] => Ok s
  | x :: l' => s' ← body s x; for_each body l' s'
  end.

(** ** Python numbers: [int * float] and [int(float)] *)

Definition prec : Z := 53.
Definition emax : Z := 1024.

(** The binary64 value [m * 2^e], correctly rounded. *)
Definition float_of_dyadic (m e : Z) : spec_float := binary_normalize prec emax m e false.

(** Implicit conversion of the [int] operand of [int * float]
    (PyLong_AsDouble): correctly rounded, [OverflowError] beyond the range. *)
Definition float_of_int (x : Z) : result spec_float :=
  match float_of_dyadic x 0 with
  | S754_infinity _ => Raise OverflowError
  | f => Ok f
  end.

(** [int(f)]: truncation toward zero; infinities and NaN raise. *)
Definition py_int (f : spec_float) : result Z :=
  match f with
  | S754_zero _ => Ok 0
  | S754_infinity _ => Raise OverflowError
  | S754_nan => Raise ValueError
  | S754_finite s m e => Ok (cond_Zopp s (Z.shiftl (Z.pos m) e))
  end.

(** The expression [int(x * scale_factor)] that the script applies to every
    number it scales. *)
Definition scale_int (scale_factor : spec_float) (x : Z) : result Z :=
  fx ← float_of_int x; py_int (SFmul prec emax fx scale_factor).

(** Exact rounding to the nearest integer of [x * m * 2^e] for a positive
    scale factor [m * 2^e], ties away from zero and ties to even; these are the
    two rules the specification allows, stated on exact dyadic rationals. *)
Definition round_half_away (x m e : Z) : Z :=
  let n := x * m in
  if 0 <=? e then n * 2 ^ e
  else Z.sgn n * ((2 * Z.abs n + 2 ^ (- e)) / 2 ^ (- e + 1)).

Definition round_half_even (x m e : Z) : Z :=
  let n := x * m in
  if 0 <=? e then n * 2 ^ e
  else
    let q := n / 2 ^ (- e) in
    let r := n mod 2 ^ (- e) in
    match 2 * r ?= 2 ^ (- e) with
    | Lt => q
    | Gt => q + 1
    | Eq => if Z.even q then q else q + 1
    end.

(** ** Python strings: [in] and [str.replace] *)

Local Open Scope string_scope.

(** [old in text] *)
Fixpoint contains (old text : string) : bool :=
  String.prefix old text ||
  match text with
  | EmptyString => false
  | String _ rest => contains old rest
  end.

(** [text.replace(old, new)] for a non-empty [old]: leftmost occurrences,
    not overlapping.  [skip] counts the characters of a matched occurrence
    still to be dropped. *)
Fixpoint replace_scan (old new : string) (skip : nat) (text : string) : string :=
  match text with
  | EmptyString => EmptyString
  | String c rest =>
      match skip with
      | S k => replace_scan old new k rest
      | O =>
          if String.prefix old text
          then new ++ replace_scan old new (Nat.pred (String.length old)) rest
          else String c (replace_scan old new O rest)
      end
  end.

(** With an empty [old], Python inserts [new] before every character and at
    the end. *)
Fixpoint intersperse_all (new text : string) : string :=
  match text with
  | EmptyString => new
  | String c rest => new ++ String c (intersperse_all new rest)
  end.

Definition py_replace (text old new : string) : string :=
  match old with
  | EmptyString => intersperse_all new text
  | _ => replace_scan old new O text
  end.

Local Close Scope string_scope.

(** ** Objects and dictionaries *)

(** An object whose integer attributes are probed with [hasattr]. *)
Abbreviation obj := (gmap string Z).

Definition hasattr (o : obj) (a : string) : bool := bool_decide (is_Some (o !! a)).

Definition getattr (o : obj) (a : string) : result Z :=
  match o !! a with
  | Some v => Ok v
  | None => Raise (AttributeError a)
  end.

(** [o.a = int(o.a * scale_factor)] *)
Definition scale_attr (scale_factor : spec_float) (o : obj) (a : string) : result obj :=
  v ← getattr o a; v' ← scale_int scale_factor v; Ok (<[a := v']> o).

(** A run of such assignments, in program order. *)
Definition scale_attrs (scale_factor : spec_float) (fields : list string) (o : obj) : result obj :=
  for_each (scale_attr scale_factor) fields o.

(** [if hasattr(o, a): o.a = int(o.a * scale_factor)] *)
Definition scale_attr_if_present (scale_factor : spec_float) (o : obj) (a : string) : result obj :=
  if hasattr o a then scale_attr scale_factor o a else Ok o.

(** [if x: ...] on a slot that may hold [None], and [if tag in font: ...] on
    a table that may be missing: the body runs on what is there. *)
Definition if_present {A} (body : A -> result A) (t : option A) : result (option A) :=
  match t with
  | Some a => a' ← body a; Ok (Some a')
  | None => Ok None
  end.

(** A Python [dict] in insertion order. *)
Abbreviation dict K V := (list (K * V)).

Fixpoint dict_get `{EqDecision K} {V} (show : K -> string) (d : dict K V) (k : K) : result V :=
  match d with
  | [] => Raise (KeyError (show k))
  | (k', v) :: d' => if decide (k' = k) then Ok v else dict_get show d' k
  end.

Fixpoint dict_set `{EqDecision K} {V} (k : K) (v : V) (d : dict K V) : dict K V :=
  match d with
  | [] => [(k, v)]
  | (k', v') :: d' => if decide (k' = k) then (k, v) :: d' else (k', v') :: dict_set k v d'
  end.

Definition dict_keys {K V} (d : dict K V) : list K := d.*1.

(** ** TrueType glyphs ([scale_glyph_ttf]) *)

(** A component of a composite glyph; the offsets [x] and [y] are attributes
    that point-matched components do not have. *)
Record Component : Type := {
  glyphName : string;
  component_attrs : obj
}.

(** A glyph of the [glyf] table.  [numberOfContours] is [-1] for a composite,
    positive for a simple outline and [0] for an empty glyph; the bounding box
    [xMin], [yMin], [xMax], [yMax] lives in [glyph_attrs]. *)
Record Glyph : Type := {
  numberOfContours : Z;
  components : list Component;
  coordinates : list (Z * Z);
  glyph_attrs : obj
}.

Definition isComposite (glyph : Glyph) : bool := numberOfContours glyph =? -1.

Definition offset_fields : list string := ["x"; "y"]%string.

Definition scale_component (scale_factor : spec_float) (component : Component) : result Component :=
  a ← for_each (scale_attr_if_present scale_factor) offset_fields (component_attrs component);
  Ok {| glyphName := glyphName component; component_attrs := a |}.

Definition scale_point (scale_factor : spec_float) (p : Z * Z) : result (Z * Z) :=
  x ← scale_int scale_factor p.1; y ← scale_int scale_factor p.2; Ok (x, y).

Definition bbox_fields : list string := ["xMin"; "yMin"; "xMax"; "yMax"]%string.

Definition scale_glyph_ttf (glyph : Glyph) (glyf_table : dict string Glyph)
    (scale_factor : spec_float) : result Glyph :=
  glyph ←
    (if isComposite glyph then
       cs ← traverse (scale_component scale_factor) (components glyph);
       Ok {| numberOfContours := numberOfContours glyph; components := cs;
             coordinates := coordinates glyph; glyph_attrs := glyph_attrs glyph |}
     else if 0 <? numberOfContours glyph then
       scaled_coords ← traverse (scale_point scale_factor) (coordinates glyph);
       Ok {| numberOfContours := numberOfContours glyph; components := components glyph;
             coordinates := scaled_coords; glyph_attrs := glyph_attrs glyph |}
     else Ok glyph);
  if hasattr (glyph_attrs glyph) "xMin" && negb (numberOfContours glyph =? 0) then
    a ← scale_attrs scale_factor bbox_fields (glyph_attrs glyph);
    Ok {| numberOfContours := numberOfContours glyph; components := components glyph;
          coordinates := coordinates glyph; glyph_attrs := a |}
  else Ok glyph.

(** ** The GPOS table ([scale_gpos_values], [scale_gpos_subtable]) *)

(** A ValueRecord or an Anchor is an object with optional integer
    attributes.  A slot that may hold [None] is an [option]. *)
Record ValuePair : Type := {
  Value1 : option obj;
  Value2 : option obj
}.

Record PairSetT : Type := { PairValueRecord : list ValuePair }.
Record Class1RecordT : Type := { Class2Record : list ValuePair }.
Record BaseRecordT : Type := { BaseAnchor : list (option obj) }.
Record MarkRecordT : Type := { Class : Z; MarkAnchor : option obj }.
Record Mark2RecordT : Type := { Mark2Anchor : list (option obj) }.
Record ComponentRecordT : Type := { LigatureAnchor : list (option obj) }.
Record LigatureAttachT : Type := { ComponentRecord : list ComponentRecordT }.

(** A lookup subtable; each field is an attribute tested with [hasattr]. *)
Record Subtable : Type := {
  SinglePos : option (list obj);
  PairSet : option (list (option PairSetT));
  Class1Record : option (list Class1RecordT);
  BaseArray : option (list BaseRecordT);
  MarkArray : option (list MarkRecordT);
  Mark2Array : option (list Mark2RecordT);
  LigatureArray : option (list LigatureAttachT)
}.

Record Lookup : Type := { SubTable : list Subtable }.
Record GPOSTable : Type := { LookupList : option (list Lookup) }.

(** [if hasattr(o, a) and o.a: o.a = int(o.a * scale_factor)] *)
Definition scale_attr_if_truthy (scale_factor : spec_float) (o : obj) (a : string) : result obj :=
  match o !! a with
  | Some v => if v =? 0 then Ok o else scale_attr scale_factor o a
  | None => Ok o
  end.

Definition value_fields : list string :=
  ["XPlacement"; "YPlacement"; "XAdvance"; "YAdvance"]%string.

Definition anchor_fields : list string := ["XCoordinate"; "YCoordinate"]%string.

Definition scale_value_record (value_record : obj) (scale_factor : spec_float) : result obj :=
  for_each (scale_attr_if_truthy scale_factor) value_fields value_record.

Definition scale_anchor (anchor : obj) (scale_factor : spec_float) : result obj :=
  for_each (scale_attr_if_present scale_factor) anchor_fields anchor.

(** [if anchor: scale_anchor(anchor, scale_factor)] *)
Definition scale_anchor_slot (scale_factor : spec_float) (anchor : option obj) : result (option obj) :=
  if_present (fun a => scale_anchor a scale_factor) anchor.

(** [if hasattr(r, 'ValueN') and r.ValueN: scale_value_record(r.ValueN, ...)] *)
Definition scale_value_slot (scale_factor : spec_float) (value : option obj) : result (option obj) :=
  if_present (fun v => scale_value_record v scale_factor) value.

Definition scale_value_pair (scale_factor : spec_float) (r : ValuePair) : result ValuePair :=
  v1 ← scale_value_slot scale_factor (Value1 r);
  v2 ← scale_value_slot scale_factor (Value2 r);
  Ok {| Value1 := v1; Value2 := v2 |}.

Definition scale_pair_set (scale_factor : spec_float) (pair_set : PairSetT) : result PairSetT :=
  rs ← traverse (scale_value_pair scale_factor) (PairValueRecord pair_set);
  Ok {| PairValueRecord := rs |}.

(** [if pair_set: for pair_value in pair_set.PairValueRecord: ...] *)
Definition scale_pair_set_slot (scale_factor : spec_float) (pair_set : option PairSetT)
    : result (option PairSetT) :=
  if_present (scale_pair_set scale_factor) pair_set.

Definition scale_class1_record (scale_factor : spec_float) (r : Class1RecordT) : result Class1RecordT :=
  rs ← traverse (scale_value_pair scale_factor) (Class2Record r);
  Ok {| Class2Record := rs |}.

Definition scale_base_record (scale_factor : spec_float) (r : BaseRecordT) : result BaseRecordT :=
  anchors ← traverse (scale_anchor_slot scale_factor) (BaseAnchor r);
  Ok {| BaseAnchor := anchors |}.

Definition scale_mark_record (scale_factor : spec_float) (r : MarkRecordT) : result MarkRecordT :=
  a ← scale_anchor_slot scale_factor (MarkAnchor r);
  Ok {| Class := Class r; MarkAnchor := a |}.

Definition scale_mark2_record (scale_factor : spec_float) (r : Mark2RecordT) : result Mark2RecordT :=
  anchors ← traverse (scale_anchor_slot scale_factor) (Mark2Anchor r);
  Ok {| Mark2Anchor := anchors |}.

Definition scale_component_record (scale_factor : spec_float) (r : ComponentRecordT)
    : result ComponentRecordT :=
  anchors ← traverse (scale_anchor_slot scale_factor) (LigatureAnchor r);
  Ok {| LigatureAnchor := anchors |}.

Definition scale_ligature_attach (scale_factor : spec_float) (r : LigatureAttachT)
    : result LigatureAttachT :=
  cs ← traverse (scale_component_record scale_factor) (ComponentRecord r);
  Ok {| ComponentRecord := cs |}.

(** [if hasattr(subtable, 'X'): for r in subtable.X: ...] *)
Definition if_hasattr {A} (body : A -> result A) (field : option (list A)) : result (option (list A)) :=
  if_present (traverse body) field.

Definition scale_gpos_subtable (subtable : Subtable) (scale_factor : spec_float) : result Subtable :=
  single ← if_hasattr (fun r => scale_value_record r scale_factor) (SinglePos subtable);
  pairs ← if_hasattr (scale_pair_set_slot scale_factor) (PairSet subtable);
  class1 ← if_hasattr (scale_class1_record scale_factor) (Class1Record subtable);
  bases ← if_hasattr (scale_base_record scale_factor) (BaseArray subtable);
  marks ← if_hasattr (scale_mark_record scale_factor) (MarkArray subtable);
  mark2s ← if_hasattr (scale_mark2_record scale_factor) (Mark2Array subtable);
  ligs ← if_hasattr (scale_ligature_attach scale_factor) (LigatureArray subtable);
  Ok {| SinglePos := single; PairSet := pairs; Class1Record := class1; BaseArray := bases;
        MarkArray := marks; Mark2Array := mark2s; LigatureArray := ligs |}.

Definition scale_lookup (scale_factor : spec_float) (lookup : Lookup) : result Lookup :=
  sts ← traverse (fun st => scale_gpos_subtable st scale_factor) (SubTable lookup);
  Ok {| SubTable := sts |}.

Definition scale_gpos_values (gpos_table : GPOSTable) (scale_factor : spec_float) : result GPOSTable :=
  match LookupList gpos_table with
  | None => Ok gpos_table
  | Some lookups =>
      ls ← traverse (scale_lookup scale_factor) lookups;
      Ok {| LookupList := Some ls |}
  end.

(** ** The name table ([rename_font]) *)

(** The stored string of a name record either decodes to text or does not
    ([toUnicode] raises). *)
Inductive name_string : Type :=
| Decodable (text : string)
| Undecodable.

Record NameRecord : Type := {
  nameID : Z;
  platformID : Z;
  platEncID : Z;
  langID : Z;
  string_ : name_string
}.

Definition toUnicode (record : NameRecord) : option string :=
  match string_ record with
  | Decodable text => Some text
  | Undecodable => None
  end.

Definition same_ids (r : NameRecord) (n p e l : Z) : bool :=
  (nameID r =? n) && (platformID r =? p) && (platEncID r =? e) && (langID r =? l).

(** fontTools' [table__n_a_m_e.setName]: the first record with these four
    identifiers receives the string; without such a record a new one is
    appended. *)
Fixpoint setName (new_text : string) (n p e l : Z) (names : list NameRecord) : list NameRecord :=
  match names with
  | [] => [{| nameID := n; platformID := p; platEncID := e; langID := l;
              string_ := Decodable new_text |}]
  | r :: rest =>
      if same_ids r n p e l
      then {| nameID := n; platformID := p; platEncID := e; langID := l;
              string_ := Decodable new_text |} :: rest
      else r :: setName new_text n p e l rest
  end.

Definition nospace (family : string) : string := py_replace family " " "".

(** The body of [for record in name_table.names] after a successful
    [toUnicode]. *)
Definition rename_record (old_family new_family : string) (record : NameRecord) (text : string)
    (names : list NameRecord) : list NameRecord :=
  let names :=
    if contains old_family text
    then setName (py_replace text old_family new_family)
           (nameID record) (platformID record) (platEncID record) (langID record) names
    else names in
  let old_nospace := nospace old_family in
  let new_nospace := nospace new_family in
  if contains old_nospace text && negb (contains old_family text)
  then setName (py_replace text old_nospace new_nospace)
         (nameID record) (platformID record) (platEncID record) (langID record) names
  else names.

(** The loop over [name_table.names]: Python reads the list by index until
    the index passes its current end.  [None] only when [fuel] runs out. *)
Fixpoint rename_names_from (fuel i : nat) (old_family new_family : string)
    (names : list NameRecord) : option (list NameRecord) :=
  match names !! i with
  | None => Some names
  | Some record =>
      match fuel with
      | O => None
      | S fuel' =>
          rename_names_from fuel' (S i) old_family new_family
            match toUnicode record with
            | None => names
            | Some text => rename_record old_family new_family record text names
            end
      end
  end.

(** ** The whole font *)

Section FontModel.

(** A Type 2 charstring, and the charstring that fontTools builds when the
    old one is drawn through a [TransformPen] scaling by the factor into a
    [T2CharStringPen] whose glyph set is the current [CharStrings]. *)
Context {CharString : Type}.
Variable draw_scaled : spec_float -> dict string CharString -> CharString -> result CharString.

Record CFFTable : Type := {
  fontNames : option (list string);
  FamilyName : option string;
  FullName : option string;
  CharStrings : dict string CharString
}.

Record KernSubtable : Type := { kernTable : option (dict (string * string) Z) }.

(** A loaded [TTFont]: the tables the script looks at, [None] when
    [tag in font] is false. *)
Record Font : Type := {
  name : option (list NameRecord);
  CFF : option CFFTable;
  glyf : option (dict string Glyph);
  hmtx : option (dict string (Z * Z));
  vmtx : option (dict string (Z * Z));
  head : option obj;
  hhea : option obj;
  OS_2 : option obj;
  vhea : option obj;
  post : option obj;
  kern : option (list KernSubtable);
  GPOS : option GPOSTable
}.

(** [font[tag]] *)
Definition table {A} (tag : string) (t : option A) : result A :=
  match t with
  | Some a => Ok a
  | None => Raise (KeyError tag)
  end.

Definition replace_if_contains (old new : string) (text : string) : string :=
  if contains old text then py_replace text old new else text.

Definition rename_cff (old_family new_family : string) (cff : CFFTable) : CFFTable :=
  {| fontNames :=
       option_map (map (replace_if_contains (nospace old_family) (nospace new_family)))
         (fontNames cff);
     FamilyName := option_map (replace_if_contains old_family new_family) (FamilyName cff);
     FullName := option_map (replace_if_contains old_family new_family) (FullName cff);
     CharStrings := CharStrings cff |}.

Definition rename_font (fuel : nat) (font : Font) (old_family new_family : string) : option Font :=
  match name font with
  | None => Some font
  | Some names =>
      names' ← rename_names_from fuel 0 old_family new_family names;
      Some {| name := Some names'; CFF := option_map (rename_cff old_family new_family) (CFF font);
              glyf := glyf font; hmtx := hmtx font; vmtx := vmtx font; head := head font;
              hhea := hhea font; OS_2 := OS_2 font; vhea := vhea font; post := post font;
              kern := kern font; GPOS := GPOS font |}
  end.

(** [if rename_from and rename_to: rename_font(font, rename_from, rename_to)];
    the loop of [rename_font] gets one unit of fuel per name record and one
    more, which is all it uses. *)
Definition rename_if_requested (font : Font) (rename_from rename_to : option string) : Font :=
  match rename_from, rename_to with
  | Some old_family, Some new_family =>
      if negb (String.eqb old_family "") && negb (String.eqb new_family "")
      then default font
             (rename_font (S (length (default [] (name font)))) font old_family new_family)
      else font
  | _, _ => font
  end.

(** [scale_cff_glyphs]: every charstring is replaced, in key order, by its
    scaled redrawing; the [bool] is the returned flag. *)
Definition scale_cff_glyphs (cff : option CFFTable) (scale_factor : spec_float)
    : result (option CFFTable * bool) :=
  match cff with
  | None => Ok (None, false)
  | Some c =>
      char_strings ←
        for_each (fun char_strings glyph_name =>
                    cs ← dict_get id char_strings glyph_name;
                    new_cs ← draw_scaled scale_factor char_strings cs;
                    Ok (dict_set glyph_name new_cs char_strings))
                 (dict_keys (CharStrings c)) (CharStrings c);
      Ok (Some {| fontNames := fontNames c; FamilyName := FamilyName c;
                  FullName := FullName c; CharStrings := char_strings |}, true)
  end.

(** The [else] branch of "Scale glyphs based on font type". *)
Definition scale_glyf (glyf : dict string Glyph) (scale_factor : spec_float)
    : result (dict string Glyph) :=
  for_each (fun glyf glyph_name =>
              glyph ← dict_get id glyf glyph_name;
              if negb (numberOfContours glyph =? 0)
              then glyph' ← scale_glyph_ttf glyph glyf scale_factor;
                   Ok (dict_set glyph_name glyph' glyf)
              else Ok glyf)
           (dict_keys glyf) glyf.

(** [for glyph_name in t.metrics: a, b = t.metrics[glyph_name]; ...] *)
Definition scale_metrics (metrics : dict string (Z * Z)) (scale_factor : spec_float)
    : result (dict string (Z * Z)) :=
  for_each (fun metrics glyph_name =>
              '(width, lsb) ← dict_get id metrics glyph_name;
              w ← scale_int scale_factor width;
              l ← scale_int scale_factor lsb;
              Ok (dict_set glyph_name (w, l) metrics))
           (dict_keys metrics) metrics.

Definition head_fields : list string := ["xMin"; "yMin"; "xMax"; "yMax"]%string.

Definition hhea_fields : list string :=
  ["ascent"; "descent"; "lineGap"; "advanceWidthMax"; "minLeftSideBearing";
   "minRightSideBearing"; "xMaxExtent"]%string.

Definition os2_fields : list string :=
  ["sTypoAscender"; "sTypoDescender"; "sTypoLineGap"; "usWinAscent"; "usWinDescent";
   "ySubscriptXSize"; "ySubscriptYSize"; "ySubscriptXOffset"; "ySubscriptYOffset";
   "ySuperscriptXSize"; "ySuperscriptYSize"; "ySuperscriptXOffset"; "ySuperscriptYOffset";
   "yStrikeoutSize"; "yStrikeoutPosition"; "sxHeight"; "sCapHeight"; "xAvgCharWidth"]%string.

Definition vhea_fields : list string :=
  ["ascent"; "descent"; "lineGap"; "advanceHeightMax"; "minTopSideBearing";
   "minBottomSideBearing"; "yMaxExtent"]%string.

Definition post_fields : list string := ["underlinePosition"; "underlineThickness"]%string.

Definition scale_kern_subtable (scale_factor : spec_float) (t : KernSubtable) : result KernSubtable :=
  kt ← if_present (fun kernTable =>
                     for_each (fun kernTable '(glyph_pair, value) =>
                                 v ← scale_int scale_factor value;
                                 Ok (dict_set glyph_pair v kernTable))
                              kernTable kernTable)
                  (kernTable t);
  Ok {| kernTable := kt |}.

(** [scale_font] between loading and saving: the in-memory font after the
    optional renaming and all scaling passes. *)
Definition scale_font_tables (font : Font) (scale_factor : spec_float)
    (rename_from rename_to : option string) : result Font :=
  let is_cff := bool_decide (is_Some (CFF font)) in
  let font := rename_if_requested font rename_from rename_to in
  '(cff, glyf) ←
    (if is_cff
     then r ← scale_cff_glyphs (CFF font) scale_factor; Ok (r.1, glyf font)
     else g ← table "glyf" (glyf font); g' ← scale_glyf g scale_factor; Ok (CFF font, Some g'));
  hmtx ← table "hmtx" (hmtx font);
  hmtx ← scale_metrics hmtx scale_factor;
  vmtx ← if_present (fun m => scale_metrics m scale_factor) (vmtx font);
  head ← table "head" (head font);
  head ← scale_attrs scale_factor head_fields head;
  hhea ← table "hhea" (hhea font);
  hhea ← scale_attrs scale_factor hhea_fields hhea;
  os2 ← if_present (scale_attrs scale_factor os2_fields) (OS_2 font);
  vhea ← if_present (scale_attrs scale_factor vhea_fields) (vhea font);
  post ← if_present (scale_attrs scale_factor post_fields) (post font);
  kern ← if_present (traverse (scale_kern_subtable scale_factor)) (kern font);
  gpos ← if_present (fun t => scale_gpos_values t scale_factor) (GPOS font);
  Ok {| name := name font; CFF := cff; glyf := glyf; hmtx := Some hmtx; vmtx := vmtx;
        head := Some head; hhea := Some hhea; OS_2 := os2; vhea := vhea; post := post;
        kern := kern; GPOS := gpos |}.

(** The files the font library can read, by path.  [TTFont(path)] raises for
    any other path; [font.save(path)] stores the font. *)
Definition TTFont (disk : gmap string Font) (path : string) : result Font :=
  match disk !! path with
  | Some font => Ok font
  | None => Raise (TTLibError path)
  end.

Definition scale_font (disk : gmap string Font) (input_path output_path : string)
    (scale_factor : spec_float) (rename_from rename_to : option string)
    : result (gmap string Font) :=
  font ← TTFont disk input_path;
  font ← scale_font_tables font scale_factor rename_from rename_to;
  Ok (<[output_path := font]> disk).

(** ** Batch mode of [main] *)

Record Path : Type := { parent : string; stem : string; suffix : string }.

Definition str (p : Path) : string := (parent p ++ "/" ++ stem p ++ suffix p)%string.

(** The state the batch loop acts on: the files, and the
    "Error processing ..." lines printed so far. *)
Record Batch : Type := {
  disk_of : gmap string Font;
  errors : list (Path * exn)
}.

Definition output_path (suffix_arg : string) (font_path : Path) : Path :=
  if String.eqb suffix_arg ""
  then font_path
  else {| parent := parent font_path; stem := (stem font_path ++ suffix_arg)%string;
          suffix := suffix font_path |}.

Definition batch_step (scale : spec_float) (suffix_arg : string)
    (rename_from rename_to : option string) (st : Batch) (font_path : Path) : Batch :=
  match scale_font (disk_of st) (str font_path) (str (output_path suffix_arg font_path))
          scale rename_from rename_to with
  | Ok disk' => {| disk_of := disk'; errors := errors st |}
  | Raise e => {| disk_of := disk_of st; errors := errors st ++ [(font_path, e)] |}
  end.

Definition batch_loop (scale : spec_float) (suffix_arg : string)
    (rename_from rename_to : option string) (font_files : list Path) (st : Batch) : Batch :=
  fold_left (batch_step scale suffix_arg rename_from rename_to) font_files st.

End FontModel.

(** ** The font files ([find_mono_fonts]) and the command line ([main]) *)

(** What [argparse] hands to [main]: [--input], [--output] and [--rename]
    are [None] unless given. *)
Record Namespace : Type := {
  args_scale : spec_float;
  args_input : option string;
  args_output : option string;
  args_suffix : string;
  args_fonts_dir : string;
  args_rename : option string
}.

(** [if args.x:] on an optional string: neither [None] nor empty. *)
Definition truthy (a : option string) : bool :=
  match a with
  | Some text => negb (String.eqb text "")
  | None => false
  end.

(** [text.split(':', 1)]: the text before the first colon and, when there is
    a colon, the text after it. *)
Fixpoint split_colon (text : string) : string * option string :=
  match text with
  | EmptyString => (EmptyString, None)
  | String c rest =>
      if String.prefix ":" text then (EmptyString, Some rest)
      else let '(before, after) := split_colon rest in (String c before, after)
  end.

(** [rename_from, rename_to = args.rename.split(':', 1)]; unpacking a list
    of one element raises [ValueError]. *)
Definition unpack_rename (text : string) : result (string * string) :=
  match split_colon text with
  | (rename_from, Some rename_to) => Ok (rename_from, rename_to)
  | (_, None) => Raise ValueError
  end.

(** The message printed before [sys.exit(1)]. *)
Inductive ExitMessage : Type :=
| RenameFormat        (* Error: --rename format must be 'Old Name:New Name' *)
| ScaleNotPositive    (* Error: Scale factor must be positive *)
| OutputRequired      (* Error: --output is required when using --input *)
| InputNotFound       (* Error: Input file not found: ... *)
| NoFontsFound.       (* No mono font files found in ... *)

Section CommandLine.

Context {CharString : Type}.
Variable draw_scaled : spec_float -> dict string CharString -> CharString -> result CharString.

(** The file system as the script asks about it, which it does before it
    writes anything.  A directory is a value of [Dir]: [joinpath d n] is
    [d / n], [dir_exists d] is [d.exists()], [glob d pattern] lists
    [d.glob(pattern)], [sorted] is the built-in applied to a list of paths,
    [os_path_exists] is [os.path.exists] and [script_dir] is
    [Path(__file__).parent.parent]. *)
Context {Dir : Type}.
Variable joinpath : Dir -> string -> Dir.
Variable dir_exists : Dir -> bool.
Variable glob : Dir -> string -> list Path.
Variable sorted : list Path -> list Path.
Variable os_path_exists : string -> bool.
Variable script_dir : Dir.

Definition find_mono_fonts (fonts_dir : Dir) : list Path :=
  let mono_dir := joinpath fonts_dir "mono" in
  let font_files := [] in
  if negb (dir_exists mono_dir) then font_files
  else
    let ttf_dir := joinpath mono_dir "ttf" in
    let font_files :=
      if dir_exists ttf_dir then font_files ++ glob ttf_dir "*.ttf" else font_files in
    let otf_dir := joinpath mono_dir "otf" in
    let font_files :=
      if dir_exists otf_dir then font_files ++ glob otf_dir "*.otf" else font_files in
    let var_dir := joinpath mono_dir "variable" in
    let font_files :=
      if dir_exists var_dir then font_files ++ glob var_dir "*.ttf" else font_files in
    sorted font_files.

(** How a run of [main] ends: [sys.exit], an exception that nothing catches
    (single-file mode), or a normal return with the files and the
    "Error processing" lines of batch mode. *)
Inductive Outcome : Type :=
| SystemExit (code : Z) (message : ExitMessage)
| Uncaught (e : exn)
| Returned (st : @Batch CharString).

(** "Parse rename argument". *)
Definition parse_rename (rename : option string) : Outcome + option string * option string :=
  if truthy rename then
    let text := default EmptyString rename in
    if negb (contains ":" text) then inl (SystemExit 1 RenameFormat)
    else match unpack_rename text with
         | Ok (rename_from, rename_to) => inr (Some rename_from, Some rename_to)
         | Raise e => inl (Uncaught e)
         end
  else inr (None, None).

(** [main] after [parser.parse_args()].  The warning for a factor above
    [2.0] is a print and changes nothing. *)
Definition main (args : Namespace) (disk : gmap string Font) : Outcome :=
  match parse_rename (args_rename args) with
  | inl outcome => outcome
  | inr (rename_from, rename_to) =>
      if SFleb (args_scale args) (S754_zero false) then SystemExit 1 ScaleNotPositive
      else if truthy (args_input args) then
        if negb (truthy (args_output args)) then SystemExit 1 OutputRequired
        else if negb (os_path_exists (default EmptyString (args_input args)))
        then SystemExit 1 InputNotFound
        else
          match scale_font draw_scaled disk (default EmptyString (args_input args))
                  (default EmptyString (args_output args)) (args_scale args)
                  rename_from rename_to with
          | Ok disk' => Returned {| disk_of := disk'; errors := [] |}
          | Raise e => Uncaught e
          end
      else
        let fonts_dir := joinpath script_dir (args_fonts_dir args) in
        let font_files := find_mono_fonts fonts_dir in
        match font_files with
        | [] => SystemExit 1 NoFontsFound
        | _ :: _ =>
            Returned (batch_loop draw_scaled (args_scale args) (args_suffix args)
                        rename_from rename_to font_files {| disk_of := disk; errors := [] |})
        end
  end.

End CommandLine.

(** ** Notions used in the statements *)

(** A positive normal binary64 number below [2^53]: a mantissa of 53 bits
    and an exponent between [-1074] and [0]. *)
Definition positive_normal (s : spec_float) : Prop :=
  match s with
  | S754_finite false m e => Z.pos (digits2_pos m) = 53 /\ -1074 <= e <= 0
  | _ => False
  end.

(** The exact value of a finite factor is [significand s / 2 ^ shift s]. *)
Definition significand (s : spec_float) : Z :=
  match s with
  | S754_finite _ m _ => Z.pos m
  | _ => 0
  end.

Definition shift (s : spec_float) : Z :=
  match s with
  | S754_finite _ _ e => - e
  | _ => 0
  end.

Definition int_below (k : Z) (x : Z) : Prop := Z.abs x < 2 ^ k.

(** [z] is [x] times [s] truncated toward zero, the product having first
    been rounded to binary64: [z] has the sign of [x], its magnitude is at most
    [|x| * s * (1 + 2^-52)], and every integer [n <= |x| * s] is at most [|z|]
    as long as the product stays below [2^53]. *)
Definition truncation_of (s : spec_float) (x z : Z) : Prop :=
  z = Z.sgn x * Z.abs z /\
  Z.abs z * 2 ^ shift s * 2 ^ 52 <= Z.abs x * significand s * (2 ^ 52 + 1) /\
  (Z.abs x * significand s < 2 ^ (53 + shift s) ->
   forall n, n * 2 ^ shift s <= Z.abs x * significand s -> n <= Z.abs z).

(** The scale factors of the examples. *)
Definition one : spec_float := float_of_dyadic 1 0.
Definition one_and_a_half : spec_float := float_of_dyadic 3 (-1).
Definition one_and_three_quarters : spec_float := float_of_dyadic 7 (-2).
Definition a_quarter : spec_float := float_of_dyadic 1 (-2).
(** The default [1.08], that is [0x3FF147AE147AE148]. *)
Definition default_scale : spec_float := float_of_dyadic 4863887597560136 (-52).

(** One attribute after [o.a = int(o.a * s)]. *)
Definition scaled_attr (s : spec_float) (o o' : obj) (a : string) : Prop :=
  exists v v', o !! a = Some v /\ scale_int s v = Ok v' /\ o' !! a = Some v'.

(** [o'] is [o] with exactly the attributes [fields] scaled. *)
Definition scaled_obj (s : spec_float) (fields : list string) (o o' : obj) : Prop :=
  (forall a, a ∈ fields -> scaled_attr s o o' a) /\
  (forall a, a ∉ fields -> o' !! a = o !! a).

(** *** Bounding boxes recomputed from the outline

    The bounds as the specification wants them: for a simple glyph the extrema
    of its points, for a composite the extrema of the points of the
    referenced glyphs moved by the component offsets. *)
Definition extent (vs : list Z) : option (Z * Z) :=
  match vs with
  | [] => None
  | v :: vs' => Some (foldr Z.min v vs', foldr Z.max v vs')
  end.

Definition component_points (glyf : dict string Glyph) (c : Component) : list (Z * Z) :=
  match dict_get id glyf (glyphName c) with
  | Ok base =>
      map (fun p => (p.1 + default 0 (component_attrs c !! "x"),
                     p.2 + default 0 (component_attrs c !! "y")))
          (coordinates base)
  | Raise _ => []
  end.

Definition glyph_points (glyf : dict string Glyph) (g : Glyph) : list (Z * Z) :=
  if isComposite g then concat (map (component_points glyf) (components g))
  else coordinates g.

Definition recalc_bounds (glyf : dict string Glyph) (g : Glyph) : option (Z * Z * Z * Z) :=
  match extent (glyph_points glyf g).*1, extent (glyph_points glyf g).*2 with
  | Some (x0, x1), Some (y0, y1) => Some (x0, y0, x1, y1)
  | _, _ => None
  end.

Definition stored_bounds (g : Glyph) : option (Z * Z * Z * Z) :=
  x0 ← glyph_attrs g !! "xMin"; y0 ← glyph_attrs g !! "yMin";
  x1 ← glyph_attrs g !! "xMax"; y1 ← glyph_attrs g !! "yMax";
  Some (x0, y0, x1, y1).

(** *** Renaming, as the specification words it *)

Definition with_text (r : NameRecord) (text : string) : NameRecord :=
  {| nameID := nameID r; platformID := platformID r; platEncID := platEncID r;
     langID := langID r; string_ := Decodable text |}.

Definition renamed (old_family new_family : string) (r : NameRecord) : NameRecord :=
  match toUnicode r with
  | None => r
  | Some text =>
      if contains old_family text
      then with_text r (py_replace text old_family new_family)
      else if contains (nospace old_family) text
           then with_text r (py_replace text (nospace old_family) (nospace new_family))
           else r
  end.

Definition ids (r : NameRecord) : Z * Z * Z * Z :=
  (nameID r, platformID r, platEncID r, langID r).

(** What [if hasattr(o, a) and o.a: o.a = int(o.a * s)] leaves of a value:
    zero stays, anything else is scaled. *)
Definition scaled_truthy (s : spec_float) (v v' : Z) : Prop :=
  (v = 0 /\ v' = 0) \/ (v ≠ 0 /\ scale_int s v = Ok v').

(** The specification's rule for one number: the integer nearest to [x * s],
    ties away from zero or ties to even. *)
Definition nearest_of (s : spec_float) (x z : Z) : Prop :=
  z = round_half_away x (significand s) (- shift s) \/
  z = round_half_even x (significand s) (- shift s).

(** The script's rule for one number: [int(x * s)], which truncates. *)
Definition scaled_int (s : spec_float) (x z : Z) : Prop :=
  scale_int s x = Ok z /\ truncation_of s x z.

Definition scaled_point (s : spec_float) (p p' : Z * Z) : Prop :=
  scaled_int s p.1 p'.1 /\ scaled_int s p.2 p'.2.

Definition scaled_offsets (s : spec_float) (c c' : Component) : Prop :=
  glyphName c' = glyphName c /\
  (forall a, a ∈ offset_fields ->
     option_Forall2 (scaled_int s) (component_attrs c !! a) (component_attrs c' !! a)) /\
  (forall a, a ∉ offset_fields -> component_attrs c' !! a = component_attrs c !! a).

Definition obj_below (k : Z) (o : obj) : Prop :=
  forall a v, o !! a = Some v -> int_below k v.

Definition glyph_below (k : Z) (g : Glyph) : Prop :=
  Forall (fun p => int_below k p.1 /\ int_below k p.2) (coordinates g) /\
  Forall (fun c => obj_below k (component_attrs c)) (components g) /\
  obj_below k (glyph_attrs g).

(** A glyph that has [xMin] has the other three bounds as well. *)
Definition bbox_complete (g : Glyph) : Prop :=
  hasattr (glyph_attrs g) "xMin" = true ->
  forall a, a ∈ bbox_fields -> is_Some (glyph_attrs g !! a).

(** Glyphs of the examples: one point at [(1, 1)]; a two-point outline [A]
    and a composite [B] that places [A] at offset [(1, 1)], both with the
    bounding boxes of their outlines. *)
Definition unit_glyph : Glyph :=
  {| numberOfContours := 1; components := []; coordinates := [(1, 1)];
     glyph_attrs := {[ "xMin" := 1; "yMin" := 1; "xMax" := 1; "yMax" := 1 ]} |}.

Definition glyph_A : Glyph :=
  {| numberOfContours := 1; components := []; coordinates := [(1, 1); (3, 3)];
     glyph_attrs := {[ "xMin" := 1; "yMin" := 1; "xMax" := 3; "yMax" := 3 ]} |}.

Definition glyph_B : Glyph :=
  {| numberOfContours := -1;
     components := [ {| glyphName := "A"; component_attrs := {[ "x" := 1; "y" := 1 ]} |} ];
     coordinates := [];
     glyph_attrs := {[ "xMin" := 2; "yMin" := 2; "xMax" := 4; "yMax" := 4 ]} |}.

Definition glyf_AB : dict string Glyph := [("A"%string, glyph_A); ("B"%string, glyph_B)].

(** Name records of the examples. *)
Definition full_name_record : NameRecord :=
  {| nameID := 4; platformID := 3; platEncID := 1; langID := 1033;
     string_ := Decodable "Reddit Mono Regular" |}.

Definition postscript_name_record : NameRecord :=
  {| nameID := 6; platformID := 3; platEncID := 1; langID := 1033;
     string_ := Decodable "RedditMono-Regular" |}.

Definition undecodable_record : NameRecord :=
  {| nameID := 7; platformID := 1; platEncID := 0; langID := 0; string_ := Undecodable |}.

(** One entry of a metrics dictionary after scaling. *)
Definition scaled_metric (s : spec_float) (e e' : string * (Z * Z)) : Prop :=
  e'.1 = e.1 /\ scale_int s e.2.1 = Ok e'.2.1 /\ scale_int s e.2.2 = Ok e'.2.2.

(** Fonts of the examples, with no CFF table (the charstring type is
    immaterial).  [tiny_font] is a TrueType font with the glyphs [A] and [B]
    and every metric equal to [1]. *)
Definition keep_charstring : spec_float -> dict string unit -> unit -> result unit :=
  fun _ _ cs => Ok cs.

Definition all_ones (fields : list string) : obj :=
  list_to_map ((fun a => (a, 1)) <$> fields).

Definition tiny_font : @Font unit :=
  {| name := None; CFF := None; glyf := Some glyf_AB;
     hmtx := Some [("A"%string, (1, 1)); ("B"%string, (1, 1))]; vmtx := None;
     head := Some (all_ones head_fields); hhea := Some (all_ones hhea_fields);
     OS_2 := None; vhea := None; post := None;
     kern := Some [ {| kernTable := Some [(("A"%string, "B"%string), 1)] |} ];
     GPOS := None |}.

(** The same font without any outline table. *)
Definition outline_free_font : @Font unit :=
  {| name := None; CFF := None; glyf := None;
     hmtx := hmtx tiny_font; vmtx := None; head := head tiny_font; hhea := hhea tiny_font;
     OS_2 := None; vhea := None; post := None; kern := None; GPOS := None |}.

(** The same font with an OS/2 table of version 1, which has neither
    [sxHeight] nor [sCapHeight]. *)
Definition os2_version_1_font : @Font unit :=
  {| name := None; CFF := None; glyf := glyf tiny_font;
     hmtx := hmtx tiny_font; vmtx := None; head := head tiny_font; hhea := hhea tiny_font;
     OS_2 := Some (all_ones (take 15 os2_fields ++ ["xAvgCharWidth"%string]));
     vhea := None; post := None; kern := None; GPOS := None |}.

(** Three font files of a batch; the second one is not on the disk. *)
Definition path_A : Path := {| parent := "fonts/mono/ttf"; stem := "A"; suffix := ".ttf" |}.
Definition path_B : Path := {| parent := "fonts/mono/ttf"; stem := "B"; suffix := ".ttf" |}.
Definition path_C : Path := {| parent := "fonts/mono/ttf"; stem := "C"; suffix := ".ttf" |}.

Definition two_fonts_on_disk : @Batch unit :=
  {| disk_of := {[ str path_A := tiny_font; str path_C := tiny_font ]}; errors := [] |}.

(** *** The GPOS table, before and after

    [option_Forall2] relates a null slot to a null slot only, and [Forall2]
    lists of the same length: the relations below say that the tree keeps its
    shape and its nulls, and how each number changes. *)
Definition scaled_value_record (s : spec_float) (o o' : obj) : Prop :=
  (forall a, a ∈ value_fields -> option_Forall2 (scaled_truthy s) (o !! a) (o' !! a)) /\
  (forall a, a ∉ value_fields -> o' !! a = o !! a).

Definition scaled_anchor (s : spec_float) (o o' : obj) : Prop :=
  (forall a, a ∈ anchor_fields ->
     option_Forall2 (fun v v' => scale_int s v = Ok v') (o !! a) (o' !! a)) /\
  (forall a, a ∉ anchor_fields -> o' !! a = o !! a).

Definition scaled_value_pair (s : spec_float) (r r' : ValuePair) : Prop :=
  option_Forall2 (scaled_value_record s) (Value1 r) (Value1 r') /\
  option_Forall2 (scaled_value_record s) (Value2 r) (Value2 r').

Definition scaled_pair_set (s : spec_float) (ps ps' : PairSetT) : Prop :=
  Forall2 (scaled_value_pair s) (PairValueRecord ps) (PairValueRecord ps').

Definition scaled_class1 (s : spec_float) (r r' : Class1RecordT) : Prop :=
  Forall2 (scaled_value_pair s) (Class2Record r) (Class2Record r').

Definition scaled_anchors (s : spec_float) (l l' : list (option obj)) : Prop :=
  Forall2 (option_Forall2 (scaled_anchor s)) l l'.

Definition scaled_mark (s : spec_float) (r r' : MarkRecordT) : Prop :=
  Class r' = Class r /\ option_Forall2 (scaled_anchor s) (MarkAnchor r) (MarkAnchor r').

Definition scaled_ligature (s : spec_float) (r r' : LigatureAttachT) : Prop :=
  Forall2 (fun c c' => scaled_anchors s (LigatureAnchor c) (LigatureAnchor c'))
    (ComponentRecord r) (ComponentRecord r').

Definition scaled_subtable (s : spec_float) (st st' : Subtable) : Prop :=
  option_Forall2 (Forall2 (scaled_value_record s)) (SinglePos st) (SinglePos st') /\
  option_Forall2 (Forall2 (option_Forall2 (scaled_pair_set s))) (PairSet st) (PairSet st') /\
  option_Forall2 (Forall2 (scaled_class1 s)) (Class1Record st) (Class1Record st') /\
  option_Forall2 (Forall2 (fun r r' => scaled_anchors s (BaseAnchor r) (BaseAnchor r')))
    (BaseArray st) (BaseArray st') /\
  option_Forall2 (Forall2 (scaled_mark s)) (MarkArray st) (MarkArray st') /\
  option_Forall2 (Forall2 (fun r r' => scaled_anchors s (Mark2Anchor r) (Mark2Anchor r')))
    (Mark2Array st) (Mark2Array st') /\
  option_Forall2 (Forall2 (scaled_ligature s)) (LigatureArray st) (LigatureArray st').

(** Every number of a subtable is below [2^k] in magnitude. *)
Definition slot_below (k : Z) (o : option obj) : Prop := from_option (obj_below k) True o.

Definition value_pair_below (k : Z) (r : ValuePair) : Prop :=
  slot_below k (Value1 r) /\ slot_below k (Value2 r).

Definition pair_set_below (k : Z) (ps : PairSetT) : Prop :=
  Forall (value_pair_below k) (PairValueRecord ps).

Definition anchors_below (k : Z) (l : list (option obj)) : Prop := Forall (slot_below k) l.

Definition subtable_below (k : Z) (st : Subtable) : Prop :=
  from_option (Forall (obj_below k)) True (SinglePos st) /\
  from_option (Forall (from_option (pair_set_below k) True)) True (PairSet st) /\
  from_option (Forall (fun r => Forall (value_pair_below k) (Class2Record r))) True
    (Class1Record st) /\
  from_option (Forall (fun r => anchors_below k (BaseAnchor r))) True (BaseArray st) /\
  from_option (Forall (fun r => slot_below k (MarkAnchor r))) True (MarkArray st) /\
  from_option (Forall (fun r => anchors_below k (Mark2Anchor r))) True (Mark2Array st) /\
  from_option (Forall (fun r => Forall (fun c => anchors_below k (LigatureAnchor c))
                                  (ComponentRecord r))) True (LigatureArray st).

(** A mark-to-base subtable with a null pair set, a null base anchor and a
    null mark anchor next to entries that are there. *)
Definition subtable_with_nulls : Subtable :=
  {| SinglePos := None;
     PairSet := Some [None;
                      Some {| PairValueRecord :=
                                [ {| Value1 := Some {[ "XAdvance" := -35 ]};
                                     Value2 := None |} ] |}];
     Class1Record := None;
     BaseArray := Some [ {| BaseAnchor :=
                              [None; Some {[ "XCoordinate" := 250; "YCoordinate" := 700 ]}] |} ];
     MarkArray := Some [ {| Class := 0; MarkAnchor := None |};
                         {| Class := 1;
                            MarkAnchor := Some {[ "XCoordinate" := 125; "YCoordinate" := -12 ]} |} ];
     Mark2Array := None;
     LigatureArray := None |}.

(** *** Valid fonts

    A font the script can process: the tables it reads unconditionally are
    there with the fields it reads, dictionaries have distinct keys, and every
    number is below [2^k] in magnitude. *)
Definition has_fields (k : Z) (fields : list string) (o : obj) : Prop :=
  forall a, a ∈ fields -> exists v, o !! a = Some v /\ int_below k v.

Definition metrics_below (k : Z) (m : dict string (Z * Z)) : Prop :=
  Forall (fun e => int_below k e.2.1 /\ int_below k e.2.2) m.

Definition kern_below (k : Z) (t : KernSubtable) : Prop :=
  from_option (fun kt => NoDup (dict_keys kt) /\ Forall (fun e => int_below k e.2) kt) True
    (kernTable t).

Definition gpos_below (k : Z) (t : GPOSTable) : Prop :=
  from_option (Forall (fun l => Forall (subtable_below k) (SubTable l))) True (LookupList t).

Definition valid_font {CharString : Type} (k : Z) (font : @Font CharString) : Prop :=
  (CFF font = None ->
     exists g, glyf font = Some g /\ Forall (fun e => glyph_below k e.2 /\ bbox_complete e.2) g) /\
  (exists m, hmtx font = Some m /\ metrics_below k m) /\
  from_option (metrics_below k) True (vmtx font) /\
  (exists h, head font = Some h /\ has_fields k head_fields h) /\
  (exists h, hhea font = Some h /\ has_fields k hhea_fields h) /\
  from_option (has_fields k os2_fields) True (OS_2 font) /\
  from_option (has_fields k vhea_fields) True (vhea font) /\
  from_option (has_fields k post_fields) True (post font) /\
  from_option (Forall (kern_below k)) True (kern font) /\
  from_option (gpos_below k) True (GPOS font).

(** The font with another CFF table. *)
Definition with_CFF {CharString : Type} (font : @Font CharString) (cff : option CFFTable)
    : @Font CharString :=
  {| name := name font; CFF := cff; glyf := glyf font; hmtx := hmtx font; vmtx := vmtx font;
     head := head font; hhea := hhea font; OS_2 := OS_2 font; vhea := vhea font;
     post := post font; kern := kern font; GPOS := GPOS font |}.

(** *** Scaling there and back *)

(** [1.0 / s] in binary64. *)
Definition reciprocal (s : spec_float) : spec_float := SFdiv prec emax one s.

(** [s] is at least [1] and below [2^24]. *)
Definition enlarging (s : spec_float) : Prop :=
  2 ^ shift s <= significand s < 2 ^ (shift s + 24).

(** [t] is the inverse of [s] up to a relative error of [2^-50], as the
    binary64 quotient [1.0 / s] is. *)
Definition inverse_of (s t : spec_float) : Prop :=
  2 ^ 50 * Z.abs (significand s * significand t - 2 ^ (shift s + shift t))
  <= 2 ^ (shift s + shift t).

Definition within_one (p q : Z * Z) : Prop :=
  Z.abs (q.1 - p.1) <= 1 /\ Z.abs (q.2 - p.2) <= 1.

(** A glyph with the single point [(7, 7)]. *)
Definition glyph_seven : Glyph :=
  {| numberOfContours := 1; components := []; coordinates := [(7, 7)];
     glyph_attrs := {[ "xMin" := 7; "yMin" := 7; "xMax" := 7; "yMax" := 7 ]} |}.

(** *** Tactics for concrete objects *)

(** Numbers of a concrete object, one attribute after the other. *)
Ltac concrete_obj_below :=
  let Hv := fresh "Hv" in
  intros ? ? Hv;
  repeat (apply lookup_insert_Some in Hv as [[_ <-]|[_ Hv]]; [by vm_compute|]);
  first [ apply lookup_singleton_Some in Hv as [_ <-]; by vm_compute
        | by rewrite lookup_empty in Hv ].

Ltac concrete_has_fields :=
  let Hin := fresh "Hin" in
  intros ? Hin;
  repeat (apply elem_of_cons in Hin as [->|Hin];
          [exists 1; split; [by vm_compute|by vm_compute]|]);
  by apply elem_of_nil in Hin.

(** *** Order, sign and size of scaled numbers *)

(** [s] is below [2^k]. *)
Definition factor_below (k : Z) (s : spec_float) : Prop :=
  significand s < 2 ^ (shift s + k).

(** [s] is at most [1]. *)
Definition shrinking (s : spec_float) : Prop := significand s <= 2 ^ shift s.

(** [s] is the integer [n]. *)
Definition integer_factor (n : Z) (s : spec_float) : Prop :=
  significand s = n * 2 ^ shift s.

(** The factor [2.0]. *)
Definition two : spec_float := float_of_dyadic 2 0.

(** A factor that is a number, zero included; the others are the infinities
    and NaN. *)
Definition finite (s : spec_float) : bool :=
  match s with
  | S754_zero _ | S754_finite _ _ _ => true
  | S754_infinity _ | S754_nan => false
  end.

(** The glyph reflected through the origin: every coordinate, component
    offset and bound with the opposite sign. *)
Definition mirror_obj (o : obj) : obj := fmap (M := gmap string) Z.opp o.

Definition mirror_component (c : Component) : Component :=
  {| glyphName := glyphName c; component_attrs := mirror_obj (component_attrs c) |}.

Definition mirror_point (p : Z * Z) : Z * Z := (- p.1, - p.2).

Definition mirror (g : Glyph) : Glyph :=
  {| numberOfContours := numberOfContours g;
     components := mirror_component <$> components g;
     coordinates := mirror_point <$> coordinates g;
     glyph_attrs := mirror_obj (glyph_attrs g) |}.

(** *** Tables, entry by entry *)

(** One entry of [glyf] after the loop of [scale_font]: the name stays, an
    empty glyph stays, any other glyph went through [scale_glyph_ttf], whose
    result does not depend on the table it is handed. *)
Definition scaled_glyph_entry (s : spec_float) (e e' : string * Glyph) : Prop :=
  e'.1 = e.1 /\
  if numberOfContours e.2 =? 0 then e'.2 = e.2
  else forall glyf_table, scale_glyph_ttf e.2 glyf_table s = Ok e'.2.

(** One entry of a [kernTable] after scaling. *)
Definition scaled_kern_entry (s : spec_float) (e e' : string * string * Z) : Prop :=
  e'.1 = e.1 /\ scale_int s e.2 = Ok e'.2.

(** The object has every attribute of the list. *)
Definition complete (fields : list string) (o : obj) : Prop :=
  forall a, a ∈ fields -> is_Some (o !! a).

(** No glyph name occurs twice in [glyf], [hmtx] or [vmtx], as in any Python
    dictionary. *)
Definition distinct_keys {CharString : Type} (font : @Font CharString) : Prop :=
  from_option (fun g => NoDup (dict_keys g)) True (glyf font) /\
  from_option (fun m => NoDup (dict_keys m)) True (hmtx font) /\
  from_option (fun m => NoDup (dict_keys m)) True (vmtx font).

(** A value record whose four fields are absent or zero. *)
Definition all_zero (o : obj) : Prop :=
  forall a, a ∈ value_fields -> o !! a = None \/ o !! a = Some 0.

(** A font whose only number is a metric: scaling it multiplies [head],
    [hhea] and the advance of the single glyph. *)
Definition glyph_empty : Glyph :=
  {| numberOfContours := 0; components := []; coordinates := []; glyph_attrs := ∅ |}.

(** *** Family names that do not occur *)

(** Neither the family name nor its space-free form occurs in the text. *)
Definition unmentioned (family text : string) : Prop :=
  contains family text = false /\ contains (nospace family) text = false.

(** The family occurs in no name record that decodes and in none of the
    names of the CFF table. *)
Definition family_absent {CharString : Type} (family : string) (font : @Font CharString) : Prop :=
  from_option
    (Forall (fun r => from_option (unmentioned family) True (toUnicode r))) True (name font) /\
  from_option
    (fun c =>
       from_option (Forall (fun n => contains (nospace family) n = false)) True (fontNames c) /\
       from_option (fun n => contains family n = false) True (FamilyName c) /\
       from_option (fun n => contains family n = false) True (FullName c))
    True (CFF font).

(** The identifiers of the name records, in order. *)
Definition record_ids {CharString : Type} (font : @Font CharString) : option (list (Z * Z * Z * Z)) :=
  option_map (map ids) (name font).

(** A font with the three name records of the examples and the names of a
    CFF table. *)
Definition named_font : @Font unit :=
  {| name := Some [full_name_record; postscript_name_record; undecodable_record];
     CFF := Some {| fontNames := Some ["RedditMono-Regular"%string];
                    FamilyName := Some "Reddit Mono"%string;
                    FullName := Some "Reddit Mono Regular"%string;
                    CharStrings := [] |};
     glyf := None; hmtx := None; vmtx := None; head := None; hhea := None; OS_2 := None;
     vhea := None; post := None; kern := None; GPOS := None |}.

(** *** Command lines of the examples *)

(** The arguments with another [--rename]. *)
Definition with_rename (args : Namespace) (rename : option string) : Namespace :=
  {| args_scale := args_scale args; args_input := args_input args;
     args_output := args_output args; args_suffix := args_suffix args;
     args_fonts_dir := args_fonts_dir args; args_rename := rename |}.

(** Batch mode with the defaults and the given factor. *)
Definition batch_args (scale : spec_float) : Namespace :=
  {| args_scale := scale; args_input := None; args_output := None; args_suffix := "";
     args_fonts_dir := "fonts"; args_rename := None |}.

(** A file system with the directory [fonts/mono/ttf] and the three font
    paths of the examples in it; directories are named by their paths. *)
Definition join_names (d n : string) : string := (d ++ "/" ++ n)%string.

Definition example_dirs (d : string) : bool :=
  bool_decide (d ∈ ["./fonts/mono"; "./fonts/mono/ttf"]%string).

Definition example_glob (d pattern : string) : list Path :=
  if String.eqb d "./fonts/mono/ttf" && String.eqb pattern "*.ttf"
  then [path_A; path_B; path_C] else [].

(** Paths sorted by their text. *)
Fixpoint insert_path (p : Path) (l : list Path) : list Path :=
  match l with
  | [] => [p]
  | q :: l' => if String.leb (str p) (str q) then p :: l else q :: insert_path p l'
  end.

Definition example_sorted (l : list Path) : list Path := foldr insert_path [] l.

(** [main] in that file system, started from the directory [.], with a
    stand-in for the pens that keeps every charstring. *)
Definition example_files (path : string) : bool :=
  bool_decide (path ∈ ["fonts/mono/ttf/A.ttf"; "fonts/mono/ttf/C.ttf"]%string).

Definition example_main : Namespace -> gmap string (@Font unit) -> @Outcome unit :=
  main keep_charstring join_names example_dirs example_glob example_sorted example_files ".".

(** The factor [-1.0]. *)
Definition minus_one : spec_float := float_of_dyadic (-1) 0.

(** * Properties
    ** Binary64 arithmetic of [int(x * scale_factor)] *)

Section Binary64.


Lemma shr_1_m mrs : 0 <= shr_m mrs -> shr_m (shr_1 mrs) = shr_m mrs / 2.
Proof.
  destruct mrs as [m r s]; simpl. intros Hm.
  destruct m as [|p|p]; [reflexivity| |lia].
  destruct p as [p|p|]; simpl.
  - rewrite Pos2Z.inj_xI. apply Z.div_unique with (r := 1); lia.
  - rewrite Pos2Z.inj_xO. apply Z.div_unique with (r := 0); lia.
  - reflexivity.
Qed.

Lemma iter_pos_shr_m d : forall mrs, 0 <= shr_m mrs ->
  shr_m (SpecFloat.iter_pos shr_1 d mrs) = shr_m mrs / 2 ^ Z.pos d.
Proof.
  induction d as [d IH|d IH|]; intros mrs Hm; simpl SpecFloat.iter_pos.
  - assert (H1 : 0 <= shr_m (shr_1 mrs)) by (rewrite shr_1_m by done; apply Z.div_pos; lia).
    assert (H2 : 0 <= shr_m (SpecFloat.iter_pos shr_1 d (shr_1 mrs)))
      by (rewrite IH by done; apply Z.div_pos; lia).
    rewrite IH, IH, shr_1_m by done.
    rewrite !Z.div_div by lia. f_equal.
    replace (Z.pos d~1) with (1 + Z.pos d + Z.pos d) by lia.
    rewrite !Z.pow_add_r, Z.pow_1_r by lia. lia.
  - assert (H2 : 0 <= shr_m (SpecFloat.iter_pos shr_1 d mrs))
      by (rewrite IH by done; apply Z.div_pos; lia).
    rewrite IH, IH by done.
    rewrite !Z.div_div by lia. f_equal.
    replace (Z.pos d~0) with (Z.pos d + Z.pos d) by lia.
    rewrite !Z.pow_add_r by lia. reflexivity.
  - rewrite shr_1_m by done. reflexivity.
Qed.

Lemma digits2_pos_size p : digits2_pos p = Pos.size p.
Proof. induction p; simpl; congruence. Qed.

Lemma digits2_pos_bounds p :
  2 ^ (Z.pos (digits2_pos p) - 1) <= Z.pos p < 2 ^ Z.pos (digits2_pos p).
Proof.
  induction p as [p IH|p IH|]; cbn [digits2_pos].
  - rewrite Pos2Z.inj_succ.
    replace (Z.succ (Z.pos (digits2_pos p)) - 1) with (Z.succ (Z.pos (digits2_pos p) - 1)) by lia.
    rewrite !Z.pow_succ_r by lia. lia.
  - rewrite Pos2Z.inj_succ.
    replace (Z.succ (Z.pos (digits2_pos p)) - 1) with (Z.succ (Z.pos (digits2_pos p) - 1)) by lia.
    rewrite !Z.pow_succ_r by lia. lia.
  - simpl. lia.
Qed.

Lemma digits2_pos_unique p d :
  2 ^ (d - 1) <= Z.pos p < 2 ^ d -> Z.pos (digits2_pos p) = d.
Proof.
  intros [Hl Hu]. pose proof (digits2_pos_bounds p) as [Hl' Hu'].
  assert (0 < d).
  { destruct d as [|d|d]; [simpl in Hu; lia|lia|].
    rewrite Z.pow_neg_r in Hu by lia. lia. }
  destruct (Z.lt_trichotomy (Z.pos (digits2_pos p)) d) as [Hlt|[Heq|Hgt]]; [|done|].
  - assert (2 ^ Z.pos (digits2_pos p) <= 2 ^ (d - 1)) by (apply Z.pow_le_mono_r; lia). lia.
  - assert (2 ^ d <= 2 ^ (Z.pos (digits2_pos p) - 1)) by (apply Z.pow_le_mono_r; lia). lia.
Qed.

Lemma fexp_normal k : 3 - emax - prec <= k - prec -> fexp prec emax k = k - prec.
Proof. unfold fexp, SpecFloat.emin. lia. Qed.

Lemma shr_no_shift mrs e n : n <= 0 -> shr mrs e n = (mrs, e).
Proof. destruct n; [reflexivity|lia|reflexivity]. Qed.

Lemma shr_shift_m mrs e n : 0 < n -> 0 <= shr_m mrs ->
  (shr mrs e n).2 = e + n /\ shr_m (shr mrs e n).1 = shr_m mrs / 2 ^ n.
Proof.
  destruct n as [|d|d]; [lia| |lia]. intros _ Hm. simpl.
  split; [reflexivity|]. apply iter_pos_shr_m, Hm.
Qed.

Lemma round_nearest_even_cases m l :
  round_nearest_even m l = m \/ round_nearest_even m l = m + 1.
Proof.
  destruct l as [|[]]; simpl; auto. destruct (Z.even m); auto.
Qed.

Lemma shr_m_record_of_loc m l : shr_m (shr_record_of_loc m l) = m.
Proof. by destruct l as [|[]]. Qed.

(** The second half of [binary_round_aux]: the shifted mantissa is rounded to
    a neighbour, and shifted once more when the rounding carries into a new
    bit. *)
Lemma round_and_renormalize sx (mrs1 : shr_record) (e1 : Z) :
  1 <= shr_m mrs1 < 2 ^ prec ->
  3 - emax - prec <= e1 -> e1 + 1 <= emax - prec ->
  exists m2 m' e',
    (let '(mrs'', e'') :=
       shr_fexp prec emax (round_nearest_even (shr_m mrs1) (loc_of_shr_record mrs1)) e1 loc_Exact in
     match shr_m mrs'' with
     | 0 => S754_zero sx
     | Z.pos m => if e'' <=? emax - prec then S754_finite sx m e'' else S754_infinity sx
     | Z.neg _ => S754_nan
     end) = S754_finite sx m' e' /\
    (m2 = shr_m mrs1 \/ m2 = shr_m mrs1 + 1) /\
    ((e' = e1 /\ Z.pos m' = m2) \/ (e' = e1 + 1 /\ 2 * Z.pos m' = m2)) /\
    Z.pos m' < 2 ^ prec /\ (2 ^ (prec - 1) <= shr_m mrs1 -> 2 ^ (prec - 1) <= Z.pos m').
Proof.
  intros Hm1 Hmin Hmax. set (m1 := shr_m mrs1) in *.
  set (m2 := round_nearest_even m1 (loc_of_shr_record mrs1)).
  assert (Hm2 : m2 = m1 \/ m2 = m1 + 1) by apply round_nearest_even_cases.
  destruct m2 as [|p2|p2] eqn:Ep2; [lia| |lia].
  unfold shr_fexp.
  destruct (Z.eq_dec (Z.pos p2) (2 ^ prec)) as [Hcarry|Hnc].
  - assert (Hd2 : Zdigits2 (Z.pos p2) = prec + 1).
    { simpl. apply digits2_pos_unique. rewrite Hcarry.
      replace (prec + 1 - 1) with prec by lia.
      split; [lia|]. apply Z.pow_lt_mono_r; unfold prec; lia. }
    rewrite Hd2, fexp_normal by (unfold prec, emax in *; lia).
    replace (prec + 1 + e1 - prec - e1) with 1 by lia.
    cbn [shr shr_record_of_loc SpecFloat.iter_pos].
    rewrite shr_1_m by (simpl; lia). cbn [shr_m]. rewrite Hcarry.
    change (2 ^ prec / 2) with (Z.pos (2 ^ 52)).
    assert (Hb : (e1 + 1 <=? emax - prec) = true) by (apply Z.leb_le; lia).
    rewrite Hb. exists (Z.pos p2), (2 ^ 52)%positive, (e1 + 1).
    split; [reflexivity|]. split; [done|].
    split; [right; split; [reflexivity|]; rewrite Hcarry; reflexivity|].
    split; [unfold prec; lia|]. intros _. unfold prec. lia.
  - pose proof (digits2_pos_bounds p2) as [Hlo Hhi].
    assert (Hd2 : Zdigits2 (Z.pos p2) <= prec).
    { simpl. destruct (Z.le_gt_cases (Z.pos (digits2_pos p2)) prec); [done|].
      assert (2 ^ prec <= 2 ^ (Z.pos (digits2_pos p2) - 1)) by (apply Z.pow_le_mono_r; lia).
      lia. }
    rewrite shr_no_shift by (unfold fexp, SpecFloat.emin; lia).
    cbn [shr_record_of_loc shr_m].
    assert (Hb : (e1 <=? emax - prec) = true) by (apply Z.leb_le; lia).
    rewrite Hb. exists (Z.pos p2), p2, e1.
    split; [reflexivity|]. split; [done|]. split; [by left|].
    split; [lia|]. lia.
Qed.

(** Rounding a positive mantissa of the normal range, whatever was already
    shifted out of it: the result is one of the two neighbours [m / 2^δ] and
    [m / 2^δ + 1] on the grid of step [2^(e + δ)]. *)
Lemma binary_round_aux_bracket sx (m : positive) (e : Z) (l : location) :
  let D := Z.pos (digits2_pos m) in
  let δ := Z.max 0 (D - prec) in
  3 - emax - prec <= D + e - prec ->
  e < emax - prec -> D + e < emax ->
  exists m2 m' e',
    binary_round_aux prec emax sx (Z.pos m) e l = S754_finite sx m' e' /\
    (m2 = Z.pos m / 2 ^ δ \/ m2 = Z.pos m / 2 ^ δ + 1) /\
    ((e' = e + δ /\ Z.pos m' = m2) \/ (e' = e + δ + 1 /\ 2 * Z.pos m' = m2)) /\
    Z.pos m' < 2 ^ prec /\ (prec <= D -> 2 ^ (prec - 1) <= Z.pos m').
Proof.
  intros D δ Hnorm He Hov.
  pose proof (digits2_pos_bounds m) as [Hlo Hhi]. fold D in Hlo, Hhi.
  unfold binary_round_aux. unfold shr_fexp at 1.
  change (Zdigits2 (Z.pos m)) with D.
  rewrite (fexp_normal (D + e)) by done.
  assert (Hfirst : exists mrs1,
            shr (shr_record_of_loc (Z.pos m) l) e (D + e - prec - e) = (mrs1, e + δ) /\
            shr_m mrs1 = Z.pos m / 2 ^ δ /\ 1 <= shr_m mrs1 < 2 ^ prec /\
            (prec <= D -> 2 ^ (prec - 1) <= shr_m mrs1)).
  { destruct (Z.le_gt_cases (D - prec) 0) as [Hle|Hgt].
    - assert (Hδ : δ = 0) by (unfold δ; lia).
      rewrite shr_no_shift by lia. eexists. rewrite Hδ, Z.add_0_r. split; [reflexivity|].
      rewrite shr_m_record_of_loc, Z.div_1_r. split; [done|].
      assert (2 ^ D <= 2 ^ prec) by (apply Z.pow_le_mono_r; lia).
      split; [lia|]. intros HD. replace D with prec in * by lia. lia.
    - assert (Hδ : δ = D - prec) by (unfold δ; lia).
      destruct (shr_shift_m (shr_record_of_loc (Z.pos m) l) e (D + e - prec - e))
        as [He1 Hm1]; [lia|rewrite shr_m_record_of_loc; lia|].
      destruct (shr (shr_record_of_loc (Z.pos m) l) e (D + e - prec - e)) as [mrs1 e1].
      simpl in He1, Hm1. subst e1. rewrite shr_m_record_of_loc in Hm1.
      replace (D + e - prec - e) with δ in * by lia.
      exists mrs1. split; [reflexivity|]. split; [done|]. rewrite Hm1.
      assert (2 ^ (prec - 1) <= Z.pos m / 2 ^ δ).
      { apply Z.div_le_lower_bound; [lia|].
        rewrite <- Z.pow_add_r by (unfold prec in *; lia).
        replace (δ + (prec - 1)) with (D - 1) by lia. done. }
      assert (Z.pos m / 2 ^ δ < 2 ^ prec).
      { apply Z.div_lt_upper_bound; [lia|].
        rewrite <- Z.pow_add_r by (unfold prec in *; lia).
        replace (δ + prec) with D by lia. done. }
      assert (1 <= 2 ^ (prec - 1)) by (unfold prec; lia). lia. }
  destruct Hfirst as (mrs1 & -> & Hm1 & Hm1r & Hm1n).
  destruct (round_and_renormalize sx mrs1 (e + δ))
    as (m2 & m' & e' & Hr & Hm2 & He' & Hup & Hlow);
    [done|unfold δ; lia|unfold δ, prec, emax in *; lia|].
  exists m2, m', e'. rewrite <- Hm1. repeat split; try done. intros HD. auto.
Qed.

Lemma binary_round_aux_small sx (m : positive) (e : Z) :
  Z.pos (digits2_pos m) <= prec ->
  3 - emax - prec <= Z.pos (digits2_pos m) + e - prec -> e <= emax - prec ->
  binary_round_aux prec emax sx (Z.pos m) e loc_Exact = S754_finite sx m e.
Proof.
  set (D := Z.pos (digits2_pos m)). intros HD Hnorm He.
  unfold binary_round_aux, shr_fexp.
  change (Zdigits2 (Z.pos m)) with D.
  rewrite (fexp_normal (D + e)) by done.
  rewrite shr_no_shift by lia. cbn [shr_record_of_loc shr_m loc_of_shr_record round_nearest_even].
  change (Zdigits2 (Z.pos m)) with D.
  rewrite (fexp_normal (D + e)) by done.
  rewrite shr_no_shift by lia. cbn [shr_m].
  assert (Hb : (e <=? emax - prec) = true) by (apply Z.leb_le; done).
  by rewrite Hb.
Qed.

Lemma pos_iter_xO p d : Z.pos (Pos.iter xO p d) = Z.pos p * 2 ^ Z.pos d.
Proof.
  induction d as [|d IH] using Pos.peano_ind.
  - simpl. lia.
  - rewrite Pos.iter_succ, Pos2Z.inj_succ, Z.pow_succ_r by lia. lia.
Qed.

(** The conversion of an [int] below [2^53] is exact: a 53-bit mantissa and
    an exponent in [-52, 0]. *)
Lemma float_of_int_pos x : 0 < x < 2 ^ 53 ->
  exists mx k, float_of_int x = Ok (S754_finite false mx (- k)) /\
    0 <= k <= 52 /\ Z.pos mx = x * 2 ^ k /\ Z.pos (digits2_pos mx) = 53.
Proof.
  intros [Hx0 Hx1]. destruct x as [|p|p]; [lia| |lia].
  unfold float_of_int, float_of_dyadic, binary_normalize, binary_round.
  pose proof (digits2_pos_bounds p) as [Hlo Hhi].
  set (d := Z.pos (digits2_pos p)) in *.
  assert (Hd : d <= 53).
  { destruct (Z.le_gt_cases d 53); [done|].
    assert (2 ^ 53 <= 2 ^ (d - 1)) by (apply Z.pow_le_mono_r; lia). lia. }
  replace (d + 0) with d by lia.
  rewrite fexp_normal by (unfold prec, emax; lia).
  unfold shl_align. replace (d - prec - 0) with (d - 53) by (unfold prec; lia).
  destruct (d - 53) as [|q|q] eqn:Eq; [|lia|].
  - rewrite binary_round_aux_small by (fold d; unfold prec, emax; lia).
    exists p, 0. split; [reflexivity|]. split; [lia|]. split; [lia|]. fold d. lia.
  - assert (Hm : Z.pos (Pos.iter xO p q) = Z.pos p * 2 ^ Z.pos q) by apply pos_iter_xO.
    assert (Hdig : Z.pos (digits2_pos (Pos.iter xO p q)) = 53).
    { apply digits2_pos_unique. rewrite Hm. replace 53 with (d + Z.pos q) by lia.
      replace (d + Z.pos q - 1) with ((d - 1) + Z.pos q) by lia.
      rewrite !Z.pow_add_r by lia. nia. }
    rewrite binary_round_aux_small by (rewrite ?Hdig; unfold prec, emax; lia).
    exists (Pos.iter xO p q), (Z.pos q).
    split; [f_equal; f_equal; unfold prec; lia|]. split; [lia|]. done.
Qed.

Lemma shiftl_double m E : Z.shiftl m (E + 1) = Z.shiftl (2 * m) E.
Proof.
  destruct (Z.le_gt_cases 0 E) as [HE|HE].
  - rewrite !Z.shiftl_mul_pow2 by lia. rewrite Z.pow_add_r by lia. lia.
  - rewrite <- !Z.shiftr_opp_r, !Z.shiftr_div_pow2 by lia.
    replace (- E) with (1 + - (E + 1)) by lia.
    rewrite Z.pow_add_r, Z.pow_1_r by lia.
    rewrite Z.div_mul_cancel_l by lia. reflexivity.
Qed.

Lemma scale_int_pos x ms a :
  0 < x < 2 ^ 53 -> Z.pos (digits2_pos ms) = 53 -> 0 <= a <= 1074 ->
  exists z, scale_int (S754_finite false ms (- a)) x = Ok z /\ 0 <= z /\
    z * 2 ^ a * 2 ^ 52 <= x * Z.pos ms * (2 ^ 52 + 1) /\
    (x * Z.pos ms < 2 ^ (53 + a) -> forall n, n * 2 ^ a <= x * Z.pos ms -> n <= z).
Proof.
  intros Hx Hds Ha.
  destruct (float_of_int_pos x Hx) as (mx & k & Hf & Hk & Hmx & Hdx).
  unfold scale_int. rewrite Hf. cbn [mbind result_bind SFmul xorb].
  set (m := (mx * ms)%positive).
  pose proof (digits2_pos_bounds mx) as Hbx. rewrite Hdx in Hbx.
  pose proof (digits2_pos_bounds ms) as Hbs. rewrite Hds in Hbs.
  pose proof (digits2_pos_bounds m) as Hbm.
  set (D := Z.pos (digits2_pos m)) in *.
  assert (Hm : Z.pos m = Z.pos mx * Z.pos ms) by (unfold m; lia).
  assert (Hmlo : 2 ^ 104 <= Z.pos m).
  { rewrite Hm. change (2 ^ 104) with (2 ^ (53 - 1) * 2 ^ (53 - 1)).
    apply Z.mul_le_mono_nonneg; lia. }
  assert (Hmhi : Z.pos m < 2 ^ 106).
  { rewrite Hm. change (2 ^ 106) with (2 ^ 53 * 2 ^ 53).
    apply Z.mul_lt_mono_nonneg; lia. }
  assert (HD : 105 <= D <= 106).
  { split.
    - destruct (Z.le_gt_cases 105 D); [done|].
      assert (2 ^ D <= 2 ^ 104) by (apply Z.pow_le_mono_r; lia). lia.
    - destruct (Z.le_gt_cases D 106); [done|].
      assert (2 ^ 106 <= 2 ^ (D - 1)) by (apply Z.pow_le_mono_r; lia). lia. }
  destruct (binary_round_aux_bracket false m (- k + - a) loc_Exact)
    as (m2 & m' & e' & Hr & Hm2 & He' & _); fold D; [unfold prec, emax; lia..|].
  fold D in Hr, Hm2, He'.
  replace (Z.max 0 (D - prec)) with (D - 53) in * by (unfold prec; lia).
  set (δ := D - 53) in *. set (E := - k + - a + δ) in *.
  rewrite Hr. cbn [py_int cond_Zopp].
  assert (Hz : Z.shiftl (Z.pos m') e' = Z.shiftl m2 E).
  { destruct He' as [[-> ->]|[-> <-]]; [reflexivity|apply shiftl_double]. }
  rewrite Hz. clear Hz Hr He' m' e'.
  exists (Z.shiftl m2 E).
  assert (Hq : 0 <= Z.pos m / 2 ^ δ) by (apply Z.div_pos; lia).
  assert (Hm2nn : 0 <= m2) by lia.
  assert (Hdm : 2 ^ δ * (Z.pos m / 2 ^ δ) <= Z.pos m) by (apply Z.mul_div_le; lia).
  assert (Hulp : 2 ^ δ * 2 ^ 52 <= Z.pos m).
  { rewrite <- Z.pow_add_r by lia. replace (δ + 52) with (D - 1) by lia. lia. }
  assert (Hpow : 0 < 2 ^ δ) by lia.
  assert (Hpk : 0 < 2 ^ k) by lia.
  assert (Hpa : 0 < 2 ^ a) by lia.
  split; [reflexivity|]. split; [by apply Z.shiftl_nonneg|]. split.
  - (* the product is rounded up by at most one unit in the last place *)
    assert (Hzm : Z.shiftl m2 E * 2 ^ (k + a) <= m2 * 2 ^ δ).
    { destruct (Z.le_gt_cases 0 E) as [HE|HE].
      - rewrite Z.shiftl_mul_pow2 by lia.
        rewrite <- Z.mul_assoc, <- Z.pow_add_r by lia.
        replace (E + (k + a)) with δ by lia. lia.
      - rewrite <- Z.shiftr_opp_r, Z.shiftr_div_pow2 by lia.
        replace (k + a) with (- E + δ) by lia.
        rewrite Z.pow_add_r by lia.
        assert (Hfl : 2 ^ (- E) * (m2 / 2 ^ (- E)) <= m2) by (apply Z.mul_div_le; lia).
        rewrite Z.mul_assoc, (Z.mul_comm (m2 / 2 ^ (- E))).
        apply Z.mul_le_mono_nonneg_r; lia. }
    rewrite Z.pow_add_r in Hzm by lia.
    assert (Hgoal : Z.shiftl m2 E * 2 ^ a * 2 ^ 52 * 2 ^ k
                    <= x * Z.pos ms * (2 ^ 52 + 1) * 2 ^ k).
    { replace (x * Z.pos ms * (2 ^ 52 + 1) * 2 ^ k) with (Z.pos m * (2 ^ 52 + 1)) by (rewrite Hm, Hmx; ring).
      assert (Hup : m2 * 2 ^ δ <= Z.pos m + 2 ^ δ).
      { assert (m2 * 2 ^ δ <= (Z.pos m / 2 ^ δ + 1) * 2 ^ δ)
          by (apply Z.mul_le_mono_nonneg_r; lia).
        rewrite Z.mul_add_distr_r in H. lia. }
      replace (Z.shiftl m2 E * 2 ^ a * 2 ^ 52 * 2 ^ k)
        with (Z.shiftl m2 E * (2 ^ k * 2 ^ a) * 2 ^ 52) by ring.
      assert (Hstep : Z.shiftl m2 E * (2 ^ k * 2 ^ a) * 2 ^ 52 <= (Z.pos m + 2 ^ δ) * 2 ^ 52)
        by (apply Z.mul_le_mono_nonneg_r; lia).
      rewrite Z.mul_add_distr_r in Hstep. rewrite Z.mul_add_distr_l. lia. }
    apply Z.mul_le_mono_pos_r in Hgoal; done.
  - intros Hsmall n Hn.
    assert (HE : E <= 0).
    { assert (Z.pos m < 2 ^ (53 + a + k)).
      { rewrite Hm, Hmx, (Z.pow_add_r _ _ k) by lia.
        replace (x * 2 ^ k * Z.pos ms) with (x * Z.pos ms * 2 ^ k) by ring.
        apply Z.mul_lt_mono_pos_r; lia. }
      destruct (Z.le_gt_cases D (53 + a + k)); [lia|].
      assert (2 ^ (53 + a + k) <= 2 ^ (D - 1)) by (apply Z.pow_le_mono_r; lia). lia. }
    rewrite <- Z.shiftr_opp_r, Z.shiftr_div_pow2 by lia.
    apply Z.div_le_lower_bound; [lia|].
    assert (Hnm : n * 2 ^ (- E) * 2 ^ δ <= Z.pos m).
    { rewrite <- Z.mul_assoc, <- Z.pow_add_r by lia.
      replace (- E + δ) with (a + k) by lia.
      rewrite Z.pow_add_r, Hm, Hmx by lia.
      replace (n * (2 ^ a * 2 ^ k)) with (n * 2 ^ a * 2 ^ k) by ring.
      replace (x * 2 ^ k * Z.pos ms) with (x * Z.pos ms * 2 ^ k) by ring.
      apply Z.mul_le_mono_nonneg_r; lia. }
    assert (n * 2 ^ (- E) <= Z.pos m / 2 ^ δ) by (apply Z.div_le_lower_bound; lia).
    lia.
Qed.

Lemma binary_round_aux_opp sx m e l :
  binary_round_aux prec emax (negb sx) m e l = SFopp (binary_round_aux prec emax sx m e l).
Proof.
  unfold binary_round_aux.
  destruct (shr_fexp prec emax m e l) as [mrs' e'].
  destruct (shr_fexp prec emax _ e' loc_Exact) as [mrs'' e''].
  destruct (shr_m mrs''); [reflexivity| |reflexivity].
  destruct (e'' <=? emax - prec); reflexivity.
Qed.

Lemma SFmul_opp_l x y : SFmul prec emax (SFopp x) y = SFopp (SFmul prec emax x y).
Proof.
  destruct x as [sx|sx| |sx mx ex], y as [sy|sy| |sy my ey]; simpl;
    try reflexivity; try (destruct sx, sy; reflexivity).
  rewrite <- binary_round_aux_opp. f_equal. destruct sx, sy; reflexivity.
Qed.

Lemma py_int_opp f : py_int (SFopp f) = Z.opp <$> py_int f.
Proof.
  destruct f as [s|s| |s m e]; simpl; try reflexivity.
  destruct s; simpl; f_equal; lia.
Qed.

Lemma float_of_int_opp x : x <> 0 -> float_of_int (- x) = SFopp <$> float_of_int x.
Proof.
  destruct x as [|p|p]; [done| |]; intros _;
    [change (- Z.pos p) with (Z.neg p)|change (- Z.neg p) with (Z.pos p)];
    unfold float_of_int, float_of_dyadic, binary_normalize, binary_round;
    destruct (shl_align p 0 _) as [mz ez]; cbv beta iota.
  - change true with (negb false). rewrite binary_round_aux_opp.
    destruct (binary_round_aux prec emax false (Z.pos mz) ez loc_Exact); reflexivity.
  - change false with (negb true) at 1. rewrite binary_round_aux_opp.
    destruct (binary_round_aux prec emax true (Z.pos mz) ez loc_Exact) as [[]|[]| |[] ? ?]; reflexivity.
Qed.

(** Scaling commutes with negation, for every scale factor. *)
Lemma scale_int_opp s x : scale_int s (- x) = Z.opp <$> scale_int s x.
Proof.
  destruct (Z.eq_dec x 0) as [->|Hx].
  { destruct s as [[]|[]| |[] ? ?]; reflexivity. }
  unfold scale_int. rewrite float_of_int_opp by done.
  destruct (float_of_int x) as [f|e]; [|reflexivity].
  cbn [fmap result_fmap mbind result_bind].
  by rewrite SFmul_opp_l, py_int_opp.
Qed.




End Binary64.

(** ** One scaled number *)

Section ScaleInt.

Lemma scale_int_truncates s x :
  positive_normal s -> int_below 53 x ->
  exists z, scale_int s x = Ok z /\ truncation_of s x z.
Proof.
  destruct s as [| | |[] ms e]; try done. intros [Hd He] Hx.
  unfold int_below in Hx. unfold truncation_of. cbn [significand shift].
  destruct (Z.lt_trichotomy x 0) as [Hneg|[->|Hpos]].
  - destruct (scale_int_pos (- x) ms (- e)) as (z & Hz & Hz0 & Hup & Hlo); [lia..|].
    rewrite Z.opp_involutive in Hz.
    exists (- z). split.
    + rewrite <- (Z.opp_involutive x), scale_int_opp, Hz. reflexivity.
    + rewrite Z.abs_opp, (Z.abs_eq z), (Z.abs_neq x), Z.sgn_neg by lia.
      split; [lia|]. split; [exact Hup|exact Hlo].
  - exists 0. split; [reflexivity|]. simpl. split; [reflexivity|]. split; [lia|].
    intros _ n Hn. assert (0 < 2 ^ (- e)) by (apply Z.pow_pos_nonneg; lia). nia.
  - destruct (scale_int_pos x ms (- e)) as (z & Hz & Hz0 & Hup & Hlo); [lia..|].
    rewrite Z.opp_involutive in Hz.
    exists z. split; [exact Hz|].
    rewrite (Z.abs_eq z), (Z.abs_eq x), Z.sgn_pos by lia.
    split; [lia|]. split; [exact Hup|exact Hlo].
Qed.

Lemma positive_normal_one : positive_normal one.
Proof. vm_compute. split; [reflexivity|]. split; discriminate. Qed.

(** Multiplying by [1.0] and converting back is the identity. *)
Lemma scale_int_one x : int_below 52 x -> scale_int one x = Ok x.
Proof.
  intros Hx. unfold int_below in Hx.
  destruct (scale_int_truncates one x positive_normal_one) as (z & Hz & Hsgn & Hup & Hlo).
  { unfold int_below. assert (2 ^ 52 < 2 ^ 53) by (apply Z.pow_lt_mono_r; lia). lia. }
  rewrite Hz. f_equal.
  change (significand one) with (2 ^ 52) in *. change (shift one) with 52 in *.
  assert (Hp : 0 < 2 ^ 52) by lia.
  assert (Z.abs x <= Z.abs z).
  { apply Hlo; [|lia]. rewrite Z.pow_add_r by lia. nia. }
  assert (Z.abs z <= Z.abs x) by nia.
  rewrite Hsgn. replace (Z.abs z) with (Z.abs x) by lia. rewrite Z.mul_comm. by rewrite Z.abs_sgn.
Qed.

End ScaleInt.

(** ** Loops, objects and dictionaries *)

Section Traversals.

Context {A B : Type}.

Lemma traverse_Forall2 (f : A -> result B) l l' :
  traverse f l = Ok l' <-> Forall2 (fun x y => f x = Ok y) l l'.
Proof.
  revert l'. induction l as [|x l IH]; intros l'; simpl.
  - split; [intros [= <-]; constructor|by inversion 1].
  - split.
    + destruct (f x) as [y|e] eqn:Hx; [|done]. simpl.
      destruct (traverse f l) as [ys|e] eqn:Hl; [|done]. simpl.
      intros [= <-]. constructor; [done|]. by apply IH.
    + inversion 1 as [|? y ? ys Hx Hl]; subst. rewrite Hx. simpl.
      apply IH in Hl. rewrite Hl. reflexivity.
Qed.

Lemma traverse_is_Ok (f : A -> result B) l :
  Forall (fun x => is_Ok (f x)) l -> is_Ok (traverse f l).
Proof.
  induction 1 as [|x l [y Hy] _ [ys Hys]]; simpl.
  - by eexists.
  - rewrite Hy. simpl. rewrite Hys. by eexists.
Qed.

Lemma traverse_length (f : A -> result B) l l' :
  traverse f l = Ok l' -> length l' = length l.
Proof. intros H. apply traverse_Forall2, Forall2_length in H. done. Qed.

End Traversals.

Lemma traverse_id {A} (f : A -> result A) l :
  Forall (fun x => f x = Ok x) l -> traverse f l = Ok l.
Proof. intros H. apply traverse_Forall2. by apply Forall_Forall2_diag. Qed.

Section Binds.

Lemma bind_Ok {A B} (m : result A) (k : A -> result B) b :
  m ≫= k = Ok b -> exists a, m = Ok a /\ k a = Ok b.
Proof. destruct m as [a|]; [|done]. simpl. eauto. Qed.

Lemma if_present_inv {A} (body : A -> result A) t t' :
  if_present body t = Ok t' <-> option_Forall2 (fun x y => body x = Ok y) t t'.
Proof.
  destruct t as [a|]; simpl.
  - split.
    + intros (a' & Ha & [= <-])%bind_Ok. by constructor.
    + inversion 1 as [? a' Ha|]; subst. by rewrite Ha.
  - split; [intros [= <-]; constructor|by inversion 1].
Qed.

Lemma if_present_rel {A} (body : A -> result A) (P : A -> Prop) (R : A -> A -> Prop) t :
  (forall x, P x -> exists y, body x = Ok y /\ R x y) ->
  from_option P True t ->
  exists t', if_present body t = Ok t' /\ option_Forall2 R t t'.
Proof.
  intros Hbody. destruct t as [a|]; simpl.
  - intros (y & Hy & HR)%Hbody. rewrite Hy. exists (Some y). split; [done|by constructor].
  - intros _. exists None. split; [done|constructor].
Qed.

Lemma if_present_id {A} (body : A -> result A) t :
  from_option (fun x => body x = Ok x) True t -> if_present body t = Ok t.
Proof. destruct t as [a|]; simpl; [|done]. by intros ->. Qed.

Lemma traverse_rel {A B} (f : A -> result B) (R : A -> B -> Prop) l :
  Forall (fun x => exists y, f x = Ok y /\ R x y) l ->
  exists l', traverse f l = Ok l' /\ Forall2 R l l'.
Proof.
  induction 1 as [|x l (y & Hy & HR) _ (ys & Hys & HRs)]; simpl.
  - exists []. by split.
  - rewrite Hy. simpl. rewrite Hys. exists (y :: ys). split; [done|by constructor].
Qed.

Lemma if_hasattr_rel {A} (body : A -> result A) (P : A -> Prop) (R : A -> A -> Prop) field :
  (forall x, P x -> exists y, body x = Ok y /\ R x y) ->
  from_option (Forall P) True field ->
  exists field', if_hasattr body field = Ok field' /\ option_Forall2 (Forall2 R) field field'.
Proof.
  intros Hbody. apply if_present_rel. intros l Hl. apply traverse_rel.
  eapply Forall_impl; [exact Hl|]. exact Hbody.
Qed.

Lemma if_hasattr_id {A} (body : A -> result A) field :
  from_option (Forall (fun x => body x = Ok x)) True field -> if_hasattr body field = Ok field.
Proof.
  intros H. apply if_present_id. destruct field as [l|]; [|done]. simpl in *.
  by apply traverse_id.
Qed.

End Binds.

Section Objects.

Implicit Types (o : obj) (a : string) (s : spec_float).

(** A loop of single-attribute updates: what holds of each step holds of
    the named attributes afterwards, and no other attribute changes. *)
Lemma for_each_attr (step : obj -> string -> result obj)
    (R : option Z -> option Z -> Prop) fields :
  (forall o a o', step o a = Ok o' ->
     R (o !! a) (o' !! a) /\ forall b, b ≠ a -> o' !! b = o !! b) ->
  NoDup fields ->
  forall o o', for_each step fields o = Ok o' ->
    (forall a, a ∈ fields -> R (o !! a) (o' !! a)) /\
    (forall a, a ∉ fields -> o' !! a = o !! a).
Proof.
  intros Hstep. induction 1 as [|a fields Ha Hnd IH]; intros o o'; simpl.
  - intros [= <-]. split; [by intros a ?%elem_of_nil|done].
  - destruct (step o a) as [o1|] eqn:H1; [|done]. simpl. intros Hrest.
    destruct (Hstep _ _ _ H1) as [HR Hframe].
    destruct (IH _ _ Hrest) as [Hin Hout]. split.
    + intros b [->|Hb]%elem_of_cons.
      * by rewrite Hout.
      * rewrite <- (Hframe b) by (by intros ->). by apply Hin.
    + intros b [Hne Hb]%not_elem_of_cons. rewrite Hout by done. by apply Hframe.
Qed.

Lemma for_each_attr_is_Ok (step : obj -> string -> result obj) (P : option Z -> Prop) fields :
  (forall o a, P (o !! a) -> is_Ok (step o a)) ->
  (forall o a o' b, step o a = Ok o' -> b ≠ a -> o' !! b = o !! b) ->
  NoDup fields ->
  forall o, (forall a, a ∈ fields -> P (o !! a)) -> is_Ok (for_each step fields o).
Proof.
  intros HP Hframe. induction 1 as [|a fields Ha Hnd IH]; intros o Hall; simpl.
  - by eexists.
  - destruct (HP o a) as [o1 H1]; [apply Hall; by left|]. rewrite H1. simpl.
    apply IH. intros b Hb. rewrite (Hframe _ _ _ b H1) by (by intros ->).
    apply Hall. by right.
Qed.

Lemma for_each_attr_id (step : obj -> string -> result obj) (P : option Z -> Prop) fields :
  (forall o a, P (o !! a) -> step o a = Ok o) ->
  forall o, (forall a, a ∈ fields -> P (o !! a)) -> for_each step fields o = Ok o.
Proof.
  intros HP. induction fields as [|a fields IH]; intros o Hall; simpl; [done|].
  rewrite HP by (apply Hall; by left). simpl. apply IH. intros b Hb. apply Hall. by right.
Qed.

Lemma scale_attr_inv s o a o' :
  scale_attr s o a = Ok o' ->
  exists v v', o !! a = Some v /\ scale_int s v = Ok v' /\ o' = <[a := v']> o.
Proof.
  unfold scale_attr, getattr. destruct (o !! a) as [v|]; [|done]. simpl.
  destruct (scale_int s v) as [v'|] eqn:Hv; [|done]. simpl.
  intros [= <-]. eauto.
Qed.

Lemma scale_attr_step s o a o' :
  scale_attr s o a = Ok o' ->
  (exists v v', o !! a = Some v /\ scale_int s v = Ok v' /\ o' !! a = Some v') /\
  forall b, b ≠ a -> o' !! b = o !! b.
Proof.
  intros (v & v' & Hv & Hs & ->)%scale_attr_inv. split.
  - exists v, v'. by rewrite lookup_insert_eq.
  - intros b Hb. by rewrite lookup_insert_ne.
Qed.

Lemma scale_attr_if_present_step s o a o' :
  scale_attr_if_present s o a = Ok o' ->
  option_Forall2 (fun v v' => scale_int s v = Ok v') (o !! a) (o' !! a) /\
  forall b, b ≠ a -> o' !! b = o !! b.
Proof.
  unfold scale_attr_if_present, hasattr. case_bool_decide as Hsome.
  - intros [(v & v' & Hv & Hs & Hv') Hframe]%scale_attr_step.
    rewrite Hv, Hv'. split; [by constructor|done].
  - intros [= <-]. split; [|done].
    destruct (o !! a) eqn:E; [destruct Hsome; eauto|constructor].
Qed.

Lemma scale_attr_if_truthy_step s o a o' :
  scale_attr_if_truthy s o a = Ok o' ->
  option_Forall2 (scaled_truthy s) (o !! a) (o' !! a) /\
  forall b, b ≠ a -> o' !! b = o !! b.
Proof.
  unfold scale_attr_if_truthy. destruct (o !! a) as [v|] eqn:Hv.
  - destruct (Z.eqb_spec v 0) as [->|Hnz].
    + intros [= <-]. rewrite Hv. split; [constructor; by left|done].
    + intros [(w & v' & Hw & Hs & Hv') Hframe]%scale_attr_step.
      rewrite Hv'. split; [|done]. constructor. right. split; [done|]. congruence.
  - intros [= <-]. rewrite Hv. split; [constructor|done].
Qed.

Lemma scale_attrs_inv s fields o o' :
  NoDup fields -> scale_attrs s fields o = Ok o' -> scaled_obj s fields o o'.
Proof.
  intros Hnd H. unfold scaled_obj, scaled_attr.
  by apply (for_each_attr (scale_attr s)
              (fun x y => exists v v', x = Some v /\ scale_int s v = Ok v' /\ y = Some v'))
    in H; [|apply scale_attr_step|].
Qed.

Lemma scale_attr_is_Ok s o a v :
  o !! a = Some v -> is_Ok (scale_int s v) -> is_Ok (scale_attr s o a).
Proof.
  intros Hv [v' Hs]. unfold scale_attr, getattr. rewrite Hv. simpl. rewrite Hs. by eexists.
Qed.

Lemma scale_attrs_is_Ok s fields o :
  NoDup fields ->
  (forall a, a ∈ fields -> exists v, o !! a = Some v /\ is_Ok (scale_int s v)) ->
  is_Ok (scale_attrs s fields o).
Proof.
  intros Hnd Hall.
  apply (for_each_attr_is_Ok _ (fun x => exists v, x = Some v /\ is_Ok (scale_int s v)));
    [|intros ???? H ?; apply scale_attr_step in H as [_ H]; by apply H|done|done].
  intros o1 a (v & Hv & Hs). by eapply scale_attr_is_Ok.
Qed.

(** With the factor [1.0] a run of assignments changes nothing. *)
Lemma scale_attr_one o a v : o !! a = Some v -> int_below 52 v -> scale_attr one o a = Ok o.
Proof.
  intros Hv Hr. unfold scale_attr, getattr. rewrite Hv. simpl.
  rewrite scale_int_one by done. simpl. by rewrite insert_id.
Qed.

Lemma scale_attrs_one fields o :
  (forall a, a ∈ fields -> exists v, o !! a = Some v /\ int_below 52 v) ->
  scale_attrs one fields o = Ok o.
Proof.
  apply (for_each_attr_id _ (fun x => exists v, x = Some v /\ int_below 52 v)).
  intros o1 a (v & Hv & Hr). by eapply scale_attr_one.
Qed.

End Objects.

Section Dictionaries.

Context `{EqDecision K} {V : Type}.

Implicit Types (d : dict K V) (k : K) (v : V).

Lemma dict_set_keys k v d : k ∈ dict_keys d -> dict_keys (dict_set k v d) = dict_keys d.
Proof.
  unfold dict_keys. induction d as [|[k' v'] d IH]; simpl.
  - by intros ?%elem_of_nil.
  - intros Hk. destruct (decide (k' = k)) as [->|Hne]; simpl; [done|].
    f_equal. apply IH. apply elem_of_cons in Hk as [->|Hk]; done.
Qed.

Lemma dict_get_in show d k v : dict_get show d k = Ok v -> k ∈ dict_keys d.
Proof.
  unfold dict_keys. induction d as [|[k' v'] d IH]; simpl; [done|].
  destruct (decide (k' = k)) as [->|Hne]; [intros _; by left|].
  intros H. right. by apply IH.
Qed.

Lemma dict_get_is_Ok show d k : k ∈ dict_keys d -> is_Ok (dict_get show d k).
Proof.
  unfold dict_keys. induction d as [|[k' v'] d IH]; simpl.
  - by intros ?%elem_of_nil.
  - intros Hk. destruct (decide (k' = k)) as [->|Hne]; [by eexists|].
    apply IH. apply elem_of_cons in Hk as [->|Hk]; done.
Qed.

Lemma dict_set_same show d k v : dict_get show d k = Ok v -> dict_set k v d = d.
Proof.
  induction d as [|[k' v'] d IH]; simpl; [done|].
  destruct (decide (k' = k)) as [->|Hne]; [by intros [= ->]|].
  intros H. f_equal. by apply IH.
Qed.

(** A loop that only assigns to keys of the dictionary keeps its keys. *)
Lemma for_each_keys {X} (body : dict K V -> X -> result (dict K V)) (l : list X) :
  (forall d x d', x ∈ l -> body d x = Ok d' -> dict_keys d' = dict_keys d) ->
  forall d d', for_each body l d = Ok d' -> dict_keys d' = dict_keys d.
Proof.
  induction l as [|x l IH]; intros Hbody d d'; simpl.
  - by intros [= <-].
  - destruct (body d x) as [d1|] eqn:H1; [|done]. simpl. intros Hrest.
    rewrite (IH (fun d x d' Hx => Hbody d x d' (list_elem_of_further _ _ _ Hx)) _ _ Hrest).
    eapply Hbody; [by left|done].
Qed.

Lemma for_each_id {X S} (body : S -> X -> result S) (l : list X) (st : S) :
  (forall x, x ∈ l -> body st x = Ok st) -> for_each body l st = Ok st.
Proof.
  induction l as [|x l IH]; intros Hbody; simpl; [done|].
  rewrite Hbody by (by left). simpl. apply IH. intros y Hy. apply Hbody. by right.
Qed.

Lemma dict_get_app_r show (pre d : dict K V) k :
  k ∉ dict_keys pre -> dict_get show (pre ++ d) k = dict_get show d k.
Proof.
  unfold dict_keys. induction pre as [|[k' v'] pre IH]; simpl; [done|].
  intros [Hne Hk]%not_elem_of_cons. destruct (decide (k' = k)); [congruence|]. by apply IH.
Qed.

Lemma dict_set_app_r (pre d : dict K V) k v :
  k ∉ dict_keys pre -> dict_set k v (pre ++ d) = pre ++ dict_set k v d.
Proof.
  unfold dict_keys. induction pre as [|[k' v'] pre IH]; simpl; [done|].
  intros [Hne Hk]%not_elem_of_cons. destruct (decide (k' = k)); [congruence|].
  f_equal. by apply IH.
Qed.

Lemma dict_get_elem show d k v : dict_get show d k = Ok v -> (k, v) ∈ d.
Proof.
  induction d as [|[k' v'] d IH]; simpl; [done|].
  destruct (decide (k' = k)) as [->|Hne]; [intros [= ->]; by left|].
  intros H. right. by apply IH.
Qed.

(** The loop [for k in d: d[k] = f(d[k])] over a dictionary, whose keys are
    distinct, applies [f] to every value, in place. *)
Lemma for_each_dict show (f : V -> result V) (body : dict K V -> K -> result (dict K V)) :
  (forall d k, body d k = (v ← dict_get show d k; v' ← f v; Ok (dict_set k v' d))) ->
  forall rest pre d',
    NoDup (dict_keys (pre ++ rest)) ->
    for_each body (dict_keys rest) (pre ++ rest) = Ok d' ->
    exists rest', d' = pre ++ rest' /\
      Forall2 (fun e e' => e'.1 = e.1 /\ f e.2 = Ok e'.2) rest rest'.
Proof.
  intros Hbody. induction rest as [|[k v] rest IH]; intros pre d' Hnd; simpl.
  - intros [= <-]. exists []. split; [done|constructor].
  - assert (Hk : k ∉ dict_keys pre).
    { unfold dict_keys in *. rewrite fmap_app in Hnd. apply NoDup_app in Hnd as (_ & Hnd & _).
      intros Hin. apply (Hnd k Hin). simpl. by left. }
    rewrite Hbody, dict_get_app_r by done. simpl.
    destruct (decide (k = k)); [|done]. simpl.
    destruct (f v) as [v'|] eqn:Hv; [|done]. simpl.
    rewrite dict_set_app_r by done. simpl.
    destruct (decide (k = k)); [|done].
    replace (pre ++ (k, v') :: rest) with ((pre ++ [(k, v')]) ++ rest) by (by rewrite <- app_assoc).
    intros Hrest. apply IH in Hrest as (rest' & -> & Hrest').
    + exists ((k, v') :: rest'). split; [by rewrite <- app_assoc|]. by constructor.
    + unfold dict_keys in *. rewrite !fmap_app in *. simpl in *.
      by rewrite <- app_assoc.
Qed.

End Dictionaries.

(** ** Glyph outlines *)

Section Glyphs.

Implicit Types (s : spec_float) (glyph : Glyph).

Lemma scaled_int_total s x :
  positive_normal s -> int_below 53 x -> exists z, scaled_int s x z.
Proof.
  intros Hs Hx. destruct (scale_int_truncates s x Hs Hx) as (z & Hz & Ht).
  exists z. by split.
Qed.

Lemma scale_point_scaled s p :
  positive_normal s -> int_below 53 p.1 -> int_below 53 p.2 ->
  exists p', scale_point s p = Ok p' /\ scaled_point s p p'.
Proof.
  intros Hs H1 H2.
  destruct (scaled_int_total s p.1 Hs H1) as (x & Hx & Htx).
  destruct (scaled_int_total s p.2 Hs H2) as (y & Hy & Hty).
  exists (x, y). unfold scale_point. rewrite Hx. simpl. rewrite Hy. simpl.
  split; [done|]. by split.
Qed.

Lemma NoDup_offset_fields : NoDup offset_fields.
Proof. compute_done. Qed.

Lemma NoDup_bbox_fields : NoDup bbox_fields.
Proof. compute_done. Qed.

Lemma scale_component_scaled s c :
  positive_normal s -> obj_below 53 (component_attrs c) ->
  exists c', scale_component s c = Ok c' /\ scaled_offsets s c c'.
Proof.
  intros Hs Hr. unfold scale_component.
  destruct (for_each_attr_is_Ok (scale_attr_if_present s)
              (fun x => forall v, x = Some v -> int_below 53 v) offset_fields)
    with (o := component_attrs c) as [a Ha].
  - intros o a Ho. unfold scale_attr_if_present, hasattr. case_bool_decide as Hsome; [|by eexists].
    destruct Hsome as [v Hv]. apply (scale_attr_is_Ok s o a v Hv).
    destruct (scale_int_truncates s v Hs (Ho v Hv)) as (z & Hz & _). by exists z.
  - intros o a o' b H Hb. apply scale_attr_if_present_step in H as [_ H]. by apply H.
  - apply NoDup_offset_fields.
  - intros a _ v Hv. by eapply Hr.
  - rewrite Ha. simpl. eexists. split; [reflexivity|].
    apply (for_each_attr _ (option_Forall2 (fun v v' => scale_int s v = Ok v'))) in Ha
        as [Hin Hout];
      [|apply scale_attr_if_present_step|apply NoDup_offset_fields].
    split; [done|]. split; [|exact Hout]. simpl.
    intros b Hb. specialize (Hin b Hb).
    destruct (component_attrs c !! b) as [v|] eqn:Ev; inversion Hin as [? v' Hv|]; subst;
      constructor.
    split; [done|].
    destruct (scale_int_truncates s v Hs (Hr b v Ev)) as (z & Hz & Ht). congruence.
Qed.

(** With the factor [1.0] a glyph is left as it is. *)
Lemma scale_glyph_ttf_one glyph glyf_table :
  glyph_below 52 glyph -> bbox_complete glyph ->
  scale_glyph_ttf glyph glyf_table one = Ok glyph.
Proof.
  intros (Hc & Hk & Ha) Hb. unfold scale_glyph_ttf.
  assert (Hfirst :
    (if isComposite glyph then
       cs ← traverse (scale_component one) (components glyph);
       Ok {| numberOfContours := numberOfContours glyph; components := cs;
             coordinates := coordinates glyph; glyph_attrs := glyph_attrs glyph |}
     else if 0 <? numberOfContours glyph then
       scaled_coords ← traverse (scale_point one) (coordinates glyph);
       Ok {| numberOfContours := numberOfContours glyph; components := components glyph;
             coordinates := scaled_coords; glyph_attrs := glyph_attrs glyph |}
     else Ok glyph) = Ok glyph).
  { destruct (isComposite glyph); [|destruct (0 <? numberOfContours glyph); [|done]].
    - rewrite traverse_id; [by destruct glyph|].
      eapply Forall_impl; [exact Hk|]. intros c Hr. unfold scale_component.
      rewrite (for_each_attr_id _ (fun x => forall v, x = Some v -> int_below 52 v)).
      + by destruct c.
      + intros o a Ho. unfold scale_attr_if_present, hasattr.
        case_bool_decide as Hsome; [|done]. destruct Hsome as [v Hv].
        by eapply scale_attr_one, Ho.
      + intros a _ v Hv. by eapply Hr.
    - rewrite traverse_id; [by destruct glyph|].
      eapply Forall_impl; [exact Hc|]. intros [x y] [Hx Hy]. unfold scale_point. simpl in *.
      by rewrite !scale_int_one. }
  rewrite Hfirst. simpl.
  destruct (hasattr (glyph_attrs glyph) "xMin") eqn:Hx; [|done].
  destruct (negb (numberOfContours glyph =? 0)); [|done]. simpl.
  rewrite scale_attrs_one; [by destruct glyph|].
  intros a Hin. destruct (Hb Hx a Hin) as [v Hv]. exists v. split; [done|]. by eapply Ha.
Qed.

(** C1 (amended).  For a scale factor that is a positive normal double below
    [2^53] and a glyph whose numbers are below [2^53] in magnitude,
    [scale_glyph_ttf] returns, and every coordinate of a simple outline and
    every [x]/[y] offset of a composite is [int(v * s)]: the binary64 product
    truncated toward zero, not rounded to the nearest integer. *)
Theorem scale_glyph_ttf_truncates glyph glyf_table s :
  positive_normal s -> glyph_below 53 glyph -> bbox_complete glyph ->
  exists glyph', scale_glyph_ttf glyph glyf_table s = Ok glyph' /\
    numberOfContours glyph' = numberOfContours glyph /\
    (0 < numberOfContours glyph ->
       Forall2 (scaled_point s) (coordinates glyph) (coordinates glyph')) /\
    (numberOfContours glyph = -1 ->
       Forall2 (scaled_offsets s) (components glyph) (components glyph')).
Proof.
  intros Hs (Hc & Hk & Ha) Hb.
  destruct (traverse_rel (scale_point s) (scaled_point s) (coordinates glyph)) as (cs & Hcs & Rcs).
  { eapply Forall_impl; [exact Hc|]. intros p [H1 H2]. by apply scale_point_scaled. }
  destruct (traverse_rel (scale_component s) (scaled_offsets s) (components glyph)) as (ks & Hks & Rks).
  { eapply Forall_impl; [exact Hk|]. intros c Hr. by apply scale_component_scaled. }
  assert (Hbox : hasattr (glyph_attrs glyph) "xMin" = true ->
                 is_Ok (scale_attrs s bbox_fields (glyph_attrs glyph))).
  { intros Hx. apply scale_attrs_is_Ok; [apply NoDup_bbox_fields|].
    intros a Hin. destruct (Hb Hx a Hin) as [v Hv]. exists v. split; [done|].
    destruct (scale_int_truncates s v Hs (Ha a v Hv)) as (z & Hz & _). by exists z. }
  unfold scale_glyph_ttf, isComposite.
  destruct (Z.eqb_spec (numberOfContours glyph) (-1)) as [Hcomp|Hncomp].
  - rewrite Hks. simpl.
    destruct (hasattr (glyph_attrs glyph) "xMin") eqn:Hx; simpl.
    + destruct (Hbox eq_refl) as [a Hbb].
      destruct (negb (numberOfContours glyph =? 0)); [rewrite Hbb|]; simpl;
        (eexists; split; [reflexivity|]; simpl; split; [done|]; split; [lia|done]).
    + eexists. split; [reflexivity|]. simpl. split; [done|]. split; [lia|done].
  - destruct (Z.ltb_spec 0 (numberOfContours glyph)) as [Hpos|Hnpos].
    + rewrite Hcs. simpl.
      destruct (hasattr (glyph_attrs glyph) "xMin") eqn:Hx; simpl.
      * destruct (Hbox eq_refl) as [a Hbb].
        destruct (negb (numberOfContours glyph =? 0)); [rewrite Hbb|]; simpl;
          (eexists; split; [reflexivity|]; simpl; split; [done|]; split; [done|lia]).
      * eexists. split; [reflexivity|]. simpl. split; [done|]. split; [done|lia].
    + simpl.
      destruct (hasattr (glyph_attrs glyph) "xMin") eqn:Hx; simpl.
      * destruct (Hbox eq_refl) as [a Hbb].
        destruct (negb (numberOfContours glyph =? 0)); [rewrite Hbb|]; simpl;
          (eexists; split; [reflexivity|]; simpl; split; [done|]; split; lia).
      * eexists. split; [reflexivity|]. split; [done|]. split; lia.
Qed.

(** C2 (amended).  When a glyph has a bounding box and is not empty, each of
    [xMin], [yMin], [xMax], [yMax] after scaling is [int(v * s)] of the field's
    previous value and no other attribute changes; otherwise the attributes
    are untouched.  The box is computed from the stored box alone. *)
Theorem scale_glyph_ttf_bbox glyph glyf_table s glyph' :
  scale_glyph_ttf glyph glyf_table s = Ok glyph' ->
  if hasattr (glyph_attrs glyph) "xMin" && negb (numberOfContours glyph =? 0)
  then scaled_obj s bbox_fields (glyph_attrs glyph) (glyph_attrs glyph')
  else glyph_attrs glyph' = glyph_attrs glyph.
Proof.
  unfold scale_glyph_ttf.
  set (first := if isComposite glyph then _ else _).
  assert (Hfirst : forall g1, first = Ok g1 ->
            glyph_attrs g1 = glyph_attrs glyph /\ numberOfContours g1 = numberOfContours glyph).
  { unfold first. intros g1.
    destruct (isComposite glyph); [|destruct (0 <? numberOfContours glyph)].
    - destruct (traverse _ _); [|done]. simpl. by intros [= <-].
    - destruct (traverse _ _); [|done]. simpl. by intros [= <-].
    - by intros [= <-]. }
  destruct first as [g1|]; [|done]. simpl.
  destruct (Hfirst g1 eq_refl) as [-> ->].
  destruct (hasattr (glyph_attrs glyph) "xMin" && negb (numberOfContours glyph =? 0)).
  - destruct (scale_attrs s bbox_fields (glyph_attrs glyph)) as [a|] eqn:Ha; [|done].
    simpl. intros [= <-]. simpl. by apply scale_attrs_inv; [apply NoDup_bbox_fields|].
  - intros [= <-]. by destruct (Hfirst g1 eq_refl).
Qed.

End Glyphs.

(** C1 (as stated) fails: scaling the point [(1, 1)] by [1.75] stores
    [(1, 1)], while [1.75] rounds to [2] under both rounding rules. *)
Lemma scale_glyph_ttf_not_nearest :
  ~ (forall glyph',
       scale_glyph_ttf unit_glyph [] one_and_three_quarters = Ok glyph' ->
       Forall2 (fun p p' => nearest_of one_and_three_quarters p.1 p'.1 /\
                            nearest_of one_and_three_quarters p.2 p'.2)
               (coordinates unit_glyph) (coordinates glyph')).
Proof.
  intros H.
  assert (Hc : (glyph' ← scale_glyph_ttf unit_glyph [] one_and_three_quarters;
                Ok (coordinates glyph')) = Ok [(1, 1)]) by (vm_compute; reflexivity).
  apply bind_Ok in Hc as (glyph' & Hg & [= Hc]).
  specialize (H glyph' Hg). rewrite Hc in H.
  apply Forall2_cons_1 in H as [[[H|H] _] _]; vm_compute in H; discriminate H.
Qed.

Lemma scale_glyph_ttf_truncates_witness :
  exists glyph', scale_glyph_ttf glyph_B glyf_AB default_scale = Ok glyph' /\
    numberOfContours glyph' = -1 /\
    Forall2 (scaled_offsets default_scale) (components glyph_B) (components glyph').
Proof.
  destruct (scale_glyph_ttf_truncates glyph_B glyf_AB default_scale) as (g' & Hg & Hn & _ & Hk).
  - vm_compute. split; [reflexivity|]. split; discriminate.
  - split; [constructor|]. split.
    + constructor; [|constructor]. intros a v. simpl.
      intros Hv. apply lookup_insert_Some in Hv as [[_ <-]|[_ Hv]]; [by vm_compute|].
      apply lookup_singleton_Some in Hv as [_ <-]. by vm_compute.
    + intros a v Hv. simpl in Hv.
      repeat (apply lookup_insert_Some in Hv as [[_ <-]|[_ Hv]]; [by vm_compute|]).
      apply lookup_singleton_Some in Hv as [_ <-]. by vm_compute.
  - intros _ a Hin. unfold bbox_fields in Hin.
    repeat (apply elem_of_cons in Hin as [->|Hin]; [vm_compute; by eexists|]).
    by apply elem_of_nil in Hin.
  - exists g'. split; [exact Hg|]. split; [exact Hn|]. by apply Hk.
Defined.

(** C2 (as stated) fails: after scaling [A] and the composite [B] by [1.5],
    the box stored for [B] is [(3, 3, 6, 6)], while its scaled component lies
    within [(2, 2, 5, 5)]. *)
Lemma scale_glyf_bbox_not_recomputed :
  ~ (forall glyf' glyph_name glyph',
       scale_glyf glyf_AB one_and_a_half = Ok glyf' ->
       dict_get id glyf' glyph_name = Ok glyph' ->
       stored_bounds glyph' = recalc_bounds glyf' glyph').
Proof.
  intros H.
  assert (Hc : (glyf' ← scale_glyf glyf_AB one_and_a_half;
                glyph' ← dict_get id glyf' "B";
                Ok (stored_bounds glyph', recalc_bounds glyf' glyph'))
               = Ok (Some (3, 3, 6, 6), Some (2, 2, 5, 5))) by (vm_compute; reflexivity).
  apply bind_Ok in Hc as (glyf' & Hglyf & Hc).
  apply bind_Ok in Hc as (glyph' & Hglyph & [= Hstored Hrecalc]).
  specialize (H glyf' "B"%string glyph' Hglyf Hglyph). congruence.
Qed.

Lemma scale_glyph_ttf_bbox_witness :
  scale_glyph_ttf glyph_B glyf_AB one_and_a_half
    = Ok {| numberOfContours := -1;
            components := [ {| glyphName := "A"; component_attrs := {[ "x" := 1; "y" := 1 ]} |} ];
            coordinates := [];
            glyph_attrs := {[ "xMin" := 3; "yMin" := 3; "xMax" := 6; "yMax" := 6 ]} |} /\
  scaled_obj one_and_a_half bbox_fields (glyph_attrs glyph_B)
    {[ "xMin" := 3; "yMin" := 3; "xMax" := 6; "yMax" := 6 ]}.
Proof.
  assert (H : scale_glyph_ttf glyph_B glyf_AB one_and_a_half
    = Ok {| numberOfContours := -1;
            components := [ {| glyphName := "A"; component_attrs := {[ "x" := 1; "y" := 1 ]} |} ];
            coordinates := [];
            glyph_attrs := {[ "xMin" := 3; "yMin" := 3; "xMax" := 6; "yMax" := 6 ]} |})
    by (vm_compute; reflexivity).
  split; [exact H|]. exact (scale_glyph_ttf_bbox _ _ _ _ H).
Defined.

(** ** Renaming *)

Section Renaming.

Implicit Types (r record : NameRecord) (names : list NameRecord).

Local Open Scope nat_scope.

Lemma same_ids_spec r n p e l : same_ids r n p e l = true <-> ids r = (n, p, e, l).
Proof.
  unfold same_ids, ids. rewrite !andb_true_iff, !Z.eqb_eq. split.
  - by intros [[[-> ->] ->] ->].
  - by intros [= -> -> -> ->].
Qed.

Lemma ids_renamed old new r : ids (renamed old new r) = ids r.
Proof.
  unfold renamed. destruct (toUnicode r); [|done].
  destruct (contains old _); [done|]. by destruct (contains (nospace old) _).
Qed.

(** [setName] with the identifiers of a record reaches that record when no
    earlier record shares them. *)
Lemma setName_first text r pre post :
  Forall (fun r' => ids r' ≠ ids r) pre ->
  setName text (nameID r) (platformID r) (platEncID r) (langID r) (pre ++ r :: post)
  = pre ++ with_text r text :: post.
Proof.
  induction 1 as [|r' pre Hne _ IH]; simpl.
  - assert (H : same_ids r (nameID r) (platformID r) (platEncID r) (langID r) = true)
      by by apply same_ids_spec.
    by rewrite H.
  - destruct (same_ids r' _ _ _ _) eqn:E; [|by rewrite IH].
    apply same_ids_spec in E. done.
Qed.

Lemma setName_length text r names :
  r ∈ names ->
  length (setName text (nameID r) (platformID r) (platEncID r) (langID r) names) = length names.
Proof.
  induction names as [|r' names IH]; simpl.
  - by intros ?%elem_of_nil.
  - intros Hin. destruct (same_ids r' _ _ _ _) eqn:E; [done|]. simpl. f_equal.
    apply IH. apply elem_of_cons in Hin as [->|Hin]; [|done].
    assert (same_ids r' (nameID r') (platformID r') (platEncID r') (langID r') = true)
      by by apply same_ids_spec.
    congruence.
Qed.

Lemma setName_keeps_ids text r names :
  r ∈ names ->
  ids <$> setName text (nameID r) (platformID r) (platEncID r) (langID r) names = ids <$> names.
Proof.
  induction names as [|r' names IH]; simpl.
  - by intros ?%elem_of_nil.
  - intros Hin. destruct (same_ids r' _ _ _ _) eqn:E; simpl.
    + apply same_ids_spec in E. by rewrite E.
    + f_equal. apply IH. apply elem_of_cons in Hin as [->|Hin]; [|done].
      assert (same_ids r' (nameID r') (platformID r') (platEncID r') (langID r') = true)
        by by apply same_ids_spec.
      congruence.
Qed.

Lemma rename_record_keeps_ids old new record text names :
  record ∈ names ->
  ids <$> rename_record old new record text names = ids <$> names.
Proof.
  intros Hin. unfold rename_record.
  destruct (contains old text); simpl; rewrite ?andb_false_r, ?andb_true_r.
  - by apply setName_keeps_ids.
  - destruct (contains (nospace old) text); [by apply setName_keeps_ids|done].
Qed.

(** The loop ends because the index passes the end of the list, which keeps
    its length: one unit of fuel per record is enough. *)
Lemma rename_names_from_total old new fuel : forall i names,
  length names < fuel + i -> is_Some (rename_names_from fuel i old new names).
Proof.
  induction fuel as [|fuel IH]; intros i names Hlen; simpl.
  - destruct (names !! i) eqn:E; [|done].
    apply lookup_lt_Some in E. lia.
  - destruct (names !! i) as [record|] eqn:E; [|done].
    apply IH.
    assert (Hin : record ∈ names) by (by eapply list_elem_of_lookup_2).
    destruct (toUnicode record) as [text|]; [|lia].
    assert (Hl : length (rename_record old new record text names) = length names).
    { rewrite <- (length_fmap ids), rename_record_keeps_ids, length_fmap; done. }
    lia.
Qed.

Lemma rename_record_renamed old new record text pre post :
  toUnicode record = Some text ->
  Forall (fun r' => ids r' ≠ ids record) pre ->
  rename_record old new record text (pre ++ record :: post)
  = pre ++ renamed old new record :: post.
Proof.
  intros Htext Hpre. unfold rename_record, renamed. rewrite Htext.
  destruct (contains old text); simpl; rewrite ?andb_false_r, ?andb_true_r.
  - by apply setName_first.
  - destruct (contains (nospace old) text); [by apply setName_first|done].
Qed.

Lemma rename_names_from_renamed old new names : NoDup (ids <$> names) ->
  forall n i fuel, length names = n + i -> n < fuel ->
    rename_names_from fuel i old new ((renamed old new <$> take i names) ++ drop i names)
    = Some (renamed old new <$> names).
Proof.
  intros Hnd. induction n as [|n IH]; intros i fuel Hlen Hfuel.
  - rewrite take_ge, drop_ge, app_nil_r by lia.
    destruct fuel; simpl; rewrite lookup_ge_None_2; try done; rewrite length_fmap; lia.
  - destruct fuel as [|fuel]; [lia|].
    destruct (lookup_lt_is_Some_2 names i) as [record Hrec]; [lia|].
    assert (Hcur : ((renamed old new <$> take i names) ++ drop i names) !! i = Some record).
    { rewrite lookup_app_r; rewrite length_fmap, length_take_le by lia; [|done].
      rewrite lookup_drop. rewrite <- Hrec. f_equal. lia. }
    simpl. rewrite Hcur.
    assert (Hnext :
      match toUnicode record with
      | Some text =>
          rename_record old new record text ((renamed old new <$> take i names) ++ drop i names)
      | None => (renamed old new <$> take i names) ++ drop i names
      end = (renamed old new <$> take (S i) names) ++ drop (S i) names).
    { rewrite (take_S_r _ _ _ Hrec), fmap_app, <- app_assoc. simpl.
      rewrite (drop_S _ _ _ Hrec).
      destruct (toUnicode record) as [text|] eqn:Htext.
      - apply rename_record_renamed; [done|].
        apply Forall_fmap, Forall_forall. intros r' Hin. cbv [compose]. rewrite ids_renamed.
        apply list_elem_of_lookup in Hin as [j Hj].
        pose proof (lookup_lt_Some _ _ _ Hj) as Hjlt. rewrite length_take in Hjlt.
        rewrite lookup_take_lt in Hj by lia.
        intros Heq.
        assert (i = j); [|lia].
        eapply NoDup_lookup; [exact Hnd| |]; rewrite list_lookup_fmap.
        + by rewrite Hrec.
        + rewrite Hj. simpl. by rewrite Heq.
      - unfold renamed. by rewrite Htext. }
    rewrite Hnext. apply IH; lia.
Qed.

(** C9.  For a name table whose records have distinct identifiers,
    [rename_font]'s loop returns, and every record is treated by the rule of
    the specification: text that contains the old family name has all its
    occurrences replaced by the new name; text that contains only the
    space-stripped old name has that replaced by the space-stripped new name;
    a record that cannot be decoded is kept as it is. *)
Theorem rename_names_renamed old_family new_family names :
  NoDup (ids <$> names) ->
  rename_names_from (S (length names)) 0 old_family new_family names
  = Some (renamed old_family new_family <$> names).
Proof.
  intros Hnd.
  apply (rename_names_from_renamed old_family new_family names Hnd (length names) 0); lia.
Qed.

End Renaming.

Lemma rename_names_renamed_witness :
  rename_names_from 4 0 "Reddit Mono" "RedditRadon Mono"
    [full_name_record; postscript_name_record; undecodable_record]
  = Some [with_text full_name_record "RedditRadon Mono Regular";
          with_text postscript_name_record "RedditRadonMono-Regular";
          undecodable_record].
Proof.
  exact (rename_names_renamed "Reddit Mono" "RedditRadon Mono"
           [full_name_record; postscript_name_record; undecodable_record]
           ltac:(compute_done)).
Defined.

(** ** The positioning table *)

Section Positioning.

Implicit Types (s : spec_float) (o : obj).

Lemma NoDup_value_fields : NoDup value_fields.
Proof. compute_done. Qed.

Lemma NoDup_anchor_fields : NoDup anchor_fields.
Proof. compute_done. Qed.

Lemma scale_int_is_Ok s v : positive_normal s -> int_below 53 v -> is_Ok (scale_int s v).
Proof. intros Hs Hv. destruct (scale_int_truncates s v Hs Hv) as (z & Hz & _). by exists z. Qed.

Lemma scale_value_record_scaled s o :
  positive_normal s -> obj_below 53 o ->
  exists o', scale_value_record o s = Ok o' /\ scaled_value_record s o o'.
Proof.
  intros Hs Hr. unfold scale_value_record.
  destruct (for_each_attr_is_Ok (scale_attr_if_truthy s)
              (fun x => forall v, x = Some v -> int_below 53 v) value_fields)
    with (o := o) as [o' Ho'].
  - intros o1 a Ho1. unfold scale_attr_if_truthy.
    destruct (o1 !! a) as [v|] eqn:Hv; [|by eexists].
    destruct (v =? 0); [by eexists|].
    apply (scale_attr_is_Ok s o1 a v Hv), scale_int_is_Ok; auto.
  - intros o1 a o2 b H Hb. apply scale_attr_if_truthy_step in H as [_ H]. by apply H.
  - apply NoDup_value_fields.
  - intros a _ v Hv. by eapply Hr.
  - exists o'. split; [done|].
    by apply (for_each_attr _ (option_Forall2 (scaled_truthy s))) in Ho';
      [|apply scale_attr_if_truthy_step|apply NoDup_value_fields].
Qed.

Lemma scale_anchor_scaled s o :
  positive_normal s -> obj_below 53 o ->
  exists o', scale_anchor o s = Ok o' /\ scaled_anchor s o o'.
Proof.
  intros Hs Hr. unfold scale_anchor.
  destruct (for_each_attr_is_Ok (scale_attr_if_present s)
              (fun x => forall v, x = Some v -> int_below 53 v) anchor_fields)
    with (o := o) as [o' Ho'].
  - intros o1 a Ho1. unfold scale_attr_if_present, hasattr.
    case_bool_decide as Hsome; [|by eexists]. destruct Hsome as [v Hv].
    apply (scale_attr_is_Ok s o1 a v Hv), scale_int_is_Ok; auto.
  - intros o1 a o2 b H Hb. apply scale_attr_if_present_step in H as [_ H]. by apply H.
  - apply NoDup_anchor_fields.
  - intros a _ v Hv. by eapply Hr.
  - exists o'. split; [done|].
    by apply (for_each_attr _ (option_Forall2 (fun v v' => scale_int s v = Ok v'))) in Ho';
      [|apply scale_attr_if_present_step|apply NoDup_anchor_fields].
Qed.

Lemma scale_anchor_slot_scaled s a :
  positive_normal s -> slot_below 53 a ->
  exists a', scale_anchor_slot s a = Ok a' /\ option_Forall2 (scaled_anchor s) a a'.
Proof.
  intros Hs. apply if_present_rel. intros o Ho. by apply scale_anchor_scaled.
Qed.

Lemma scale_anchors_scaled s l :
  positive_normal s -> anchors_below 53 l ->
  exists l', traverse (scale_anchor_slot s) l = Ok l' /\ scaled_anchors s l l'.
Proof.
  intros Hs Hl. apply traverse_rel. eapply Forall_impl; [exact Hl|].
  intros a Ha. by apply scale_anchor_slot_scaled.
Qed.

Lemma scale_value_pair_scaled s r :
  positive_normal s -> value_pair_below 53 r ->
  exists r', scale_value_pair s r = Ok r' /\ scaled_value_pair s r r'.
Proof.
  intros Hs [H1 H2]. unfold scale_value_pair, scale_value_slot.
  destruct (if_present_rel (fun v => scale_value_record v s) (obj_below 53)
              (scaled_value_record s) (Value1 r)) as (v1 & Hv1 & R1);
    [intros o Ho; by apply scale_value_record_scaled|done|].
  destruct (if_present_rel (fun v => scale_value_record v s) (obj_below 53)
              (scaled_value_record s) (Value2 r)) as (v2 & Hv2 & R2);
    [intros o Ho; by apply scale_value_record_scaled|done|].
  rewrite Hv1. simpl. rewrite Hv2. simpl. eexists. split; [reflexivity|]. by split.
Qed.

Lemma scale_value_pairs_scaled s l :
  positive_normal s -> Forall (value_pair_below 53) l ->
  exists l', traverse (scale_value_pair s) l = Ok l' /\ Forall2 (scaled_value_pair s) l l'.
Proof.
  intros Hs Hl. apply traverse_rel. eapply Forall_impl; [exact Hl|].
  intros r Hr. by apply scale_value_pair_scaled.
Qed.

(** C4.  For a scale factor that is a positive normal double below [2^53] and
    a subtable whose numbers are below [2^53] in magnitude,
    [scale_gpos_subtable] returns whatever slots are null: every null pair set
    and every null base, mark, mark-to-mark or ligature anchor is null in the
    result, every list keeps its length, and every number that is there is
    scaled (a zero placement or advance stays zero). *)
Theorem scale_gpos_subtable_nulls subtable s :
  positive_normal s -> subtable_below 53 subtable ->
  exists subtable', scale_gpos_subtable subtable s = Ok subtable' /\
    scaled_subtable s subtable subtable'.
Proof.
  intros Hs (Hsingle & Hpairs & Hclass & Hbase & Hmark & Hmark2 & Hlig).
  unfold scale_gpos_subtable.
  destruct (if_hasattr_rel (fun r => scale_value_record r s) (obj_below 53)
              (scaled_value_record s) (SinglePos subtable)) as (x1 & E1 & R1); [|done|].
  { intros o Ho. by apply scale_value_record_scaled. }
  destruct (if_hasattr_rel (scale_pair_set_slot s) (from_option (pair_set_below 53) True)
              (option_Forall2 (scaled_pair_set s)) (PairSet subtable)) as (x2 & E2 & R2); [|done|].
  { intros ps Hps. apply (if_present_rel _ (pair_set_below 53)); [|done].
    intros p Hp. unfold scale_pair_set.
    destruct (scale_value_pairs_scaled s _ Hs Hp) as (l' & Hl' & Rl).
    rewrite Hl'. simpl. eexists. by split. }
  destruct (if_hasattr_rel (scale_class1_record s)
              (fun r => Forall (value_pair_below 53) (Class2Record r))
              (scaled_class1 s) (Class1Record subtable)) as (x3 & E3 & R3); [|done|].
  { intros r Hr. unfold scale_class1_record.
    destruct (scale_value_pairs_scaled s _ Hs Hr) as (l' & Hl' & Rl).
    rewrite Hl'. simpl. eexists. by split. }
  destruct (if_hasattr_rel (scale_base_record s) (fun r => anchors_below 53 (BaseAnchor r))
              (fun r r' => scaled_anchors s (BaseAnchor r) (BaseAnchor r'))
              (BaseArray subtable)) as (x4 & E4 & R4); [|done|].
  { intros r Hr. unfold scale_base_record.
    destruct (scale_anchors_scaled s _ Hs Hr) as (l' & Hl' & Rl).
    rewrite Hl'. simpl. eexists. by split. }
  destruct (if_hasattr_rel (scale_mark_record s) (fun r => slot_below 53 (MarkAnchor r))
              (scaled_mark s) (MarkArray subtable)) as (x5 & E5 & R5); [|done|].
  { intros r Hr. unfold scale_mark_record.
    destruct (scale_anchor_slot_scaled s _ Hs Hr) as (a' & Ha' & Ra).
    rewrite Ha'. simpl. eexists. by split. }
  destruct (if_hasattr_rel (scale_mark2_record s) (fun r => anchors_below 53 (Mark2Anchor r))
              (fun r r' => scaled_anchors s (Mark2Anchor r) (Mark2Anchor r'))
              (Mark2Array subtable)) as (x6 & E6 & R6); [|done|].
  { intros r Hr. unfold scale_mark2_record.
    destruct (scale_anchors_scaled s _ Hs Hr) as (l' & Hl' & Rl).
    rewrite Hl'. simpl. eexists. by split. }
  destruct (if_hasattr_rel (scale_ligature_attach s)
              (fun r => Forall (fun c => anchors_below 53 (LigatureAnchor c)) (ComponentRecord r))
              (scaled_ligature s) (LigatureArray subtable)) as (x7 & E7 & R7); [|done|].
  { intros r Hr. unfold scale_ligature_attach.
    destruct (traverse_rel (scale_component_record s)
                (fun c c' => scaled_anchors s (LigatureAnchor c) (LigatureAnchor c'))
                (ComponentRecord r)) as (cs & Hcs & Rcs).
    { eapply Forall_impl; [exact Hr|]. intros c Hc. unfold scale_component_record.
      destruct (scale_anchors_scaled s _ Hs Hc) as (l' & Hl' & Rl).
      rewrite Hl'. simpl. eexists. by split. }
    rewrite Hcs. simpl. eexists. by split. }
  rewrite E1. simpl. rewrite E2. simpl. rewrite E3. simpl. rewrite E4. simpl.
  rewrite E5. simpl. rewrite E6. simpl. rewrite E7. simpl.
  eexists. split; [reflexivity|]. by repeat split.
Qed.

End Positioning.

Lemma scale_gpos_subtable_nulls_witness :
  exists subtable', scale_gpos_subtable subtable_with_nulls default_scale = Ok subtable' /\
    scaled_subtable default_scale subtable_with_nulls subtable'.
Proof.
  apply scale_gpos_subtable_nulls.
  - vm_compute. split; [reflexivity|]. split; discriminate.
  - unfold subtable_below, subtable_with_nulls, slot_below, anchors_below, pair_set_below,
      value_pair_below, slot_below, obj_below; simpl.
    repeat split; repeat constructor; simpl; try done;
      intros a v Hv;
      repeat (apply lookup_insert_Some in Hv as [[_ <-]|[_ Hv]]; [by vm_compute|]);
      apply lookup_singleton_Some in Hv as [_ <-]; by vm_compute.
Defined.

(** ** The whole font *)

Section FontTheorems.

Context {CharString : Type}.
Variable draw_scaled : spec_float -> dict string CharString -> CharString -> result CharString.

Implicit Types (font : @Font CharString) (s : spec_float).

Lemma rename_if_requested_tables font rename_from rename_to :
  let font' := rename_if_requested font rename_from rename_to in
  glyf font' = glyf font /\ hmtx font' = hmtx font /\ vmtx font' = vmtx font /\
  head font' = head font /\ hhea font' = hhea font /\ OS_2 font' = OS_2 font /\
  vhea font' = vhea font /\ post font' = post font /\ kern font' = kern font /\
  GPOS font' = GPOS font /\
  option_map CharStrings (CFF font') = option_map CharStrings (CFF font).
Proof.
  unfold rename_if_requested.
  destruct rename_from as [old|], rename_to as [new|]; try done.
  destruct (_ && _); [|done].
  unfold rename_font. destruct (name font) as [names|]; [|done].
  destruct (rename_names_from _ _ _ _ _); simpl; [|done].
  repeat split; try done. by destruct (CFF font).
Qed.

Lemma rename_if_requested_None font :
  rename_if_requested font None None = font.
Proof. reflexivity. Qed.

(** What a successful run of [scale_font_tables] did, table by table. *)
Lemma scale_font_tables_inv font s rename_from rename_to font' :
  scale_font_tables draw_scaled font s rename_from rename_to = Ok font' ->
  (exists m m', hmtx font = Some m /\ scale_metrics m s = Ok m' /\ hmtx font' = Some m') /\
  if_present (fun m => scale_metrics m s) (vmtx font) = Ok (vmtx font') /\
  (exists h h', head font = Some h /\ scale_attrs s head_fields h = Ok h' /\ head font' = Some h') /\
  (exists h h', hhea font = Some h /\ scale_attrs s hhea_fields h = Ok h' /\ hhea font' = Some h') /\
  if_present (scale_attrs s os2_fields) (OS_2 font) = Ok (OS_2 font') /\
  if_present (scale_attrs s vhea_fields) (vhea font) = Ok (vhea font') /\
  if_present (scale_attrs s post_fields) (post font) = Ok (post font') /\
  if_present (traverse (scale_kern_subtable s)) (kern font) = Ok (kern font') /\
  if_present (fun t => scale_gpos_values t s) (GPOS font) = Ok (GPOS font') /\
  (CFF font = None ->
     exists g g', glyf font = Some g /\ scale_glyf g s = Ok g' /\ glyf font' = Some g').
Proof.
  unfold scale_font_tables.
  destruct (rename_if_requested_tables font rename_from rename_to)
    as (Eg & Ehm & Evm & Ehd & Ehh & Eos & Evh & Epo & Eke & Egp & Ecf).
  set (f0 := rename_if_requested font rename_from rename_to) in *.
  rewrite Eg, Ehm, Evm, Ehd, Ehh, Eos, Evh, Epo, Eke, Egp.
  intros ([cff g] & Hout & H)%bind_Ok.
  apply bind_Ok in H as (m & Hm & H). apply bind_Ok in H as (m' & Hm' & H).
  apply bind_Ok in H as (vm & Hvm & H).
  apply bind_Ok in H as (h & Hh & H). apply bind_Ok in H as (h' & Hh' & H).
  apply bind_Ok in H as (hh & Hhh & H). apply bind_Ok in H as (hh' & Hhh' & H).
  apply bind_Ok in H as (os & Hos & H). apply bind_Ok in H as (vh & Hvh & H).
  apply bind_Ok in H as (po & Hpo & H). apply bind_Ok in H as (ke & Hke & H).
  apply bind_Ok in H as (gp & Hgp & H). injection H as <-. simpl.
  destruct (hmtx font) as [m0|]; [|done]. injection Hm as ->.
  destruct (head font) as [h0|]; [|done]. injection Hh as ->.
  destruct (hhea font) as [hh0|]; [|done]. injection Hhh as ->.
  repeat split; eauto.
  intros Hcff. rewrite Hcff in Ecf. destruct (CFF f0) eqn:Ef0; [done|].
  rewrite bool_decide_eq_false_2 in Hout by (rewrite Hcff; by intros [? ?]).
  apply bind_Ok in Hout as (g0 & Hg0 & Hout). apply bind_Ok in Hout as (g' & Hg' & [= <- <-]).
  destruct (glyf font) as [g1|]; [|done]. injection Hg0 as ->. eauto.
Qed.

Lemma NoDup_head_fields : NoDup head_fields.
Proof. compute_done. Qed.

Lemma NoDup_hhea_fields : NoDup hhea_fields.
Proof. compute_done. Qed.

Lemma NoDup_os2_fields : NoDup os2_fields.
Proof. compute_done. Qed.

Lemma NoDup_vhea_fields : NoDup vhea_fields.
Proof. compute_done. Qed.

Lemma NoDup_post_fields : NoDup post_fields.
Proof. compute_done. Qed.

Lemma option_Forall2_impl {A B} (R R' : A -> B -> Prop) x y :
  option_Forall2 R x y -> (forall a b, R a b -> R' a b) -> option_Forall2 R' x y.
Proof. destruct 1; constructor; auto. Qed.

Lemma scale_metrics_keys m s m' :
  scale_metrics m s = Ok m' -> dict_keys m' = dict_keys m.
Proof.
  apply for_each_keys. intros d k d' _ (v & Hv & H)%bind_Ok.
  destruct v as [width lsb].
  apply bind_Ok in H as (w & _ & H). apply bind_Ok in H as (l & _ & [= <-]).
  apply dict_set_keys. by eapply dict_get_in.
Qed.

Lemma scale_metrics_inv m s m' :
  NoDup (dict_keys m) -> scale_metrics m s = Ok m' -> Forall2 (scaled_metric s) m m'.
Proof.
  intros Hnd H. unfold scale_metrics in H.
  set (f := fun v : Z * Z => w ← scale_int s v.1; l ← scale_int s v.2; Ok (w, l)).
  set (body := fun (metrics : dict string (Z * Z)) (glyph_name : string) => _) in H.
  assert (Hbody : forall d k,
            body d k = (v ← dict_get id d k; v' ← f v; Ok (dict_set k v' d))).
  { intros d k. unfold body, f. destruct (dict_get id d k) as [[w l]|]; [|done]. simpl.
    destruct (scale_int s w); [|done]. simpl. by destruct (scale_int s l). }
  destruct (for_each_dict id f body Hbody m [] m' Hnd H) as (m1 & -> & H1).
  simpl. eapply Forall2_impl; [exact H1|].
  intros [k [w l]] [k' [w' l']] [Hk Hv]. unfold f in Hv. simpl in *.
  apply bind_Ok in Hv as (w1 & Hw & Hv). apply bind_Ok in Hv as (l1 & Hl & [= <- <-]).
  by split.
Qed.

Lemma scale_kern_subtable_keys s t t' :
  scale_kern_subtable s t = Ok t' ->
  option_map dict_keys (kernTable t') = option_map dict_keys (kernTable t).
Proof.
  intros (kt & Hkt & [= <-])%bind_Ok. simpl.
  apply if_present_inv in Hkt. destruct Hkt as [d d' Hd|]; [|done]. simpl. f_equal.
  assert (Hgen : forall l d0 d1 : dict (string * string) Z,
            (forall e, e ∈ l -> e.1 ∈ dict_keys d0) ->
            for_each (fun kernTable '(glyph_pair, value) =>
                        v ← scale_int s value; Ok (dict_set glyph_pair v kernTable)) l d0
            = Ok d1 -> dict_keys d1 = dict_keys d0).
  { induction l as [|[k v] l IH]; intros d0 d1 Hin; simpl.
    - by intros [= <-].
    - intros (d2 & H2 & Hrest)%bind_Ok. apply bind_Ok in H2 as (v' & _ & [= <-]).
      assert (Hk : dict_keys (dict_set k v' d0) = dict_keys d0).
      { apply dict_set_keys. apply (Hin (k, v)). by left. }
      rewrite <- Hk. apply IH; [|done].
      intros e He. rewrite Hk. apply Hin. by right. }
  apply Hgen in Hd; [done|].
  intros e He. unfold dict_keys. by apply list_elem_of_fmap_2.
Qed.

(** C3 (amended).  After a successful run, every header field of the
    metrics contract is [int(v * s)] of its previous value, each field scaled
    once and nothing else in its table changed; every per-glyph metric pair is
    scaled likewise; and an optional table ([vmtx], [OS/2], [vhea], [post])
    that is absent stays absent.  [int()] truncates ([scale_int_truncates]):
    the values are not rounded to nearest. *)
Theorem scale_font_tables_metrics font s rename_from rename_to font' :
  scale_font_tables draw_scaled font s rename_from rename_to = Ok font' ->
  (exists h h', head font = Some h /\ head font' = Some h' /\ scaled_obj s head_fields h h') /\
  (exists h h', hhea font = Some h /\ hhea font' = Some h' /\ scaled_obj s hhea_fields h h') /\
  option_Forall2 (scaled_obj s os2_fields) (OS_2 font) (OS_2 font') /\
  option_Forall2 (scaled_obj s vhea_fields) (vhea font) (vhea font') /\
  option_Forall2 (scaled_obj s post_fields) (post font) (post font') /\
  (exists m m', hmtx font = Some m /\ hmtx font' = Some m' /\
     (NoDup (dict_keys m) -> Forall2 (scaled_metric s) m m')) /\
  option_Forall2 (fun m m' => NoDup (dict_keys m) -> Forall2 (scaled_metric s) m m')
    (vmtx font) (vmtx font').
Proof.
  intros ((m & m' & Hm & Hsm & Hm') & Hvm & (h & h' & Hh & Hsh & Hh') &
          (hh & hh' & Hhh & Hshh & Hhh') & Hos & Hvh & Hpo & _)%scale_font_tables_inv.
  split.
  { exists h, h'. split; [done|]. split; [done|]. by apply scale_attrs_inv; [apply NoDup_head_fields|]. }
  split.
  { exists hh, hh'. split; [done|]. split; [done|]. by apply scale_attrs_inv; [apply NoDup_hhea_fields|]. }
  split.
  { apply if_present_inv in Hos. eapply option_Forall2_impl; [exact Hos|].
    intros a b Hab. by apply scale_attrs_inv; [apply NoDup_os2_fields|]. }
  split.
  { apply if_present_inv in Hvh. eapply option_Forall2_impl; [exact Hvh|].
    intros a b Hab. by apply scale_attrs_inv; [apply NoDup_vhea_fields|]. }
  split.
  { apply if_present_inv in Hpo. eapply option_Forall2_impl; [exact Hpo|].
    intros a b Hab. by apply scale_attrs_inv; [apply NoDup_post_fields|]. }
  split.
  { exists m, m'. split; [done|]. split; [done|]. intros Hnd. by apply scale_metrics_inv. }
  apply if_present_inv in Hvm. eapply option_Forall2_impl; [exact Hvm|].
  intros a b Hab Hnd. by apply scale_metrics_inv.
Qed.

(** C5 (amended).  A font with neither a CFF table nor a glyf table makes
    [scale_font] raise [KeyError('glyf')]: the branch for fonts without CFF
    reads [font['glyf']] unconditionally. *)
Theorem scale_font_tables_no_outlines font s rename_from rename_to :
  CFF font = None -> glyf font = None ->
  scale_font_tables draw_scaled font s rename_from rename_to = Raise (KeyError "glyf").
Proof.
  intros Hcff Hglyf. unfold scale_font_tables.
  destruct (rename_if_requested_tables font rename_from rename_to) as (Eg & _).
  rewrite bool_decide_eq_false_2 by (rewrite Hcff; by intros [? ?]).
  rewrite Eg, Hglyf. reflexivity.
Qed.

(** C10.  A successful scaling pass keeps the keys of the horizontal
    metrics, of the vertical metrics when present, and of every legacy kerning
    subtable, in their order; hence the key sets are the same before and
    after. *)
Theorem scale_font_tables_keys font s rename_from rename_to font' :
  scale_font_tables draw_scaled font s rename_from rename_to = Ok font' ->
  option_map dict_keys (hmtx font') = option_map dict_keys (hmtx font) /\
  option_map dict_keys (vmtx font') = option_map dict_keys (vmtx font) /\
  option_Forall2
    (Forall2 (fun t t' =>
                option_map dict_keys (kernTable t') = option_map dict_keys (kernTable t)))
    (kern font) (kern font').
Proof.
  intros ((m & m' & Hm & Hsm & Hm') & Hvm & _ & _ & _ & _ & _ & Hke & _)%scale_font_tables_inv.
  split; [rewrite Hm, Hm'; simpl; f_equal; by eapply scale_metrics_keys|].
  split.
  - apply if_present_inv in Hvm. destruct Hvm as [a b Hab|]; [|done].
    simpl. f_equal. by eapply scale_metrics_keys.
  - apply if_present_inv in Hke. eapply option_Forall2_impl; [exact Hke|].
    intros ts ts' Hts. apply traverse_Forall2 in Hts.
    eapply Forall2_impl; [exact Hts|]. intros t t'. apply scale_kern_subtable_keys.
Qed.

(** *** Batch mode *)

Lemma batch_loop_app scale suffix_arg rename_from rename_to l1 l2 st :
  batch_loop draw_scaled scale suffix_arg rename_from rename_to (l1 ++ l2) st
  = batch_loop draw_scaled scale suffix_arg rename_from rename_to l2
      (batch_loop draw_scaled scale suffix_arg rename_from rename_to l1 st).
Proof. apply fold_left_app. Qed.

Lemma batch_loop_cons scale suffix_arg rename_from rename_to p l st :
  batch_loop draw_scaled scale suffix_arg rename_from rename_to (p :: l) st
  = batch_loop draw_scaled scale suffix_arg rename_from rename_to l
      (batch_step draw_scaled scale suffix_arg rename_from rename_to st p).
Proof. reflexivity. Qed.

Lemma batch_step_unfold scale suffix_arg rename_from rename_to d es p :
  batch_step draw_scaled scale suffix_arg rename_from rename_to
    {| disk_of := d; errors := es |} p
  = match scale_font draw_scaled d (str p) (str (output_path suffix_arg p))
            scale rename_from rename_to with
    | Ok d' => {| disk_of := d'; errors := es |}
    | Raise e => {| disk_of := d; errors := es ++ [(p, e)] |}
    end.
Proof. reflexivity. Qed.

(** The error log only grows, and what the loop does to the files does not
    depend on it. *)
Lemma batch_loop_frame scale suffix_arg rename_from rename_to l : forall d es,
  batch_loop draw_scaled scale suffix_arg rename_from rename_to l {| disk_of := d; errors := es |}
  = {| disk_of :=
         disk_of (batch_loop draw_scaled scale suffix_arg rename_from rename_to l
                    {| disk_of := d; errors := [] |});
       errors :=
         es ++ errors (batch_loop draw_scaled scale suffix_arg rename_from rename_to l
                         {| disk_of := d; errors := [] |}) |}.
Proof.
  unfold batch_loop. induction l as [|p l IH]; intros d es; simpl.
  - by rewrite app_nil_r.
  - rewrite !batch_step_unfold.
    destruct (scale_font draw_scaled d _ _ scale rename_from rename_to) as [d'|e].
    + apply IH.
    + rewrite (IH d (es ++ [(p, e)])), (IH d ([] ++ [(p, e)])). simpl. by rewrite <- app_assoc.
Qed.


End FontTheorems.

(** C3 (as stated) fails twice: scaling [tiny_font] by [1.75] leaves every
    [hhea] field at [1] although [1.75] rounds to [2]; and a font whose OS/2
    table has no [sxHeight] is not scaled with the field skipped, the run
    raises [AttributeError]. *)
Lemma scale_font_tables_not_nearest :
  ~ (forall font' h h' a v v',
       scale_font_tables keep_charstring tiny_font one_and_three_quarters None None = Ok font' ->
       hhea tiny_font = Some h -> hhea font' = Some h' -> a ∈ hhea_fields ->
       h !! a = Some v -> h' !! a = Some v' ->
       nearest_of one_and_three_quarters v v') /\
  scale_font_tables keep_charstring os2_version_1_font one_and_three_quarters None None
  = Raise (AttributeError "sxHeight").
Proof.
  split; [|by vm_compute].
  intros H.
  assert (Hc : (font' ← scale_font_tables keep_charstring tiny_font one_and_three_quarters
                          None None;
                h' ← table "hhea" (hhea font'); getattr h' "ascent") = Ok 1)
    by (vm_compute; reflexivity).
  apply bind_Ok in Hc as (font' & Hfont & Hc). apply bind_Ok in Hc as (h' & Hh' & Hv).
  destruct (hhea font') as [h''|] eqn:Eh; [|done]. injection Hh' as ->.
  unfold getattr in Hv. destruct (h' !! "ascent"%string) as [v'|] eqn:Ev; [|done].
  injection Hv as ->.
  assert (Hin : "ascent"%string ∈ hhea_fields) by (by vm_compute; left).
  assert (Hh : all_ones hhea_fields !! "ascent"%string = Some 1) by (by vm_compute).
  destruct (H font' _ h' _ 1 1 Hfont eq_refl Eh Hin Hh Ev) as [Hn|Hn];
    vm_compute in Hn; discriminate Hn.
Qed.

Lemma scale_font_tables_metrics_witness :
  exists h', head (CharString := unit) tiny_font = Some (all_ones head_fields) /\
             scaled_obj default_scale head_fields (all_ones head_fields) h'.
Proof.
  destruct (scale_font_tables keep_charstring tiny_font default_scale None None)
    as [font'|] eqn:E; [|by vm_compute in E].
  destruct (scale_font_tables_metrics keep_charstring _ _ _ _ _ E)
    as ((h & h' & Hh & Hh' & Hs) & _).
  exists h'. split; [reflexivity|]. by injection Hh as <-.
Defined.

(** C5 (as stated) fails: the run on a font without CFF and glyf tables does
    not continue, it raises. *)
Lemma scale_font_tables_no_outlines_raises :
  ~ is_Ok (scale_font_tables keep_charstring outline_free_font default_scale None None).
Proof. intros [font' H]. by vm_compute in H. Qed.

Lemma scale_font_tables_no_outlines_witness :
  scale_font_tables keep_charstring outline_free_font default_scale None None
  = Raise (KeyError "glyf").
Proof.
  exact (scale_font_tables_no_outlines keep_charstring outline_free_font default_scale
           None None eq_refl eq_refl).
Defined.

Lemma scale_font_tables_keys_witness :
  exists font', scale_font_tables keep_charstring tiny_font default_scale None None = Ok font' /\
    option_map dict_keys (hmtx font') = Some ["A"; "B"]%string /\
    option_map dict_keys (vmtx font') = None /\
    option_Forall2
      (Forall2 (fun t t' =>
                  option_map dict_keys (kernTable t') = option_map dict_keys (kernTable t)))
      (kern tiny_font) (kern font').
Proof.
  destruct (scale_font_tables keep_charstring tiny_font default_scale None None)
    as [font'|] eqn:E; [|by vm_compute in E].
  exists font'. split; [reflexivity|].
  exact (scale_font_tables_keys keep_charstring _ _ _ _ _ E).
Defined.


(** ** The scale factor [1.0] *)

Section Identity.

Context {CharString : Type}.
Variable draw_scaled : spec_float -> dict string CharString -> CharString -> result CharString.

Implicit Types (font : @Font CharString) (o : obj).

Lemma dict_get_NoDup `{EqDecision K} {V} show (d : dict K V) k v :
  NoDup (dict_keys d) -> (k, v) ∈ d -> dict_get show d k = Ok v.
Proof.
  unfold dict_keys. induction d as [|[k' v'] d IH]; simpl.
  - by intros _ ?%elem_of_nil.
  - intros [Hk Hnd]%NoDup_cons [[= -> ->]|Hin]%elem_of_cons.
    + by destruct (decide (k' = k')).
    + destruct (decide (k' = k)) as [->|Hne]; [|by apply IH].
      destruct Hk. by apply (list_elem_of_fmap_2 fst d (k, v)).
Qed.

Lemma scale_metrics_one m : metrics_below 52 m -> scale_metrics m one = Ok m.
Proof.
  intros Hm. apply for_each_id. intros k Hk.
  destruct (dict_get_is_Ok id m k Hk) as [[w l] Hg]. rewrite Hg. simpl.
  pose proof (dict_get_elem _ _ _ _ Hg) as Hin.
  eapply Forall_forall in Hm as [Hw Hl]; [|exact Hin]. simpl in *.
  rewrite !scale_int_one by done. simpl. by erewrite dict_set_same.
Qed.

Lemma scale_glyf_one g :
  Forall (fun e => glyph_below 52 e.2 /\ bbox_complete e.2) g -> scale_glyf g one = Ok g.
Proof.
  intros Hg. apply for_each_id. intros k Hk.
  destruct (dict_get_is_Ok id g k Hk) as [glyph Hget]. rewrite Hget. simpl.
  destruct (negb (numberOfContours glyph =? 0)); [|done].
  pose proof (dict_get_elem _ _ _ _ Hget) as Hin.
  eapply Forall_forall in Hg as [Hb Hc]; [|exact Hin]. simpl in *.
  rewrite scale_glyph_ttf_one by done. simpl. by erewrite dict_set_same.
Qed.

Lemma scale_kern_subtable_one t : kern_below 52 t -> scale_kern_subtable one t = Ok t.
Proof.
  unfold kern_below, scale_kern_subtable. destruct t as [[kt|]]; simpl; [|done].
  intros [Hnd Hkt]. rewrite for_each_id; [done|].
  intros [glyph_pair value] Hin.
  eapply Forall_forall in Hkt; [|exact Hin]. simpl in Hkt.
  rewrite scale_int_one by done. simpl.
  erewrite (dict_set_same (fun _ => ""%string)); [done|]. by apply dict_get_NoDup.
Qed.

Lemma scale_value_record_one o : obj_below 52 o -> scale_value_record o one = Ok o.
Proof.
  intros Ho. apply (for_each_attr_id _ (fun x => forall v, x = Some v -> int_below 52 v)).
  - intros o1 a H1. unfold scale_attr_if_truthy.
    destruct (o1 !! a) as [v|] eqn:Hv; [|done].
    destruct (v =? 0); [done|]. by eapply scale_attr_one, H1.
  - intros a _ v Hv. by eapply Ho.
Qed.

Lemma scale_anchor_one o : obj_below 52 o -> scale_anchor o one = Ok o.
Proof.
  intros Ho. apply (for_each_attr_id _ (fun x => forall v, x = Some v -> int_below 52 v)).
  - intros o1 a H1. unfold scale_attr_if_present, hasattr.
    case_bool_decide as Hsome; [|done]. destruct Hsome as [v Hv].
    by eapply scale_attr_one, H1.
  - intros a _ v Hv. by eapply Ho.
Qed.

Lemma scale_anchor_slot_one a : slot_below 52 a -> scale_anchor_slot one a = Ok a.
Proof.
  intros Ha. apply if_present_id. destruct a as [o|]; [|done]. by apply scale_anchor_one.
Qed.

Lemma scale_anchors_one l :
  anchors_below 52 l -> traverse (scale_anchor_slot one) l = Ok l.
Proof.
  intros Hl. apply traverse_id. eapply Forall_impl; [exact Hl|].
  intros a. apply scale_anchor_slot_one.
Qed.

Lemma scale_value_pair_one r : value_pair_below 52 r -> scale_value_pair one r = Ok r.
Proof.
  intros [H1 H2]. unfold scale_value_pair, scale_value_slot.
  rewrite (if_present_id _ (Value1 r))
    by (destruct (Value1 r); [by apply scale_value_record_one|done]).
  simpl.
  rewrite (if_present_id _ (Value2 r))
    by (destruct (Value2 r); [by apply scale_value_record_one|done]).
  by destruct r.
Qed.

Lemma scale_value_pairs_one l :
  Forall (value_pair_below 52) l -> traverse (scale_value_pair one) l = Ok l.
Proof.
  intros Hl. apply traverse_id. eapply Forall_impl; [exact Hl|].
  intros r. apply scale_value_pair_one.
Qed.

Lemma scale_gpos_subtable_one subtable :
  subtable_below 52 subtable -> scale_gpos_subtable subtable one = Ok subtable.
Proof.
  intros (Hsingle & Hpairs & Hclass & Hbase & Hmark & Hmark2 & Hlig).
  unfold scale_gpos_subtable.
  rewrite (if_hasattr_id _ (SinglePos subtable)); simpl.
  2: { destruct (SinglePos subtable); [|done]. simpl in *.
       eapply Forall_impl; [exact Hsingle|]. intros o. apply scale_value_record_one. }
  rewrite (if_hasattr_id _ (PairSet subtable)); simpl.
  2: { destruct (PairSet subtable); [|done]. simpl in *.
       eapply Forall_impl; [exact Hpairs|]. intros [ps|] Hps; [|done]. simpl in *.
       unfold scale_pair_set. rewrite scale_value_pairs_one by done. by destruct ps. }
  rewrite (if_hasattr_id _ (Class1Record subtable)); simpl.
  2: { destruct (Class1Record subtable); [|done]. simpl in *.
       eapply Forall_impl; [exact Hclass|]. intros r Hr.
       unfold scale_class1_record. rewrite scale_value_pairs_one by done. by destruct r. }
  rewrite (if_hasattr_id _ (BaseArray subtable)); simpl.
  2: { destruct (BaseArray subtable); [|done]. simpl in *.
       eapply Forall_impl; [exact Hbase|]. intros r Hr.
       unfold scale_base_record. rewrite scale_anchors_one by done. by destruct r. }
  rewrite (if_hasattr_id _ (MarkArray subtable)); simpl.
  2: { destruct (MarkArray subtable); [|done]. simpl in *.
       eapply Forall_impl; [exact Hmark|]. intros r Hr.
       unfold scale_mark_record. rewrite scale_anchor_slot_one by done. by destruct r. }
  rewrite (if_hasattr_id _ (Mark2Array subtable)); simpl.
  2: { destruct (Mark2Array subtable); [|done]. simpl in *.
       eapply Forall_impl; [exact Hmark2|]. intros r Hr.
       unfold scale_mark2_record. rewrite scale_anchors_one by done. by destruct r. }
  rewrite (if_hasattr_id _ (LigatureArray subtable)); simpl.
  2: { destruct (LigatureArray subtable); [|done]. simpl in *.
       eapply Forall_impl; [exact Hlig|]. intros r Hr.
       unfold scale_ligature_attach. rewrite traverse_id; [by destruct r|].
       eapply Forall_impl; [exact Hr|]. intros c Hc.
       unfold scale_component_record. rewrite scale_anchors_one by done. by destruct c. }
  by destruct subtable.
Qed.

Lemma scale_gpos_values_one t : gpos_below 52 t -> scale_gpos_values t one = Ok t.
Proof.
  unfold gpos_below, scale_gpos_values. destruct t as [[ls|]]; simpl; [|done].
  intros Hls. rewrite traverse_id; [done|].
  eapply Forall_impl; [exact Hls|]. intros l Hl. unfold scale_lookup.
  rewrite traverse_id; [by destruct l|].
  eapply Forall_impl; [exact Hl|]. intros st. apply scale_gpos_subtable_one.
Qed.


End Identity.

Lemma valid_tiny_font : valid_font 52 tiny_font.
Proof.
  unfold valid_font, tiny_font. simpl.
  split.
  { intros _. exists glyf_AB. split; [done|].
    repeat constructor; simpl; try concrete_obj_below; try (by vm_compute);
      intros _ a Hin; unfold bbox_fields in Hin;
      repeat (apply elem_of_cons in Hin as [->|Hin]; [vm_compute; by eexists|]);
      by apply elem_of_nil in Hin. }
  split; [eexists; split; [done|]; repeat constructor; by vm_compute|].
  split; [done|].
  split; [eexists; split; [done|]; unfold head_fields; concrete_has_fields|].
  split; [eexists; split; [done|]; unfold hhea_fields; concrete_has_fields|].
  repeat split; try done.
  constructor; [|constructor]. simpl. split; [apply NoDup_singleton|].
  constructor; [by vm_compute|constructor].
Defined.


(** ** Scaling there and back *)

Section RoundTrip.

Implicit Types (s t : spec_float) (glyph : Glyph).

(** The arithmetic of a round trip, on exact numbers: [A], [B] are the
    denominators of the two factors, [M], [N] their numerators, and [1 / E]
    bounds the relative errors. *)
Lemma round_trip_lower x y A B M N E :
  1 <= x -> x * x + 1 <= E -> 0 < A -> 0 < B -> A <= M -> 0 < N ->
  x <= y -> x * M + 1 <= (y + 1) * A ->
  A * B * (E - 1) <= M * N * E ->
  (x - 1) * B <= y * N.
Proof.
  intros Hx HE HA HB HM HN Hxy Hfloor Hclose.
  (* it is enough to compare after multiplying by [M * E] *)
  assert (Hkey : (x - 1) * M * E <= y * A * (E - 1)).
  { destruct (Z.le_gt_cases (x * M) (y * A)) as [Hc|Hc].
    - assert (x * M * (E - 1) <= y * A * (E - 1)) by (apply Z.mul_le_mono_nonneg_r; lia).
      assert (0 <= M * (E - x)) by (apply Z.mul_nonneg_nonneg; nia).
      nia.
    - set (D := M - A). assert (HD : 0 <= D) by lia.
      destruct (Z.le_gt_cases ((x - 1) * A) (D * (E - x))) as [Hbig|Hsmall].
      + assert (Hy : x * A + x * D - A <= y * A) by (unfold D; lia).
        assert (Hy' : (x * A + x * D - A) * (E - 1) <= y * A * (E - 1))
          by (apply Z.mul_le_mono_nonneg_r; lia).
        assert (Hd : (x - 1) * A + x * D <= D * E) by nia.
        replace ((x - 1) * M * E) with ((x - 1) * (A + D) * E) by (unfold D; ring).
        nia.
      + assert (H0 : D * (E - x) <= (x - 1) * A) by lia.
        assert (H1 : (x - 1) * E * (D * (E - x)) <= (x - 1) * E * ((x - 1) * A))
          by (apply Z.mul_le_mono_nonneg_l; nia).
        assert (H2' : 0 <= E * (E - x * x - 1)) by (apply Z.mul_nonneg_nonneg; lia).
        assert (H2 : (x - 1) * (x - 1) * E <= (E - x) * (E - x)) by nia.
        assert (H3 : A * ((x - 1) * (x - 1) * E) <= A * ((E - x) * (E - x)))
          by (apply Z.mul_le_mono_nonneg_l; lia).
        assert (H4 : (x - 1) * D * E <= A * (E - x)).
        { apply Z.mul_le_mono_pos_r with (p := E - x); [nia|].
          replace ((x - 1) * D * E * (E - x)) with ((x - 1) * E * (D * (E - x))) by ring.
          replace (A * (E - x) * (E - x)) with (A * ((E - x) * (E - x))) by ring.
          replace ((x - 1) * E * ((x - 1) * A)) with (A * ((x - 1) * (x - 1) * E)) in H1 by ring.
          lia. }
        assert (H5 : x * A * (E - 1) <= y * A * (E - 1)).
        { apply Z.mul_le_mono_nonneg_r; [lia|]. apply Z.mul_le_mono_nonneg_r; lia. }
        replace ((x - 1) * M * E) with ((x - 1) * A * E + (x - 1) * D * E) by (unfold D; ring).
        nia. }
  apply Z.mul_le_mono_pos_r with (p := M * E); [nia|].
  transitivity (y * A * B * (E - 1)); [nia|].
  replace (y * N * (M * E)) with (y * (M * N * E)) by ring.
  replace (y * A * B * (E - 1)) with (y * (A * B * (E - 1))) by ring.
  apply Z.mul_le_mono_nonneg_l; lia.
Qed.

Lemma round_trip_upper x y z A B M N E :
  0 <= x -> 7 * x < E -> 0 < A -> 0 < B -> 0 < M -> 0 < N -> 0 <= y -> 0 <= z ->
  y * A * E <= x * M * (E + 1) ->
  z * B * E <= y * N * (E + 1) ->
  M * N * E <= A * B * (E + 1) ->
  z <= x.
Proof.
  intros Hx HE HA HB HM HN Hy Hz H1 H2 H3.
  assert (HE0 : 0 < E) by lia.
  assert (S1 : z * B * E * (A * E) <= y * N * (E + 1) * (A * E))
    by (apply Z.mul_le_mono_nonneg_r; nia).
  assert (S2 : y * A * E * (N * (E + 1)) <= x * M * (E + 1) * (N * (E + 1)))
    by (apply Z.mul_le_mono_nonneg_r; nia).
  assert (S3 : x * (E + 1) * (E + 1) * (M * N * E) <= x * (E + 1) * (E + 1) * (A * B * (E + 1)))
    by (apply Z.mul_le_mono_nonneg_l; nia).
  assert (S4 : z * E * E * E * (A * B) <= x * (E + 1) * (E + 1) * (E + 1) * (A * B)).
  { replace (z * E * E * E * (A * B)) with (z * B * E * (A * E) * E) by ring.
    replace (x * (E + 1) * (E + 1) * (E + 1) * (A * B))
      with (x * (E + 1) * (E + 1) * (A * B * (E + 1))) by ring.
    assert (z * B * E * (A * E) * E <= x * M * (E + 1) * (N * (E + 1)) * E).
    { apply Z.mul_le_mono_nonneg_r; [lia|].
      replace (y * N * (E + 1) * (A * E)) with (y * A * E * (N * (E + 1))) in S1 by ring.
      lia. }
    replace (x * M * (E + 1) * (N * (E + 1)) * E)
      with (x * (E + 1) * (E + 1) * (M * N * E)) in * by ring.
    lia. }
  apply Z.mul_le_mono_pos_r in S4; [|nia].
  assert (S5 : x * (E + 1) * (E + 1) * (E + 1) < (x + 1) * E * E * E).
  { assert (x * 7 * (E * E) < E * (E * E)) by (apply Z.mul_lt_mono_pos_r; nia).
    assert (x * (3 * E + 1) <= x * (4 * (E * E))) by (apply Z.mul_le_mono_nonneg_l; nia).
    nia. }
  assert (S6 : z * (E * E * E) < (x + 1) * (E * E * E)) by nia.
  apply Z.mul_lt_mono_pos_r in S6; [lia|nia].
Qed.

Lemma positive_normal_inv s :
  positive_normal s ->
  0 < significand s /\ 0 <= shift s <= 1074 /\ s = S754_finite false (Z.to_pos (significand s)) (- shift s).
Proof.
  destruct s as [| | |[] m e]; try done. intros [_ He]. simpl.
  split; [lia|]. split; [lia|]. f_equal; lia.
Qed.

Lemma truncation_round_trip s t x y z :
  positive_normal s -> positive_normal t -> enlarging s -> inverse_of s t ->
  int_below 24 x -> truncation_of s x y -> truncation_of t y z ->
  Z.abs y < 2 ^ 49 /\ Z.abs (z - x) <= 1.
Proof.
  intros (HM & Ha & _)%positive_normal_inv (HN & Hb & _)%positive_normal_inv.
  unfold enlarging, inverse_of, int_below, truncation_of.
  set (M := significand s) in *. set (N := significand t) in *.
  set (a := shift s) in *. set (b := shift t) in *.
  rewrite (Z.pow_add_r 2 a b), (Z.pow_add_r 2 a 24) by lia.
  set (A := 2 ^ a). set (B := 2 ^ b).
  assert (HA : 0 < A) by (apply Z.pow_pos_nonneg; lia).
  assert (HB : 0 < B) by (apply Z.pow_pos_nonneg; lia).
  intros [HAM HMA] Hinv Hx (Hsy & U1 & L1) (Hsz & U2 & L2).
  rewrite !(Z.pow_add_r 2 53) in * by lia. fold A B in L1, L2.
  set (X := Z.abs x) in *. set (Y := Z.abs y) in *. set (W := Z.abs z) in *.
  assert (HX : 0 <= X) by apply Z.abs_nonneg.
  assert (HY : 0 <= Y) by apply Z.abs_nonneg.
  assert (HW : 0 <= W) by apply Z.abs_nonneg.
  change (2 ^ 52) with 4503599627370496 in U1, U2.
  set (E := 2 ^ 50) in *.
  assert (HE : E = 1125899906842624) by reflexivity.
  assert (H24 : 2 ^ 24 = 16777216) by reflexivity.
  assert (H53 : 2 ^ 53 = 8 * E) by reflexivity.
  assert (H49 : 2 ^ 49 = 562949953421312) by reflexivity.
  rewrite H53 in L1, L2. rewrite H24 in Hx, HMA. rewrite H49.
  assert (Hlo : A * B * (E - 1) <= M * N * E) by lia.
  assert (Hhi : M * N * E <= A * B * (E + 1)) by lia.
  (* the rounding error of one product, [2^-52], is below [2^-50] *)
  assert (U1' : Y * A * E <= X * M * (E + 1)).
  { assert (0 <= X * M) by (apply Z.mul_nonneg_nonneg; lia). lia. }
  assert (U2' : W * B * E <= Y * N * (E + 1)).
  { assert (0 <= Y * N) by (apply Z.mul_nonneg_nonneg; lia). lia. }
  clear U1 U2. rename U1' into U1. rename U2' into U2.
  assert (HXM : X * M < 8 * E * A).
  { assert (X * M <= 16777215 * (A * 16777216)) by (apply Z.mul_le_mono_nonneg; lia). lia. }
  specialize (L1 HXM).
  assert (HYb : Y < 562949953421312).
  { assert (HYAE : Y * (A * E) < 562949953421312 * (A * E)).
    { assert (X * M <= 16777215 * (A * 16777216)) by (apply Z.mul_le_mono_nonneg; lia).
      assert (X * M * (E + 1) <= 16777215 * (A * 16777216) * (E + 1))
        by (apply Z.mul_le_mono_nonneg_r; lia).
      lia. }
    apply Z.mul_lt_mono_pos_r in HYAE; lia. }
  split; [exact HYb|].
  assert (HNB : N <= 2 * B).
  { assert (HNA : N * A * E <= M * N * E).
    { replace (M * N * E) with (N * M * E) by ring.
      apply Z.mul_le_mono_nonneg_r; [lia|]. apply Z.mul_le_mono_nonneg_l; lia. }
    assert (HAB : A * B * (E + 1) <= 2 * B * A * E).
    { replace (2 * B * A * E) with (A * B * (2 * E)) by ring.
      apply Z.mul_le_mono_nonneg_l; lia. }
    assert (HNA' : N * (A * E) <= 2 * B * (A * E)) by lia.
    apply Z.mul_le_mono_pos_r in HNA'; lia. }
  assert (HYN : Y * N < 8 * E * B).
  { assert (Y * N <= 562949953421311 * (2 * B)) by (apply Z.mul_le_mono_nonneg; lia). lia. }
  specialize (L2 HYN).
  destruct (Z.eq_dec X 0) as [HX0|HX0].
  - assert (X = 0) by lia.
    assert (HY0 : Y = 0).
    { assert (Y * (A * E) <= 0 * (A * E)) by (replace X with 0 in U1 by lia; lia).
      apply Z.mul_le_mono_pos_r in H0; lia. }
    assert (HW0 : W = 0).
    { assert (W * (B * E) <= 0 * (B * E)) by (rewrite HY0 in U2; lia).
      apply Z.mul_le_mono_pos_r in H0; lia. }
    unfold X, Y, W in *. lia.
  - assert (HXY : X <= Y) by (apply L1, Z.mul_le_mono_nonneg_l; lia).
    assert (Hfloor : X * M + 1 <= (Y + 1) * A).
    { assert (X * M / A <= Y) by (apply L1; rewrite Z.mul_comm; apply Z.mul_div_le; lia).
      pose proof (Z.div_mod (X * M) A ltac:(lia)) as Hdm.
      pose proof (Z.mod_pos_bound (X * M) A HA) as Hmod.
      nia. }
    assert (Hge : X - 1 <= W).
    { assert (HXX : X * X + 1 <= E).
      { assert (X * X <= 16777215 * 16777215) by (apply Z.mul_le_mono_nonneg; lia). lia. }
      apply L2. apply (round_trip_lower X Y A B M N E); try assumption; lia. }
    assert (Hle : W <= X).
    { apply (round_trip_upper X Y W A B M N E); try assumption; lia. }
    assert (Z.sgn y = Z.sgn x).
    { rewrite Hsy. unfold Y in *. destruct x, y; simpl in *; lia. }
    rewrite Hsz. replace (Z.sgn y) with (Z.sgn x).
    unfold X, W in *. destruct x; simpl in *; lia.
Qed.


Lemma truncation_below s x y :
  positive_normal s -> enlarging s -> int_below 24 x -> truncation_of s x y -> int_below 49 y.
Proof.
  intros (HM & Ha & _)%positive_normal_inv.
  unfold enlarging, int_below, truncation_of.
  set (M := significand s) in *. set (a := shift s) in *.
  rewrite (Z.pow_add_r 2 a 24) by lia.
  set (A := 2 ^ a).
  assert (HA : 0 < A) by (apply Z.pow_pos_nonneg; lia).
  intros [HAM HMA] Hx (_ & U1 & _).
  set (X := Z.abs x) in *. set (Y := Z.abs y) in *.
  assert (HX : 0 <= X) by apply Z.abs_nonneg.
  set (E := 2 ^ 52) in *.
  assert (HE : E = 4503599627370496) by reflexivity.
  assert (H24 : 2 ^ 24 = 16777216) by reflexivity.
  assert (H49 : 2 ^ 49 = 562949953421312) by reflexivity.
  rewrite H24 in Hx, HMA. rewrite H49.
  assert (HYAE : Y * (A * E) < 562949953421312 * (A * E)).
  { assert (X * M <= 16777215 * (A * 16777216)) by (apply Z.mul_le_mono_nonneg; lia).
    assert (X * M * (E + 1) <= 16777215 * (A * 16777216) * (E + 1))
      by (apply Z.mul_le_mono_nonneg_r; lia).
    lia. }
  apply Z.mul_lt_mono_pos_r in HYAE; lia.
Qed.

Lemma int_below_mono k k' x : k <= k' -> 0 <= k -> int_below k x -> int_below k' x.
Proof.
  unfold int_below. intros Hk Hk0 Hx.
  assert (2 ^ k <= 2 ^ k') by (apply Z.pow_le_mono_r; lia). lia.
Qed.

Lemma scale_int_functional s x y y' :
  scale_int s x = Ok y -> scale_int s x = Ok y' -> y = y'.
Proof. congruence. Qed.

(** A simple outline goes through the second branch and the bounding-box
    block of [scale_glyph_ttf]. *)
Lemma scale_glyph_ttf_simple glyph glyf_table s :
  0 < numberOfContours glyph ->
  scale_glyph_ttf glyph glyf_table s
  = (cs ← traverse (scale_point s) (coordinates glyph);
     a ← (if hasattr (glyph_attrs glyph) "xMin"
          then scale_attrs s bbox_fields (glyph_attrs glyph)
          else Ok (glyph_attrs glyph));
     Ok {| numberOfContours := numberOfContours glyph; components := components glyph;
           coordinates := cs; glyph_attrs := a |}).
Proof.
  intros Hpos. unfold scale_glyph_ttf, isComposite.
  destruct (Z.eqb_spec (numberOfContours glyph) (-1)); [lia|].
  destruct (Z.ltb_spec 0 (numberOfContours glyph)); [|lia].
  destruct (traverse (scale_point s) (coordinates glyph)) as [cs|]; [|done]. simpl.
  destruct (Z.eqb_spec (numberOfContours glyph) 0); [lia|].
  destruct (hasattr (glyph_attrs glyph) "xMin"); simpl; [|done].
  by destruct (scale_attrs s bbox_fields (glyph_attrs glyph)).
Qed.

Lemma scale_points_scaled s k coords :
  positive_normal s -> k <= 53 -> 0 <= k ->
  Forall (fun p => int_below k p.1 /\ int_below k p.2) coords ->
  exists coords', traverse (scale_point s) coords = Ok coords' /\
    Forall2 (scaled_point s) coords coords'.
Proof.
  intros Hs Hk Hk0 Hc. apply traverse_rel. eapply Forall_impl; [exact Hc|].
  intros p [H1 H2]. apply scale_point_scaled; [done|by eapply int_below_mono..].
Qed.

Lemma scale_bbox_scaled s k (a : obj) :
  positive_normal s -> k <= 53 -> 0 <= k -> obj_below k a ->
  (hasattr a "xMin" = true -> forall f, f ∈ bbox_fields -> is_Some (a !! f)) ->
  exists a', (if hasattr a "xMin" then scale_attrs s bbox_fields a else Ok a) = Ok a' /\
    (if hasattr a "xMin" then scaled_obj s bbox_fields a a' else a' = a).
Proof.
  intros Hs Hk Hk0 Ha Hb. destruct (hasattr a "xMin") eqn:Hx; [|by exists a].
  destruct (scale_attrs_is_Ok s bbox_fields a NoDup_bbox_fields) as [a' Ha'].
  { intros f Hf. destruct (Hb eq_refl f Hf) as [v Hv]. exists v. split; [done|].
    apply scale_int_is_Ok; [done|]. eapply int_below_mono; [exact Hk|done|]. by eapply Ha. }
  exists a'. split; [done|]. by apply scale_attrs_inv; [apply NoDup_bbox_fields|].
Qed.

(** Scaling by [s] and then by any factor [t] that inverts [s] up to a
    relative error of [2^-50]. *)
Lemma scale_glyph_ttf_there_and_back glyph glyf_table glyf_table' s t :
  positive_normal s -> positive_normal t -> enlarging s -> inverse_of s t ->
  0 < numberOfContours glyph -> glyph_below 24 glyph -> bbox_complete glyph ->
  exists glyph1 glyph2,
    scale_glyph_ttf glyph glyf_table s = Ok glyph1 /\
    scale_glyph_ttf glyph1 glyf_table' t = Ok glyph2 /\
    Forall2 within_one (coordinates glyph) (coordinates glyph2).
Proof.
  intros Hs Ht Hen Hinv Hpos (Hc & _ & Ha) Hb.
  destruct (scale_points_scaled s 24 (coordinates glyph)) as (cs1 & Hcs1 & R1); [done|lia|lia|done|].
  destruct (scale_bbox_scaled s 24 (glyph_attrs glyph)) as (a1 & Ha1 & Ra1); [done|lia|lia|done|done|].
  assert (Hcs1b : Forall (fun p => int_below 49 p.1 /\ int_below 49 p.2) cs1).
  { apply Forall_forall. intros q Hq.
    apply list_elem_of_lookup in Hq as [i Hi].
    destruct (Forall2_lookup_r _ _ _ _ _ R1 Hi) as (p & Hp & [[_ T1] [_ T2]]).
    apply list_elem_of_lookup_2 in Hp.
    eapply Forall_forall in Hc as [B1 B2]; [|exact Hp].
    split; [apply (truncation_below s p.1)|apply (truncation_below s p.2)]; done. }
  destruct (scale_points_scaled t 49 cs1) as (cs2 & Hcs2 & R2); [done|lia|lia|done|].
  assert (Ha1b : obj_below 49 a1 /\
                 (hasattr a1 "xMin" = true -> forall f, f ∈ bbox_fields -> is_Some (a1 !! f))).
  { destruct (hasattr (glyph_attrs glyph) "xMin") eqn:Hx.
    - destruct Ra1 as [Rin Rout]. split.
      + intros f v' Hv'. destruct (decide (f ∈ bbox_fields)) as [Hf|Hf].
        * destruct (Rin f Hf) as (v & w & Hv & Hsv & Hw).
          assert (w = v') by congruence. subst w.
          destruct (scale_int_truncates s v Hs) as (z & Hz & Tz).
          { apply (int_below_mono 24 53); [lia|lia|by eapply Ha]. }
          assert (z = v') by congruence. subst z.
          apply (truncation_below s v); [done|done| |exact Tz]. by eapply Ha.
        * rewrite Rout in Hv' by done.
          apply (int_below_mono 24 49); [lia|lia|by eapply Ha].
      + intros _ f Hf. destruct (Rin f Hf) as (v & w & _ & _ & Hw). by eexists.
    - subst a1. split.
      + intros f v Hv. apply (int_below_mono 24 49); [lia|lia|by eapply Ha].
      + by rewrite Hx. }
  destruct Ha1b as [Ha1b Hb1].
  destruct (scale_bbox_scaled t 49 a1) as (a2 & Ha2 & _); [done|lia|lia|done|done|].
  eexists _, _.
  rewrite (scale_glyph_ttf_simple glyph) by done. rewrite Hcs1. simpl. rewrite Ha1. simpl.
  split; [reflexivity|].
  rewrite scale_glyph_ttf_simple by done. simpl. rewrite Hcs2. simpl. rewrite Ha2. simpl.
  split; [reflexivity|]. simpl.
  clear Hcs1 Hcs2 Hcs1b.
  revert cs2 R2. induction R1 as [|p q ps qs [[_ Tx] [_ Ty]] _ IH]; intros cs2 R2.
  - inversion R2. constructor.
  - inversion R2 as [|? r ? rs [[_ Tx'] [_ Ty']] Hrest]; subst.
    apply Forall_cons in Hc as [[Bx By] Hc].
    constructor; [|by apply IH].
    split.
    + by destruct (truncation_round_trip s t p.1 q.1 r.1).
    + by destruct (truncation_round_trip s t p.2 q.2 r.2).
Qed.

(** *** The quotient [1.0 / s] *)

Lemma div_eucl_div_mod a b : Z.div_eucl a b = (a / b, a mod b).
Proof. unfold Z.div, Z.modulo. by destruct (Z.div_eucl a b). Qed.

Lemma SFdiv_core_one (ms : positive) (e : Z) :
  Z.pos (digits2_pos ms) = 53 -> -76 <= e <= 0 ->
  SFdiv_core_binary prec emax (Z.pos (2 ^ 52)) (-52) (Z.pos ms) e
  = (2 ^ 105 / Z.pos ms, - 105 - e, new_location (Z.pos ms) (2 ^ 105 mod Z.pos ms)).
Proof.
  intros Hd He. unfold SFdiv_core_binary.
  change (Zdigits2 (Z.pos (2 ^ 52))) with 53.
  change (Zdigits2 (Z.pos ms)) with (Z.pos (digits2_pos ms)). rewrite Hd.
  rewrite fexp_normal by (unfold prec, emax; lia).
  replace (Z.min (53 + -52 - (53 + e) - prec) (-52 - e)) with (- 105 - e) by (unfold prec; lia).
  replace (-52 - e - (- 105 - e)) with 53 by lia.
  change (Z.shiftl (Z.pos (2 ^ 52)) 53) with (2 ^ 105).
  by rewrite div_eucl_div_mod.
Qed.

Lemma near_quotient M T q n :
  0 < M -> q * M <= T < (q + 1) * M -> q - 1 <= n <= q + 2 ->
  Z.abs (M * n - T) <= 2 * M.
Proof.
  intros HM HT Hn.
  assert (M * n <= M * (q + 2)) by (apply Z.mul_le_mono_nonneg_l; lia).
  assert (M * (q - 1) <= M * n) by (apply Z.mul_le_mono_nonneg_l; lia).
  lia.
Qed.

Lemma reciprocal_inverse s :
  positive_normal s -> enlarging s ->
  positive_normal (reciprocal s) /\ inverse_of s (reciprocal s).
Proof.
  destruct s as [| | |[] ms e]; try done. intros [Hd He] [Hlo Hhi].
  cbn [shift significand] in Hlo, Hhi.
  pose proof (digits2_pos_bounds ms) as [Hms1 Hms2]. rewrite Hd in Hms1, Hms2.
  change (2 ^ (53 - 1)) with 4503599627370496 in Hms1.
  change (2 ^ 53) with 9007199254740992 in Hms2.
  assert (He1 : - e < 53).
  { apply (Z.pow_lt_mono_r_iff 2); [lia|lia|].
    change (2 ^ 53) with 9007199254740992. lia. }
  assert (He2 : 29 <= - e).
  { assert (52 < - e + 24); [|lia].
    apply (Z.pow_lt_mono_r_iff 2); [lia|lia|].
    change (2 ^ 52) with 4503599627370496. lia. }
  unfold reciprocal. change one with (S754_finite false (2 ^ 52) (-52)).
  cbn [SFdiv xorb]. rewrite SFdiv_core_one by (done || lia).
  set (q := 2 ^ 105 / Z.pos ms).
  assert (Hq : q * Z.pos ms <= 2 ^ 105 < (q + 1) * Z.pos ms).
  { pose proof (Z.div_mod (2 ^ 105) (Z.pos ms) ltac:(lia)) as Hdm.
    pose proof (Z.mod_pos_bound (2 ^ 105) (Z.pos ms) ltac:(lia)) as Hmod.
    fold q in Hdm. lia. }
  change (2 ^ 105) with 40564819207303340847894502572032 in Hq.
  assert (Hq1 : 4503599627370496 <= q).
  { destruct (Z.le_gt_cases 4503599627370496 q) as [|Hc]; [done|].
    assert ((q + 1) * Z.pos ms <= 4503599627370496 * 9007199254740992)
      by (apply Z.mul_le_mono_nonneg; lia).
    lia. }
  assert (Hq2 : q <= 9007199254740992).
  { destruct (Z.le_gt_cases q 9007199254740992) as [|Hc]; [done|].
    assert (9007199254740993 * 4503599627370496 <= q * Z.pos ms)
      by (apply Z.mul_le_mono_nonneg; lia).
    lia. }
  destruct q as [|qp|qp] eqn:Eq; [lia| |lia].
  set (D := Z.pos (digits2_pos qp)).
  assert (HD : D = 53 \/ D = 54).
  { destruct (Z.eq_dec (Z.pos qp) 9007199254740992) as [Hc|Hc].
    - right. apply digits2_pos_unique. rewrite Hc. done.
    - left. apply digits2_pos_unique.
      change (2 ^ (53 - 1)) with 4503599627370496.
      change (2 ^ 53) with 9007199254740992. lia. }
  destruct (binary_round_aux_bracket false qp (- 105 - e)
              (new_location (Z.pos ms) (40564819207303340847894502572032 mod Z.pos ms)))
    as (m2 & m' & e' & Hr & Hm2 & He' & Hup & Hlow);
    [fold D; unfold prec, emax; lia..|].
  fold D in Hm2, He', Hlow.
  change (2 ^ 105) with 40564819207303340847894502572032. rewrite Hr.
  specialize (Hlow ltac:(unfold prec; lia)).
  change (2 ^ prec) with 9007199254740992 in Hup.
  change (2 ^ (prec - 1)) with 4503599627370496 in Hlow.
  split.
  - split.
    + apply digits2_pos_unique.
      change (2 ^ (53 - 1)) with 4503599627370496.
      change (2 ^ 53) with 9007199254740992. lia.
    + unfold prec in *. lia.
  - unfold inverse_of. cbn [shift significand].
    set (M := Z.pos ms) in *. set (N := Z.pos m') in *.
    (* [2 ^ (- e' - (105 + e)) * N] is within two units of [2 ^ 105 / M] *)
    assert (Hk : exists k, 0 <= k <= 2 /\ - e' = 105 + e - k /\
                   Z.pos qp - 1 <= 2 ^ k * N <= Z.pos qp + 2).
    { destruct HD as [HD|HD]; rewrite HD in *; unfold prec in *.
      - change (Z.max 0 (53 - 53)) with 0 in *. rewrite Z.div_1_r in Hm2.
        destruct He' as [[-> HN]|[-> HN]].
        + exists 0. split; [lia|]. split; [lia|]. rewrite Z.pow_0_r. lia.
        + exists 1. split; [lia|]. split; [lia|]. change (2 ^ 1) with 2. lia.
      - pose proof (Z.div_mod (Z.pos qp) 2 ltac:(lia)) as Hdm.
        pose proof (Z.mod_pos_bound (Z.pos qp) 2 ltac:(lia)) as Hmod.
        change (Z.max 0 (54 - 53)) with 1 in *. change (2 ^ 1) with 2 in Hm2.
        destruct He' as [[-> HN]|[-> HN]].
        + exists 1. split; [lia|]. split; [lia|]. change (2 ^ 1) with 2. lia.
        + exists 2. split; [lia|]. split; [lia|]. change (2 ^ 2) with 4. lia. }
    destruct Hk as (k & Hk & He'k & Hnear).
    assert (Hclose : Z.abs (M * (2 ^ k * N) - 40564819207303340847894502572032) <= 2 * M)
      by (apply (near_quotient M _ (Z.pos qp)); [done|lia|done]).
    replace (- e + - e') with (105 - k) by lia.
    assert (H105 : 40564819207303340847894502572032 = 2 ^ k * 2 ^ (105 - k)).
    { rewrite <- Z.pow_add_r by lia. replace (k + (105 - k)) with 105 by lia. done. }
    set (P := 2 ^ (105 - k)) in *. set (K := 2 ^ k) in *.
    assert (HK : 1 <= K <= 4).
    { unfold K. assert (k = 0 \/ k = 1 \/ k = 2) as [-> | [-> | ->]] by lia; simpl; lia. }
    assert (HMN : 4503599627370496 * M <= M * N).
    { rewrite (Z.mul_comm M N). apply Z.mul_le_mono_nonneg_r; lia. }
    change (2 ^ 50) with 1125899906842624.
    assert (Habs : K * Z.abs (M * N - P) <= 2 * M).
    { rewrite <- (Z.abs_eq K) by lia. rewrite <- Z.abs_mul.
      replace (K * (M * N - P)) with (M * (K * N) - K * P) by ring.
      rewrite <- H105. done. }
    assert (Hd1 : Z.abs (M * N - P) <= 2 * M).
    { assert (1 * Z.abs (M * N - P) <= K * Z.abs (M * N - P))
        by (apply Z.mul_le_mono_nonneg_r; lia).
      lia. }
    assert (4503599627370494 * M <= P) by lia.
    lia.
Qed.

(** C7 (amended).  For a scale factor [s] between [1] and [2^24], a positive
    normal double, and a simple glyph whose numbers are below [2^24] in
    magnitude: scaling the glyph by [s] and the result by [1.0 / s] returns
    both times, and every coordinate comes back within one unit of the
    original. *)
Theorem scale_glyph_ttf_round_trip glyph glyf_table glyf_table' s :
  positive_normal s -> enlarging s ->
  0 < numberOfContours glyph -> glyph_below 24 glyph -> bbox_complete glyph ->
  exists glyph1 glyph2,
    scale_glyph_ttf glyph glyf_table s = Ok glyph1 /\
    scale_glyph_ttf glyph1 glyf_table' (reciprocal s) = Ok glyph2 /\
    Forall2 within_one (coordinates glyph) (coordinates glyph2).
Proof.
  intros Hs Hen Hpos Hg Hb.
  destruct (reciprocal_inverse s Hs Hen) as [Ht Hinv].
  by apply scale_glyph_ttf_there_and_back.
Qed.

End RoundTrip.

(** C7 (as stated) fails for a factor below one: the point [(7, 7)] scaled by
    [0.25] is [(1, 1)], which scaled by [1 / 0.25 = 4.0] is [(4, 4)], three
    units away. *)
Lemma scale_glyph_ttf_round_trip_fails :
  ~ (forall glyph1 glyph2,
       scale_glyph_ttf glyph_seven [] a_quarter = Ok glyph1 ->
       scale_glyph_ttf glyph1 [] (reciprocal a_quarter) = Ok glyph2 ->
       Forall2 within_one (coordinates glyph_seven) (coordinates glyph2)).
Proof.
  intros H.
  assert (Hc : (glyph1 ← scale_glyph_ttf glyph_seven [] a_quarter;
                glyph2 ← scale_glyph_ttf glyph1 [] (reciprocal a_quarter);
                Ok (coordinates glyph2)) = Ok [(4, 4)]) by (vm_compute; reflexivity).
  apply bind_Ok in Hc as (glyph1 & H1 & Hc). apply bind_Ok in Hc as (glyph2 & H2 & [= Hc]).
  specialize (H glyph1 glyph2 H1 H2). rewrite Hc in H.
  apply Forall2_cons_1 in H as [[H _] _]. simpl in H. lia.
Qed.

Lemma scale_glyph_ttf_round_trip_witness :
  exists glyph1 glyph2,
    scale_glyph_ttf glyph_A glyf_AB default_scale = Ok glyph1 /\
    scale_glyph_ttf glyph1 glyf_AB (reciprocal default_scale) = Ok glyph2 /\
    Forall2 within_one (coordinates glyph_A) (coordinates glyph2).
Proof.
  apply scale_glyph_ttf_round_trip.
  - vm_compute. split; [reflexivity|]. split; discriminate.
  - vm_compute. split; [discriminate|reflexivity].
  - reflexivity.
  - split; [|split; [constructor|]].
    + repeat constructor; by vm_compute.
    + intros a v Hv. simpl in Hv.
      repeat (apply lookup_insert_Some in Hv as [[_ <-]|[_ Hv]]; [by vm_compute|]).
      apply lookup_singleton_Some in Hv as [_ <-]. by vm_compute.
  - intros _ a Hin. unfold bbox_fields in Hin.
    repeat (apply elem_of_cons in Hin as [->|Hin]; [vm_compute; by eexists|]).
    by apply elem_of_nil in Hin.
Defined.

(** * Further properties of the script *)

(** ** Order, sign and size of scaled numbers *)

Section ScaledNumbers.

Implicit Types (s : spec_float) (x y z n : Z).

Lemma truncation_of_le s x y zx zy :
  positive_normal s -> factor_below 24 s -> int_below 24 x -> int_below 24 y ->
  0 <= x < y -> truncation_of s x zx -> truncation_of s y zy -> zx <= zy.
Proof.
  intros (HM & Ha & _)%positive_normal_inv.
  unfold factor_below, int_below, truncation_of.
  set (M := significand s) in *. set (a := shift s) in *.
  rewrite (Z.pow_add_r 2 a 24), (Z.pow_add_r 2 53 a) by lia.
  set (A := 2 ^ a).
  assert (HA : 0 < A) by (apply Z.pow_pos_nonneg; lia).
  change (2 ^ 52) with 4503599627370496. change (2 ^ 53) with 9007199254740992.
  change (2 ^ 24) with 16777216.
  intros HMA Hx Hy Hxy (Hsx & Ux & _) (Hsy & _ & Ly).
  rewrite (Z.abs_eq x) in * by lia. rewrite (Z.abs_eq y) in * by lia.
  assert (HyM : y * M < 9007199254740992 * A).
  { assert (y * M <= 16777215 * (A * 16777216)) by (apply Z.mul_le_mono_nonneg; lia). lia. }
  specialize (Ly HyM).
  assert (Hzy : 0 <= zy).
  { rewrite Hsy, Z.sgn_pos by lia. pose proof (Z.abs_nonneg zy). lia. }
  destruct (Z.eq_dec x 0) as [->|Hx0].
  { rewrite Hsx. simpl. lia. }
  rewrite Hsx, Z.sgn_pos, Z.mul_1_l by lia.
  transitivity (Z.abs zy); [|rewrite Z.abs_eq; lia].
  apply Ly.
  (* [|zx| * A <= x * M * (1 + 2^-52) <= (x + 1) * M <= y * M] *)
  assert (H1 : (x + 1) * M <= y * M) by (apply Z.mul_le_mono_nonneg_r; lia).
  assert (H2 : x * M <= 4503599627370496 * M) by (apply Z.mul_le_mono_nonneg_r; lia).
  assert (H3 : Z.abs zx * A * 4503599627370496 <= y * M * 4503599627370496) by lia.
  apply Z.mul_le_mono_pos_r in H3; lia.
Qed.

Lemma scale_int_le s x y zx zy :
  positive_normal s -> factor_below 24 s -> int_below 24 x -> int_below 24 y ->
  x <= y -> scale_int s x = Ok zx -> scale_int s y = Ok zy -> zx <= zy.
Proof.
  intros Hs Hf Hx Hy Hxy Hzx Hzy.
  destruct (Z.eq_dec x y) as [->|Hne]; [assert (zx = zy) by congruence; lia|].
  destruct (scale_int_truncates s x Hs) as (zx' & Hzx' & Tx).
  { apply (int_below_mono 24 53); [lia|lia|done]. }
  destruct (scale_int_truncates s y Hs) as (zy' & Hzy' & Ty).
  { apply (int_below_mono 24 53); [lia|lia|done]. }
  assert (zx' = zx) by congruence. assert (zy' = zy) by congruence. subst zx' zy'.
  destruct (Z.le_gt_cases 0 x) as [Hx0|Hx0].
  - apply (truncation_of_le s x y); try done. lia.
  - destruct (Z.le_gt_cases y 0) as [Hy0|Hy0].
    + (* both negative: compare the opposites *)
      destruct (scale_int_truncates s (- x) Hs) as (nx & Hnx & Tnx).
      { unfold int_below in *. rewrite Z.abs_opp.
        assert (2 ^ 24 <= 2 ^ 53) by (apply Z.pow_le_mono_r; lia). lia. }
      destruct (scale_int_truncates s (- y) Hs) as (ny & Hny & Tny).
      { unfold int_below in *. rewrite Z.abs_opp.
        assert (2 ^ 24 <= 2 ^ 53) by (apply Z.pow_le_mono_r; lia). lia. }
      rewrite scale_int_opp, Hzx in Hnx. rewrite scale_int_opp, Hzy in Hny.
      injection Hnx as <-. injection Hny as <-.
      assert (- zy <= - zx); [|lia].
      apply (truncation_of_le s (- y) (- x)); try done.
      * unfold int_below in *. by rewrite Z.abs_opp.
      * unfold int_below in *. by rewrite Z.abs_opp.
      * lia.
    + (* [x < 0 < y] *)
      destruct Tx as (Hsx & _). destruct Ty as (Hsy & _).
      rewrite Hsx, Hsy, Z.sgn_neg, Z.sgn_pos by lia.
      pose proof (Z.abs_nonneg zx). pose proof (Z.abs_nonneg zy). lia.
Qed.

(** X1.  Scaling keeps the order of numbers: for a positive factor below
    [2^24] and numbers below [2^24] in magnitude, [x <= y] gives
    [int(x * s) <= int(y * s)]. *)
Theorem scale_int_monotone s x y zx zy :
  positive_normal s -> factor_below 24 s -> int_below 24 x -> int_below 24 y ->
  x <= y -> scale_int s x = Ok zx -> scale_int s y = Ok zy -> zx <= zy.
Proof. apply scale_int_le. Qed.

Lemma scale_int_monotone_witness :
  scale_int default_scale (-7) = Ok (-7) /\ scale_int default_scale 12 = Ok 12 /\ -7 <= 12.
Proof.
  split; [by vm_compute|]. split; [by vm_compute|].
  apply (scale_int_monotone default_scale (-7) 12 (-7) 12).
  - vm_compute. split; [reflexivity|]. split; discriminate.
  - by vm_compute.
  - by vm_compute.
  - by vm_compute.
  - lia.
  - by vm_compute.
  - by vm_compute.
Defined.

(** X2.  A factor of at least [1] never moves a number toward zero: the
    result has the sign of the number and at least its magnitude. *)
Theorem scale_int_enlarging s x z :
  positive_normal s -> enlarging s -> int_below 24 x -> scale_int s x = Ok z ->
  Z.abs x <= Z.abs z /\ z = Z.sgn x * Z.abs z.
Proof.
  intros Hs Hen Hx Hz.
  destruct (scale_int_truncates s x Hs) as (z' & Hz' & Tz).
  { apply (int_below_mono 24 53); [lia|lia|done]. }
  assert (z' = z) by congruence. subst z'.
  apply positive_normal_inv in Hs as (HM & Ha & _).
  unfold enlarging, int_below, truncation_of in *.
  set (M := significand s) in *. set (a := shift s) in *.
  rewrite (Z.pow_add_r 2 a 24) in Hen by lia. rewrite (Z.pow_add_r 2 53 a) in Tz by lia.
  set (A := 2 ^ a) in *.
  change (2 ^ 53) with 9007199254740992 in Tz. change (2 ^ 24) with 16777216 in *.
  destruct Tz as (Hsz & _ & L). split; [|done].
  pose proof (Z.abs_nonneg x).
  apply L.
  - assert (Z.abs x * M <= 16777215 * (A * 16777216)) by (apply Z.mul_le_mono_nonneg; lia).
    lia.
  - apply Z.mul_le_mono_nonneg_l; lia.
Qed.

Lemma scale_int_enlarging_witness :
  scale_int default_scale (-100) = Ok (-108) /\
  Z.abs (-100) <= Z.abs (-108) /\ -108 = Z.sgn (-100) * Z.abs (-108).
Proof.
  split; [by vm_compute|].
  apply (scale_int_enlarging default_scale).
  - vm_compute. split; [reflexivity|]. split; discriminate.
  - vm_compute. split; [discriminate|reflexivity].
  - by vm_compute.
  - by vm_compute.
Defined.

(** X3.  A positive factor of at most [1] never moves a number away from
    zero. *)
Theorem scale_int_shrinking s x z :
  positive_normal s -> shrinking s -> int_below 52 x -> scale_int s x = Ok z ->
  Z.abs z <= Z.abs x /\ z = Z.sgn x * Z.abs z.
Proof.
  intros Hs Hsh Hx Hz.
  destruct (scale_int_truncates s x Hs) as (z' & Hz' & Tz).
  { apply (int_below_mono 52 53); [lia|lia|done]. }
  assert (z' = z) by congruence. subst z'.
  apply positive_normal_inv in Hs as (HM & Ha & _).
  unfold shrinking, int_below, truncation_of in *.
  set (M := significand s) in *. set (a := shift s) in *.
  set (A := 2 ^ a) in *.
  assert (HA : 0 < A) by (apply Z.pow_pos_nonneg; lia).
  change (2 ^ 52) with 4503599627370496 in *.
  destruct Tz as (Hsz & U & _). split; [|done].
  pose proof (Z.abs_nonneg x). pose proof (Z.abs_nonneg z).
  set (X := Z.abs x) in *. set (W := Z.abs z) in *.
  assert (H1 : X * M * 4503599627370497 <= X * A * 4503599627370497).
  { apply Z.mul_le_mono_nonneg_r; [lia|]. apply Z.mul_le_mono_nonneg_l; lia. }
  assert (H2 : W * 4503599627370496 * A <= X * 4503599627370497 * A) by lia.
  apply Z.mul_le_mono_pos_r in H2; lia.
Qed.

Lemma scale_int_shrinking_witness :
  scale_int a_quarter 7 = Ok 1 /\ Z.abs 1 <= Z.abs 7 /\ 1 = Z.sgn 7 * Z.abs 1.
Proof.
  split; [by vm_compute|].
  apply (scale_int_shrinking a_quarter).
  - vm_compute. split; [reflexivity|]. split; discriminate.
  - vm_compute. discriminate.
  - by vm_compute.
  - by vm_compute.
Defined.

(** X4.  An integer factor is exact: [int(x * n) = x * n] as long as the
    product stays below [2^52]. *)
Theorem scale_int_integer_factor s n x :
  positive_normal s -> integer_factor n s -> Z.abs (x * n) < 2 ^ 52 ->
  scale_int s x = Ok (x * n).
Proof.
  intros Hs Hn Hxn.
  pose proof Hs as (HM & Ha & _)%positive_normal_inv.
  unfold integer_factor in Hn.
  set (M := significand s) in *. set (a := shift s) in *.
  set (A := 2 ^ a) in *.
  assert (HA : 0 < A) by (apply Z.pow_pos_nonneg; lia).
  assert (Hn1 : 1 <= n) by nia.
  rewrite Z.abs_mul, (Z.abs_eq n) in Hxn by lia.
  change (2 ^ 52) with 4503599627370496 in Hxn.
  pose proof (Z.abs_nonneg x) as HX.
  assert (HXn : Z.abs x <= Z.abs x * n).
  { rewrite <- (Z.mul_1_r (Z.abs x)) at 1. apply Z.mul_le_mono_nonneg_l; lia. }
  destruct (scale_int_truncates s x Hs) as (z & Hz & Hsz & U & L).
  { unfold int_below. change (2 ^ 53) with 9007199254740992. lia. }
  rewrite Hz. f_equal.
  fold M a A in U, L. rewrite (Z.pow_add_r 2 53 a) in L by lia. fold A in L.
  change (2 ^ 52) with 4503599627370496 in U. change (2 ^ 53) with 9007199254740992 in L.
  set (X := Z.abs x) in *. set (W := Z.abs z) in *.
  assert (HXM : X * M = X * n * A) by (rewrite Hn; ring).
  assert (Hlow : X * n <= W).
  { apply L.
    - rewrite HXM. apply Z.mul_lt_mono_pos_r; lia.
    - rewrite HXM. lia. }
  assert (Hup : W <= X * n).
  { rewrite HXM in U.
    assert (H2 : W * 4503599627370496 * A <= X * n * 4503599627370497 * A) by lia.
    apply Z.mul_le_mono_pos_r in H2; lia. }
  rewrite Hsz. replace W with (X * n) by lia. unfold X.
  rewrite Z.mul_assoc, Z.mul_comm with (n := Z.sgn x), Z.abs_sgn. reflexivity.
Qed.

Lemma scale_int_integer_factor_witness : scale_int two (-21) = Ok (-21 * 2).
Proof.
  apply scale_int_integer_factor.
  - vm_compute. split; [reflexivity|]. split; discriminate.
  - by vm_compute.
  - by vm_compute.
Defined.

End ScaledNumbers.

(** ** Reflection through the origin *)

Section Mirror.

Implicit Types (s : spec_float) (o : obj).

Lemma hasattr_mirror o a : hasattr (mirror_obj o) a = hasattr o a.
Proof. unfold hasattr, mirror_obj. rewrite lookup_fmap. by destruct (o !! a). Qed.

Lemma scale_attr_mirror s o a :
  scale_attr s (mirror_obj o) a = mirror_obj <$> scale_attr s o a.
Proof.
  unfold scale_attr, getattr, mirror_obj. rewrite lookup_fmap.
  destruct (o !! a) as [v|]; simpl; [|done].
  rewrite scale_int_opp. destruct (scale_int s v) as [v'|e]; simpl; [|done].
  by rewrite fmap_insert.
Qed.

Lemma scale_attr_if_present_mirror s o a :
  scale_attr_if_present s (mirror_obj o) a = mirror_obj <$> scale_attr_if_present s o a.
Proof.
  unfold scale_attr_if_present. rewrite hasattr_mirror.
  destruct (hasattr o a); [apply scale_attr_mirror|done].
Qed.

Lemma for_each_mirror (step : obj -> string -> result obj) fields :
  (forall o a, step (mirror_obj o) a = mirror_obj <$> step o a) ->
  forall o, for_each step fields (mirror_obj o) = mirror_obj <$> for_each step fields o.
Proof.
  intros Hstep. induction fields as [|a fields IH]; intros o; simpl; [done|].
  rewrite Hstep. destruct (step o a) as [o'|e]; simpl; [apply IH|done].
Qed.

Lemma traverse_fmap {A B} (f : A -> result B) (g : A -> A) (h : B -> B) (l : list A) :
  (forall x, f (g x) = h <$> f x) -> traverse f (g <$> l) = fmap (M := list) h <$> traverse f l.
Proof.
  intros Hf. induction l as [|x l IH]; [done|].
  rewrite fmap_cons. cbn [traverse]. rewrite Hf, IH.
  destruct (f x) as [y|e]; simpl; [|done].
  by destruct (traverse f l).
Qed.

Lemma scale_point_mirror s p :
  scale_point s (mirror_point p) = mirror_point <$> scale_point s p.
Proof.
  unfold scale_point, mirror_point. simpl. rewrite !scale_int_opp.
  destruct (scale_int s p.1) as [x|e]; simpl; [|done].
  by destruct (scale_int s p.2).
Qed.

Lemma scale_component_mirror s c :
  scale_component s (mirror_component c) = mirror_component <$> scale_component s c.
Proof.
  unfold scale_component, mirror_component. cbn [component_attrs glyphName].
  rewrite (for_each_mirror _ _ (scale_attr_if_present_mirror s)).
  by destruct (for_each (scale_attr_if_present s) offset_fields (component_attrs c)).
Qed.

(** X5.  Scaling commutes with the reflection through the origin, for every
    glyph and every factor: [int()] truncates toward zero on both sides. *)
Theorem scale_glyph_ttf_mirror glyph glyf_table glyf_table' s :
  scale_glyph_ttf (mirror glyph) glyf_table s
  = mirror <$> scale_glyph_ttf glyph glyf_table' s.
Proof.
  unfold scale_glyph_ttf, isComposite. cbn [mirror numberOfContours components coordinates glyph_attrs].
  destruct (numberOfContours glyph =? -1) eqn:Hc.
  - rewrite (traverse_fmap _ _ _ _ (scale_component_mirror s)).
    destruct (traverse (scale_component s) (components glyph)) as [cs|e]; simpl; [|done].
    rewrite hasattr_mirror.
    destruct (hasattr (glyph_attrs glyph) "xMin" && negb (numberOfContours glyph =? 0)); [|done].
    unfold scale_attrs. rewrite (for_each_mirror _ _ (scale_attr_mirror s)).
    by destruct (for_each (scale_attr s) bbox_fields (glyph_attrs glyph)).
  - destruct (0 <? numberOfContours glyph) eqn:Hp.
    + rewrite (traverse_fmap _ _ _ _ (scale_point_mirror s)).
      destruct (traverse (scale_point s) (coordinates glyph)) as [cs|e]; simpl; [|done].
      rewrite hasattr_mirror.
      destruct (hasattr (glyph_attrs glyph) "xMin" && negb (numberOfContours glyph =? 0)); [|done].
      unfold scale_attrs. rewrite (for_each_mirror _ _ (scale_attr_mirror s)).
      by destruct (for_each (scale_attr s) bbox_fields (glyph_attrs glyph)).
    + simpl. rewrite hasattr_mirror.
      destruct (hasattr (glyph_attrs glyph) "xMin" && negb (numberOfContours glyph =? 0)); [|done].
      unfold scale_attrs. rewrite (for_each_mirror _ _ (scale_attr_mirror s)).
      by destruct (for_each (scale_attr s) bbox_fields (glyph_attrs glyph)).
Qed.

End Mirror.

(** ** Tables, entry by entry *)

Section DictionaryLoops.

Context `{EqDecision K} {V : Type}.

Implicit Types (d : dict K V) (k : K) (v : V).

(** A loop over [list(d.items())] that stores a new value under each key. *)
Lemma for_each_items (f : V -> result V) (body : dict K V -> K * V -> result (dict K V)) :
  (forall d k v, body d (k, v) = (v' ← f v; Ok (dict_set k v' d))) ->
  forall rest pre d',
    NoDup (dict_keys (pre ++ rest)) ->
    for_each body rest (pre ++ rest) = Ok d' ->
    exists rest', d' = pre ++ rest' /\
      Forall2 (fun e e' => e'.1 = e.1 /\ f e.2 = Ok e'.2) rest rest'.
Proof.
  intros Hbody. induction rest as [|[k v] rest IH]; intros pre d' Hnd; simpl.
  - intros [= <-]. exists []. split; [done|constructor].
  - assert (Hk : k ∉ dict_keys pre).
    { unfold dict_keys in *. rewrite fmap_app in Hnd. apply NoDup_app in Hnd as (_ & Hnd & _).
      intros Hin. apply (Hnd k Hin). simpl. by left. }
    rewrite Hbody.
    destruct (f v) as [v'|] eqn:Hv; [|done]. simpl.
    rewrite dict_set_app_r by done. simpl.
    destruct (decide (k = k)); [|done].
    replace (pre ++ (k, v') :: rest) with ((pre ++ [(k, v')]) ++ rest) by (by rewrite <- app_assoc).
    intros Hrest. apply IH in Hrest as (rest' & -> & Hrest').
    + exists ((k, v') :: rest'). split; [by rewrite <- app_assoc|]. by constructor.
    + unfold dict_keys in *. rewrite !fmap_app in *. simpl in *.
      by rewrite <- app_assoc.
Qed.

(** A loop over the keys whose body reads the dictionary as it is at that
    moment: the entry at position [j] is computed from the new entries before
    it and the old entries from it on. *)
Lemma for_each_live show (f : dict K V -> V -> result V)
    (body : dict K V -> K -> result (dict K V)) :
  (forall d k, body d k = (v ← dict_get show d k; v' ← f d v; Ok (dict_set k v' d))) ->
  forall rest pre d',
    NoDup (dict_keys (pre ++ rest)) ->
    for_each body (dict_keys rest) (pre ++ rest) = Ok d' ->
    exists rest', d' = pre ++ rest' /\ length rest' = length rest /\
      forall j k v, rest !! j = Some (k, v) ->
        exists v', rest' !! j = Some (k, v') /\
          f (pre ++ take j rest' ++ drop j rest) v = Ok v'.
Proof.
  intros Hbody. induction rest as [|[k v] rest IH]; intros pre d' Hnd; simpl.
  - intros [= <-]. exists []. split; [done|]. split; [done|]. intros j k v Hj. done.
  - assert (Hk : k ∉ dict_keys pre).
    { unfold dict_keys in *. rewrite fmap_app in Hnd. apply NoDup_app in Hnd as (_ & Hnd & _).
      intros Hin. apply (Hnd k Hin). simpl. by left. }
    rewrite Hbody, dict_get_app_r by done. simpl.
    destruct (decide (k = k)); [|done]. simpl.
    destruct (f (pre ++ (k, v) :: rest) v) as [v'|] eqn:Hv; [|done]. simpl.
    rewrite dict_set_app_r by done. simpl.
    destruct (decide (k = k)); [|done].
    replace (pre ++ (k, v') :: rest) with ((pre ++ [(k, v')]) ++ rest) by (by rewrite <- app_assoc).
    intros Hrest. apply IH in Hrest as (rest' & -> & Hlen & Hrest').
    + exists ((k, v') :: rest'). split; [by rewrite <- app_assoc|].
      split; [simpl; by rewrite Hlen|].
      intros [|j] k0 v0 Hj; simpl in *.
      * injection Hj as <- <-. exists v'. split; [done|]. exact Hv.
      * destruct (Hrest' j k0 v0 Hj) as (v0' & Hj' & Hf). exists v0'. split; [done|].
        by rewrite <- app_assoc in Hf.
    + unfold dict_keys in *. rewrite !fmap_app in *. simpl in *.
      by rewrite <- app_assoc.
Qed.

(** Such a loop returns when its body does. *)
Lemma for_each_live_is_Ok show (f : dict K V -> V -> result V)
    (body : dict K V -> K -> result (dict K V)) (P : V -> Prop) :
  (forall d k, body d k = (v ← dict_get show d k; v' ← f d v; Ok (dict_set k v' d))) ->
  (forall d v, P v -> is_Ok (f d v)) ->
  forall rest pre,
    NoDup (dict_keys (pre ++ rest)) -> Forall (fun e => P e.2) rest ->
    is_Ok (for_each body (dict_keys rest) (pre ++ rest)).
Proof.
  intros Hbody Hf. induction rest as [|[k v] rest IH]; intros pre Hnd HP; simpl.
  - by eexists.
  - assert (Hk : k ∉ dict_keys pre).
    { unfold dict_keys in *. rewrite fmap_app in Hnd. apply NoDup_app in Hnd as (_ & Hnd & _).
      intros Hin. apply (Hnd k Hin). simpl. by left. }
    apply Forall_cons in HP as [Hv HP].
    rewrite Hbody, dict_get_app_r by done. simpl.
    destruct (decide (k = k)); [|done]. simpl.
    destruct (Hf (pre ++ (k, v) :: rest) v Hv) as [v' Hv']. rewrite Hv'. simpl.
    rewrite dict_set_app_r by done. simpl.
    destruct (decide (k = k)); [|done].
    replace (pre ++ (k, v') :: rest) with ((pre ++ [(k, v')]) ++ rest) by (by rewrite <- app_assoc).
    apply IH; [|done].
    unfold dict_keys in *. rewrite !fmap_app in *. simpl in *.
    by rewrite <- app_assoc.
Qed.

End DictionaryLoops.

Section Tables.

Context {CharString : Type}.
Variable draw_scaled : spec_float -> dict string CharString -> CharString -> result CharString.

Implicit Types (font : @Font CharString) (s : spec_float) (o : obj).

(** The body of the loop over [glyf], with the guard on empty glyphs moved
    into the function applied to the glyph. *)
Lemma scale_glyf_body s (d : dict string Glyph) k :
  (glyph ← dict_get id d k;
   if negb (numberOfContours glyph =? 0)
   then glyph' ← scale_glyph_ttf glyph d s; Ok (dict_set k glyph' d)
   else Ok d)
  = (v ← dict_get id d k;
     v' ← (fun glyph => if numberOfContours glyph =? 0 then Ok glyph
                        else scale_glyph_ttf glyph [] s) v;
     Ok (dict_set k v' d)).
Proof.
  destruct (dict_get id d k) as [glyph|] eqn:Hg; [|done]. simpl.
  destruct (numberOfContours glyph =? 0); simpl; [|done].
  by erewrite dict_set_same.
Qed.

(** X6.  The loop over [glyf] keeps the glyph names and their order, leaves
    every empty glyph as it is and replaces every other glyph by its scaled
    version. *)
Theorem scale_glyf_pointwise (g g' : dict string Glyph) s :
  NoDup (dict_keys g) -> scale_glyf g s = Ok g' -> Forall2 (scaled_glyph_entry s) g g'.
Proof.
  intros Hnd H. unfold scale_glyf in H.
  destruct (for_each_dict id _ _ (scale_glyf_body s) g [] g' Hnd H) as (g1 & -> & H1).
  simpl. eapply Forall2_impl; [exact H1|].
  intros [k glyph] [k' glyph'] [Hk Hv]. split; [done|]. simpl in *.
  destruct (numberOfContours glyph =? 0); [congruence|]. intros glyf_table. exact Hv.
Qed.

Lemma scale_glyf_pointwise_witness :
  scale_glyf [("space"%string, glyph_empty); ("A"%string, unit_glyph)] two
  = Ok [("space"%string, glyph_empty);
        ("A"%string,
         {| numberOfContours := 1; components := []; coordinates := [(2, 2)];
            glyph_attrs := {[ "xMin" := 2; "yMin" := 2; "xMax" := 2; "yMax" := 2 ]} |})] /\
  Forall2 (scaled_glyph_entry two)
    [("space"%string, glyph_empty); ("A"%string, unit_glyph)]
    [("space"%string, glyph_empty);
     ("A"%string,
      {| numberOfContours := 1; components := []; coordinates := [(2, 2)];
         glyph_attrs := {[ "xMin" := 2; "yMin" := 2; "xMax" := 2; "yMax" := 2 ]} |})].
Proof.
  assert (H : scale_glyf [("space"%string, glyph_empty); ("A"%string, unit_glyph)] two
              = Ok [("space"%string, glyph_empty);
                    ("A"%string,
                     {| numberOfContours := 1; components := []; coordinates := [(2, 2)];
                        glyph_attrs := {[ "xMin" := 2; "yMin" := 2; "xMax" := 2; "yMax" := 2 ]} |})])
    by (vm_compute; reflexivity).
  split; [exact H|].
  apply (scale_glyf_pointwise _ _ two); [|exact H].
  compute_done.
Defined.

(** X7.  Every value of a kerning subtable is replaced by its scaled value
    under the same glyph pair, in the same order; a subtable without a
    [kernTable] is left alone. *)
Theorem scale_kern_subtable_values s (t t' : KernSubtable) :
  from_option (fun kt => NoDup (dict_keys kt)) True (kernTable t) ->
  scale_kern_subtable s t = Ok t' ->
  option_Forall2 (Forall2 (scaled_kern_entry s)) (kernTable t) (kernTable t').
Proof.
  intros Hnd (kt & Hkt & [= <-])%bind_Ok. simpl.
  apply if_present_inv in Hkt. destruct Hkt as [d d' Hd|]; constructor.
  simpl in Hnd.
  destruct (for_each_items (scale_int s)
              (fun (kernTable : dict (string * string) Z) '(glyph_pair, value) =>
                 v ← scale_int s value; Ok (dict_set glyph_pair v kernTable))
              (fun _ _ _ => eq_refl) d [] d' Hnd Hd) as (d1 & -> & H1).
  exact H1.
Qed.

Lemma scale_kern_subtable_values_witness :
  scale_kern_subtable default_scale
    {| kernTable := Some [(("A", "V"), -80); (("T", "o"), -55)]%string |}
  = Ok {| kernTable := Some [(("A", "V"), -86); (("T", "o"), -59)]%string |} /\
  option_Forall2 (Forall2 (scaled_kern_entry default_scale))
    (Some [(("A", "V"), -80); (("T", "o"), -55)]%string)
    (Some [(("A", "V"), -86); (("T", "o"), -59)]%string).
Proof.
  assert (H : scale_kern_subtable default_scale
                {| kernTable := Some [(("A", "V"), -80); (("T", "o"), -55)]%string |}
              = Ok {| kernTable := Some [(("A", "V"), -86); (("T", "o"), -59)]%string |})
    by (vm_compute; reflexivity).
  split; [exact H|].
  apply (scale_kern_subtable_values default_scale _ _) in H; [exact H|simpl; compute_done].
Defined.

(** X8.  [scale_cff_glyphs] on a font with a CFF table returns [True], keeps
    the names of the table and the glyph names in their order, and redraws
    each charstring against the glyph set as it is at that moment: the
    charstrings before it already replaced, the others still the old ones. *)
Theorem scale_cff_glyphs_live (c : CFFTable) s r :
  NoDup (dict_keys (CharStrings c)) ->
  scale_cff_glyphs draw_scaled (Some c) s = Ok r ->
  exists char_strings,
    r = (Some {| fontNames := fontNames c; FamilyName := FamilyName c;
                 FullName := FullName c; CharStrings := char_strings |}, true) /\
    length char_strings = length (CharStrings c) /\
    forall j glyph_name cs, CharStrings c !! j = Some (glyph_name, cs) ->
      exists new_cs, char_strings !! j = Some (glyph_name, new_cs) /\
        draw_scaled s (take j char_strings ++ drop j (CharStrings c)) cs = Ok new_cs.
Proof.
  intros Hnd H. unfold scale_cff_glyphs in H.
  apply bind_Ok in H as (char_strings & Hloop & [= <-]).
  destruct (for_each_live id (draw_scaled s) _ (fun _ _ => eq_refl)
              (CharStrings c) [] char_strings Hnd Hloop) as (new & -> & Hlen & Hnew).
  exists new. split; [done|]. split; [done|]. exact Hnew.
Qed.

(** X9.  A value record whose fields are all absent or zero is returned
    unchanged, whatever the factor: the guard [and value_record.X] skips
    them, so not even a NaN factor raises. *)
Theorem scale_value_record_all_zero o s :
  all_zero o -> scale_value_record o s = Ok o.
Proof.
  intros Hz. unfold scale_value_record.
  apply (for_each_attr_id _ (fun v => v = None \/ v = Some 0)); [|exact Hz].
  intros o' a [Ha|Ha]; unfold scale_attr_if_truthy; by rewrite Ha.
Qed.

Lemma scale_value_record_all_zero_witness :
  scale_value_record {[ "XAdvance" := 0; "Format" := 4 ]} S754_nan
  = Ok {[ "XAdvance" := 0; "Format" := 4 ]}.
Proof.
  apply scale_value_record_all_zero.
  intros a Hin. unfold value_fields in Hin.
  repeat (apply elem_of_cons in Hin as [->|Hin]; [by vm_compute; auto|]).
  by apply elem_of_nil in Hin.
Defined.

(** *** Fonts the script can and cannot process *)

Lemma scale_glyph_ttf_is_Ok (glyph : Glyph) glyf_table s :
  positive_normal s -> glyph_below 53 glyph -> bbox_complete glyph ->
  is_Ok (scale_glyph_ttf glyph glyf_table s).
Proof.
  intros Hs (Hc & Hk & Ha) Hb.
  destruct (traverse_is_Ok (scale_point s) (coordinates glyph)) as [cs Hcs].
  { eapply Forall_impl; [exact Hc|]. intros p [H1 H2].
    destruct (scale_point_scaled s p Hs H1 H2) as (p' & Hp & _). by exists p'. }
  destruct (traverse_is_Ok (scale_component s) (components glyph)) as [ks Hks].
  { eapply Forall_impl; [exact Hk|]. intros c Hr.
    destruct (scale_component_scaled s c Hs Hr) as (c' & Hc' & _). by exists c'. }
  assert (Hbox : hasattr (glyph_attrs glyph) "xMin" = true ->
                 is_Ok (scale_attrs s bbox_fields (glyph_attrs glyph))).
  { intros Hx. apply scale_attrs_is_Ok; [apply NoDup_bbox_fields|].
    intros a Hin. destruct (Hb Hx a Hin) as [v Hv]. exists v. split; [done|].
    apply scale_int_is_Ok; [done|]. by eapply Ha. }
  unfold scale_glyph_ttf, isComposite.
  destruct (numberOfContours glyph =? -1);
    [rewrite Hks|destruct (0 <? numberOfContours glyph); [rewrite Hcs|]]; simpl;
    (destruct (hasattr (glyph_attrs glyph) "xMin") eqn:Hx; simpl; [|by eexists];
     destruct (Hbox eq_refl) as [a Hbb];
     destruct (negb (numberOfContours glyph =? 0)); [rewrite Hbb|]; simpl; by eexists).
Qed.

Lemma scale_gpos_subtable_scaled (subtable : Subtable) s :
  positive_normal s -> subtable_below 53 subtable ->
  exists subtable', scale_gpos_subtable subtable s = Ok subtable' /\
    scaled_subtable s subtable subtable'.
Proof.
  intros Hs (Hsingle & Hpairs & Hclass & Hbase & Hmark & Hmark2 & Hlig).
  assert (Hvp : forall l, Forall (value_pair_below 53) l ->
            exists l', traverse (scale_value_pair s) l = Ok l' /\
                       Forall2 (scaled_value_pair s) l l')
    by (intros l; by apply scale_value_pairs_scaled).
  assert (Han : forall l, anchors_below 53 l ->
            exists l', traverse (scale_anchor_slot s) l = Ok l' /\ scaled_anchors s l l')
    by (intros l; by apply scale_anchors_scaled).
  unfold scale_gpos_subtable.
  destruct (if_hasattr_rel (fun r => scale_value_record r s) (obj_below 53)
              (scaled_value_record s) (SinglePos subtable)) as (x1 & -> & R1);
    [intros o Ho; by apply scale_value_record_scaled|done|].
  destruct (if_hasattr_rel (scale_pair_set_slot s) (from_option (pair_set_below 53) True)
              (option_Forall2 (scaled_pair_set s)) (PairSet subtable)) as (x2 & -> & R2); [|done|].
  { intros ps Hps. apply (if_present_rel _ (pair_set_below 53)); [|done].
    intros p Hp. unfold scale_pair_set.
    destruct (Hvp _ Hp) as (l' & -> & Rl). simpl. eexists. by split. }
  destruct (if_hasattr_rel (scale_class1_record s)
              (fun r => Forall (value_pair_below 53) (Class2Record r))
              (scaled_class1 s) (Class1Record subtable)) as (x3 & -> & R3); [|done|].
  { intros r Hr. unfold scale_class1_record.
    destruct (Hvp _ Hr) as (l' & -> & Rl). simpl. eexists. by split. }
  destruct (if_hasattr_rel (scale_base_record s) (fun r => anchors_below 53 (BaseAnchor r))
              (fun r r' => scaled_anchors s (BaseAnchor r) (BaseAnchor r'))
              (BaseArray subtable)) as (x4 & -> & R4); [|done|].
  { intros r Hr. unfold scale_base_record.
    destruct (Han _ Hr) as (l' & -> & Rl). simpl. eexists. by split. }
  destruct (if_hasattr_rel (scale_mark_record s) (fun r => slot_below 53 (MarkAnchor r))
              (scaled_mark s) (MarkArray subtable)) as (x5 & -> & R5); [|done|].
  { intros r Hr. unfold scale_mark_record.
    destruct (scale_anchor_slot_scaled s _ Hs Hr) as (a' & -> & Ra). simpl. eexists. by split. }
  destruct (if_hasattr_rel (scale_mark2_record s) (fun r => anchors_below 53 (Mark2Anchor r))
              (fun r r' => scaled_anchors s (Mark2Anchor r) (Mark2Anchor r'))
              (Mark2Array subtable)) as (x6 & -> & R6); [|done|].
  { intros r Hr. unfold scale_mark2_record.
    destruct (Han _ Hr) as (l' & -> & Rl). simpl. eexists. by split. }
  destruct (if_hasattr_rel (scale_ligature_attach s)
              (fun r => Forall (fun c => anchors_below 53 (LigatureAnchor c)) (ComponentRecord r))
              (scaled_ligature s) (LigatureArray subtable)) as (x7 & -> & R7); [|done|].
  { intros r Hr. unfold scale_ligature_attach.
    destruct (traverse_rel (scale_component_record s)
                (fun c c' => scaled_anchors s (LigatureAnchor c) (LigatureAnchor c'))
                (ComponentRecord r)) as (cs & -> & Rcs).
    { eapply Forall_impl; [exact Hr|]. intros c Hc. unfold scale_component_record.
      destruct (Han _ Hc) as (l' & -> & Rl). simpl. eexists. by split. }
    simpl. eexists. by split. }
  simpl. eexists. split; [reflexivity|]. by repeat split.
Qed.

Lemma scale_gpos_values_total (t : GPOSTable) s :
  positive_normal s -> gpos_below 53 t ->
  exists t', scale_gpos_values t s = Ok t' /\
    option_Forall2
      (Forall2 (fun l l' => Forall2 (scaled_subtable s) (SubTable l) (SubTable l')))
      (LookupList t) (LookupList t').
Proof.
  intros Hs Ht. unfold scale_gpos_values, gpos_below in *.
  destruct (LookupList t) as [lookups|] eqn:Hl.
  - simpl in Ht.
    destruct (traverse_rel (scale_lookup s)
                (fun l l' => Forall2 (scaled_subtable s) (SubTable l) (SubTable l')) lookups)
      as (ls & -> & Rls).
    { eapply Forall_impl; [exact Ht|]. intros l Hsub. unfold scale_lookup.
      destruct (traverse_rel (fun st => scale_gpos_subtable st s) (scaled_subtable s) (SubTable l))
        as (sts & -> & Rsts).
      { eapply Forall_impl; [exact Hsub|]. intros st Hst. by apply scale_gpos_subtable_scaled. }
      simpl. eexists. by split. }
    simpl. eexists. split; [reflexivity|]. simpl. by constructor.
  - exists t. split; [done|]. rewrite Hl. constructor.
Qed.

(** X10.  For every GPOS table with numbers below [2^53] and every positive
    normal factor [scale_gpos_values] returns: a table without a lookup list
    comes back as it is, and otherwise every subtable of every lookup is
    scaled, the lookups and subtables keeping their number and order. *)
Theorem scale_gpos_values_scaled (t : GPOSTable) s :
  positive_normal s -> gpos_below 53 t ->
  exists t', scale_gpos_values t s = Ok t' /\
    option_Forall2
      (Forall2 (fun l l' => Forall2 (scaled_subtable s) (SubTable l) (SubTable l')))
      (LookupList t) (LookupList t').
Proof. apply scale_gpos_values_total. Qed.

Lemma scale_gpos_values_scaled_witness :
  exists t', scale_gpos_values
               {| LookupList := Some [ {| SubTable := [subtable_with_nulls] |} ] |}
               default_scale = Ok t' /\
    option_Forall2
      (Forall2 (fun l l' => Forall2 (scaled_subtable default_scale) (SubTable l) (SubTable l')))
      (Some [ {| SubTable := [subtable_with_nulls] |} ]) (LookupList t').
Proof.
  apply (scale_gpos_values_scaled
           {| LookupList := Some [ {| SubTable := [subtable_with_nulls] |} ] |} default_scale).
  - vm_compute. split; [reflexivity|]. split; discriminate.
  - simpl. repeat constructor; simpl; try done; concrete_obj_below.
Defined.

Lemma scale_attrs_has_fields s fields o :
  positive_normal s -> NoDup fields -> has_fields 53 fields o ->
  is_Ok (scale_attrs s fields o).
Proof.
  intros Hs Hnd Ho. apply scale_attrs_is_Ok; [done|].
  intros a Ha. destruct (Ho a Ha) as (v & Hv & Hb). exists v. split; [done|].
  by apply scale_int_is_Ok.
Qed.

Lemma if_present_is_Ok {A} (body : A -> result A) (P : A -> Prop) (t : option A) :
  (forall x, P x -> is_Ok (body x)) -> from_option P True t -> is_Ok (if_present body t).
Proof.
  intros Hbody Ht. destruct t as [x|]; simpl; [|by eexists].
  destruct (Hbody x Ht) as [y ->]. simpl. by eexists.
Qed.

Lemma scale_metrics_is_Ok (m : dict string (Z * Z)) s :
  positive_normal s -> NoDup (dict_keys m) -> metrics_below 53 m ->
  is_Ok (scale_metrics m s).
Proof.
  intros Hs Hnd Hm. unfold scale_metrics.
  apply (for_each_live_is_Ok id
           (fun _ (v : Z * Z) => w ← scale_int s v.1; l ← scale_int s v.2; Ok (w, l)) _
           (fun v => int_below 53 v.1 /\ int_below 53 v.2)
         : _ -> _ -> forall rest pre, _) with (pre := []); [| |done|done].
  - intros d k. destruct (dict_get id d k) as [[w l]|]; [|done]. simpl.
    destruct (scale_int s w); [|done]. simpl. by destruct (scale_int s l).
  - intros _ [w l] [Hw Hl]. simpl in *.
    destruct (scale_int_is_Ok s w Hs Hw) as [w' ->].
    destruct (scale_int_is_Ok s l Hs Hl) as [l' ->]. simpl. by eexists.
Qed.

Lemma scale_glyf_is_Ok (g : dict string Glyph) s :
  positive_normal s -> NoDup (dict_keys g) ->
  Forall (fun e => glyph_below 53 e.2 /\ bbox_complete e.2) g ->
  is_Ok (scale_glyf g s).
Proof.
  intros Hs Hnd Hg. unfold scale_glyf.
  apply (for_each_live_is_Ok id
           (fun _ glyph => if numberOfContours glyph =? 0 then Ok glyph
                           else scale_glyph_ttf glyph [] s) _
           (fun glyph => glyph_below 53 glyph /\ bbox_complete glyph)
         : _ -> _ -> forall rest pre, _) with (pre := []); [| |done|done].
  - intros d k. apply scale_glyf_body.
  - intros _ glyph [Hb Hc]. destruct (numberOfContours glyph =? 0); [by eexists|].
    by apply scale_glyph_ttf_is_Ok.
Qed.

Lemma scale_kern_subtable_is_Ok (t : KernSubtable) s :
  positive_normal s -> kern_below 53 t -> is_Ok (scale_kern_subtable s t).
Proof.
  intros Hs Ht. unfold scale_kern_subtable, kern_below in *.
  destruct (kernTable t) as [kt|]; simpl; [|by eexists].
  destruct Ht as [_ Hkt].
  assert (Hloop : forall l d, Forall (fun e : string * string * Z => int_below 53 e.2) l ->
            is_Ok (for_each (fun (kernTable : dict (string * string) Z) '(glyph_pair, value) =>
                               v ← scale_int s value; Ok (dict_set glyph_pair v kernTable))
                            l d)).
  { induction l as [|[k v] l IH]; intros d Hl; simpl; [by eexists|].
    apply Forall_cons in Hl as [Hv Hl]. simpl in Hv.
    destruct (scale_int_is_Ok s v Hs Hv) as [v' ->]. simpl. by apply IH. }
  destruct (Hloop kt kt Hkt) as [kt' ->]. simpl. by eexists.
Qed.

Lemma scale_cff_glyphs_is_Ok (c : CFFTable) s :
  NoDup (dict_keys (CharStrings c)) ->
  (forall glyph_set cs, is_Ok (draw_scaled s glyph_set cs)) ->
  is_Ok (scale_cff_glyphs draw_scaled (Some c) s).
Proof.
  intros Hnd Hdraw. unfold scale_cff_glyphs.
  destruct (for_each_live_is_Ok id (draw_scaled s) _ (fun _ => True) (fun _ _ => eq_refl)
              (fun d v _ => Hdraw d v) (CharStrings c) [] Hnd) as [cs Hcs].
  { by apply Forall_forall. }
  simpl in Hcs. rewrite Hcs. simpl. by eexists.
Qed.



(** X12.  What a font must have for [scale_font] to get through: a [glyf]
    table unless it has [CFF ], the tables [hmtx], [head] and [hhea], and in
    [head], [hhea] and each of [OS/2], [vhea] and [post] that is there every
    field the script scales.  An OS/2 table of version 0 or 1, without
    [sxHeight], makes the run fail. *)
Theorem scale_font_tables_requires font s rename_from rename_to font' :
  scale_font_tables draw_scaled font s rename_from rename_to = Ok font' ->
  (CFF font = None -> is_Some (glyf font)) /\
  is_Some (hmtx font) /\
  (exists h, head font = Some h /\ complete head_fields h) /\
  (exists h, hhea font = Some h /\ complete hhea_fields h) /\
  from_option (complete os2_fields) True (OS_2 font) /\
  from_option (complete vhea_fields) True (vhea font) /\
  from_option (complete post_fields) True (post font).
Proof.
  intros H. apply scale_font_tables_inv in H
    as ((m & m' & Hm & _) & _ & (h & h' & Hh & Hh' & _) & (hh & hh' & Hhh & Hhh' & _)
        & Hos & Hvh & Hpo & _ & _ & Hg).
  assert (Hc : forall fields o o', NoDup fields -> scale_attrs s fields o = Ok o' ->
                 complete fields o).
  { intros fields o o' Hnd Ho a Ha.
    destruct (scale_attrs_inv s fields o o' Hnd Ho) as [Hin _].
    destruct (Hin a Ha) as (v & _ & Hv & _). by exists v. }
  assert (Hopt : forall fields (t t' : option obj), NoDup fields ->
                   if_present (scale_attrs s fields) t = Ok t' ->
                   from_option (complete fields) True t).
  { intros fields t t' Hnd Ht. apply if_present_inv in Ht.
    destruct Ht as [o o' Ho|]; simpl; [|done]. by eapply Hc. }
  split; [intros Hcff; destruct (Hg Hcff) as (g & _ & -> & _); by eexists|].
  split; [rewrite Hm; by eexists|].
  split; [exists h; split; [done|]; by eapply Hc, Hh'; apply NoDup_head_fields|].
  split; [exists hh; split; [done|]; by eapply Hc, Hhh'; apply NoDup_hhea_fields|].
  split; [by eapply Hopt, Hos; apply NoDup_os2_fields|].
  split; [by eapply Hopt, Hvh; apply NoDup_vhea_fields|].
  by eapply Hopt, Hpo; apply NoDup_post_fields.
Qed.

Lemma scale_int_not_finite s x : finite s = false -> ~ is_Ok (scale_int s x).
Proof.
  intros Hs [z Hz]. unfold scale_int in Hz.
  destruct (float_of_int x) as [f|]; [|done]. simpl in Hz.
  destruct s as [| | |]; try done; destruct f; done.
Qed.

Lemma scale_font_never_Ok (disk : gmap string Font) input_path output_path s
    rename_from rename_to :
  finite s = false ->
  exists e, scale_font draw_scaled disk input_path output_path s rename_from rename_to
            = Raise e.
Proof.
  intros Hs.
  destruct (scale_font _ _ _ _ _ _ _) as [disk'|e] eqn:H; [|by exists e].
  exfalso. unfold scale_font in H.
  apply bind_Ok in H as (font & _ & H). apply bind_Ok in H as (font' & H & _).
  apply scale_font_tables_inv in H as (_ & _ & (h & h' & _ & Hh & _) & _).
  unfold scale_attrs, head_fields in Hh. simpl in Hh.
  apply bind_Ok in Hh as (o & Ho & _).
  apply scale_attr_inv in Ho as (v & v' & _ & Hv & _).
  apply (scale_int_not_finite s v Hs). by exists v'.
Qed.

(** X13.  With an infinite or NaN factor [scale_font] never returns: the
    first number it scales raises, and no file is written. *)
Theorem scale_font_not_finite (disk : gmap string Font) input_path output_path s
    rename_from rename_to :
  finite s = false ->
  ~ is_Ok (scale_font draw_scaled disk input_path output_path s rename_from rename_to).
Proof.
  intros Hs [disk' H].
  destruct (scale_font_never_Ok disk input_path output_path s rename_from rename_to Hs)
    as [e He].
  congruence.
Qed.

End Tables.

Lemma scale_cff_glyphs_live_witness :
  let c := {| fontNames := None; FamilyName := None; FullName := None;
              CharStrings := [("A"%string, tt); ("B"%string, tt)] |} in
  exists char_strings,
    (Some c, true)
    = (Some {| fontNames := fontNames c; FamilyName := FamilyName c;
               FullName := FullName c; CharStrings := char_strings |}, true) /\
    length char_strings = length (CharStrings c) /\
    forall j glyph_name cs, CharStrings c !! j = Some (glyph_name, cs) ->
      exists new_cs, char_strings !! j = Some (glyph_name, new_cs) /\
        keep_charstring default_scale (take j char_strings ++ drop j (CharStrings c)) cs
        = Ok new_cs.
Proof.
  apply (scale_cff_glyphs_live keep_charstring
           {| fontNames := None; FamilyName := None; FullName := None;
              CharStrings := [("A"%string, tt); ("B"%string, tt)] |} default_scale).
  - simpl. compute_done.
  - reflexivity.
Defined.

Lemma valid_tiny_font_53 : valid_font 53 (CharString := unit) tiny_font.
Proof.
  unfold valid_font, tiny_font. simpl.
  split.
  { intros _. exists glyf_AB. split; [done|].
    repeat constructor; simpl; try concrete_obj_below; try (by vm_compute);
      intros _ a Hin; unfold bbox_fields in Hin;
      repeat (apply elem_of_cons in Hin as [->|Hin]; [vm_compute; by eexists|]);
      by apply elem_of_nil in Hin. }
  split; [eexists; split; [done|]; repeat constructor; by vm_compute|].
  split; [done|].
  split; [eexists; split; [done|]; unfold head_fields; concrete_has_fields|].
  split; [eexists; split; [done|]; unfold hhea_fields; concrete_has_fields|].
  repeat split; try done.
  constructor; [|constructor]. simpl. split; [apply NoDup_singleton|].
  constructor; [by vm_compute|constructor].
Defined.


Lemma scale_font_tables_requires_witness :
  (CFF (CharString := unit) tiny_font = None -> is_Some (glyf (CharString := unit) tiny_font)) /\
  is_Some (hmtx (CharString := unit) tiny_font) /\
  (exists h, head (CharString := unit) tiny_font = Some h /\ complete head_fields h) /\
  (exists h, hhea (CharString := unit) tiny_font = Some h /\ complete hhea_fields h) /\
  from_option (complete os2_fields) True (OS_2 (CharString := unit) tiny_font) /\
  from_option (complete vhea_fields) True (vhea (CharString := unit) tiny_font) /\
  from_option (complete post_fields) True (post (CharString := unit) tiny_font).
Proof.
  apply (scale_font_tables_requires keep_charstring tiny_font one None None tiny_font).
  vm_compute. reflexivity.
Defined.

Lemma scale_font_not_finite_witness :
  finite S754_nan = false /\
  ~ is_Ok (scale_font keep_charstring (disk_of two_fonts_on_disk)
             "fonts/mono/ttf/A.ttf" "fonts/mono/ttf/A.ttf" S754_nan None None).
Proof.
  split; [reflexivity|]. by apply scale_font_not_finite.
Defined.

(** ** Files *)

Section Files.

Context {CharString : Type}.
Variable draw_scaled : spec_float -> dict string CharString -> CharString -> result CharString.

Lemma string_app_length (a b : string) :
  String.length (a ++ b) = (String.length a + String.length b)%nat.
Proof. induction a as [|c a IH]; simpl; [done|]. by rewrite IH. Qed.



(** X15.  Batch mode touches no file but the output paths of the fonts it
    was given: whatever succeeds or fails, every other file is as before. *)
Theorem batch_loop_untouched scale suffix_arg rename_from rename_to
    (font_files : list Path) (st : Batch) (path : string) :
  path ∉ ((fun p => str (output_path suffix_arg p)) <$> font_files) ->
  disk_of (batch_loop draw_scaled scale suffix_arg rename_from rename_to font_files st) !! path
  = disk_of st !! path.
Proof.
  revert st. induction font_files as [|p l IH]; intros st Hout; [done|].
  rewrite batch_loop_cons, IH.
  - unfold batch_step.
    destruct (scale_font _ _ _ _ _ _ _) as [disk'|e] eqn:Hs; simpl; [|done].
    unfold scale_font in Hs.
    apply bind_Ok in Hs as (font & _ & Hs). apply bind_Ok in Hs as (font' & _ & [= <-]).
    apply lookup_insert_ne. intros Heq. apply Hout. rewrite fmap_cons, Heq. by left.
  - intros Hin. apply Hout. rewrite fmap_cons. by right.
Qed.

End Files.

Lemma batch_loop_untouched_witness :
  ("fonts/mono/ttf/C.ttf"%string
     ∉ ((fun p => str (output_path "" p)) <$> [path_A; path_B])) /\
  disk_of (batch_loop keep_charstring default_scale "" None None [path_A; path_B]
             two_fonts_on_disk) !! "fonts/mono/ttf/C.ttf"%string
  = disk_of two_fonts_on_disk !! "fonts/mono/ttf/C.ttf"%string.
Proof.
  assert (H : "fonts/mono/ttf/C.ttf"%string
                ∉ ((fun p => str (output_path "" p)) <$> [path_A; path_B])).
  { intros Hin. rewrite !fmap_cons in Hin.
    apply elem_of_cons in Hin as [Hin|Hin]; [discriminate|].
    apply elem_of_cons in Hin as [Hin|Hin]; [discriminate|].
    by apply elem_of_nil in Hin. }
  split; [exact H|]. by apply batch_loop_untouched.
Defined.

(** ** Renaming, for every name table *)

Section RenamingMore.

Context {CharString : Type}.

Implicit Types (r record : NameRecord) (names : list NameRecord) (font : @Font CharString).

Local Open Scope nat_scope.

Lemma rename_names_from_ids old new fuel : forall i names,
  length names < fuel + i ->
  exists names', rename_names_from fuel i old new names = Some names' /\
    ids <$> names' = ids <$> names.
Proof.
  induction fuel as [|fuel IH]; intros i names Hlen; simpl.
  - destruct (names !! i) eqn:E; [|by exists names].
    apply lookup_lt_Some in E. lia.
  - destruct (names !! i) as [record|] eqn:E; [|by exists names].
    assert (Hin : record ∈ names) by (by eapply list_elem_of_lookup_2).
    destruct (toUnicode record) as [text|]; [|apply IH; lia].
    pose proof (rename_record_keeps_ids old new record text names Hin) as Hids.
    destruct (IH (S i) (rename_record old new record text names)) as (names' & Hn & Hi).
    { rewrite <- (length_fmap ids), Hids, length_fmap. lia. }
    exists names'. split; [done|]. by rewrite Hi.
Qed.

(** X16.  [rename_font] returns for every font, with the fuel of one unit
    per name record and one more; it keeps the number of name records and
    the four identifiers of each, even when records share identifiers, and it
    touches no table but [name] and the names of [CFF ]. *)
Theorem rename_font_keeps_records font old_family new_family :
  exists font',
    rename_font (S (length (default [] (name font)))) font old_family new_family = Some font' /\
    record_ids font' = record_ids font /\
    option_map CharStrings (CFF font') = option_map CharStrings (CFF font) /\
    glyf font' = glyf font /\ hmtx font' = hmtx font /\ vmtx font' = vmtx font /\
    head font' = head font /\ hhea font' = hhea font /\ OS_2 font' = OS_2 font /\
    vhea font' = vhea font /\ post font' = post font /\ kern font' = kern font /\
    GPOS font' = GPOS font.
Proof.
  unfold rename_font, record_ids. destruct (name font) as [names|] eqn:En.
  - change (default [] (Some names)) with names.
    destruct (rename_names_from_ids old_family new_family (S (length names)) 0 names)
      as (names' & -> & Hids); [lia|].
    simpl. eexists. split; [reflexivity|]. simpl.
    split; [by f_equal|]. split; [by destruct (CFF font)|]. by repeat split.
  - exists font. rewrite En. by repeat split.
Qed.

Lemma rename_names_from_absent old new names :
  Forall (fun r => from_option (unmentioned old) True (toUnicode r)) names ->
  forall fuel i, length names < fuel + i ->
    rename_names_from fuel i old new names = Some names.
Proof.
  intros Habs. induction fuel as [|fuel IH]; intros i Hlen; simpl.
  - destruct (names !! i) eqn:E; [|done].
    apply lookup_lt_Some in E. lia.
  - destruct (names !! i) as [record|] eqn:E; [|done].
    assert (Hin : record ∈ names) by (by eapply list_elem_of_lookup_2).
    eapply Forall_forall in Habs; [|exact Hin].
    destruct (toUnicode record) as [text|]; [|apply IH; lia].
    destruct Habs as [H1 H2]. unfold rename_record. rewrite H1, H2. simpl.
    apply IH. lia.
Qed.

Lemma map_id_on {A} (f : A -> A) (l : list A) :
  Forall (fun x => f x = x) l -> map f l = l.
Proof. induction 1 as [|x l Hx _ IH]; simpl; [done|]. by rewrite Hx, IH. Qed.

(** X17.  Renaming a family that occurs nowhere in the names of the font
    changes nothing. *)
Theorem rename_absent_family font old_family rename_to :
  family_absent old_family font ->
  rename_if_requested font (Some old_family) rename_to = font.
Proof.
  intros [Hn Hc]. unfold rename_if_requested.
  destruct rename_to as [new_family|]; [|done].
  destruct (_ && _); [|done].
  unfold rename_font. destruct font as [nm cff g hm vm hd hh os vh po ke gp].
  simpl in Hn, Hc. cbn -[rename_names_from].
  destruct nm as [names|]; [|done]. simpl in Hn. cbn -[rename_names_from].
  rewrite (rename_names_from_absent old_family new_family names Hn) by lia. simpl.
  f_equal. destruct cff as [[fns fam full css]|]; [|done]. simpl in *.
  destruct Hc as (Hf & Hfam & Hfull). unfold rename_cff. simpl. f_equal. f_equal.
  - destruct fns as [l|]; [|done]. simpl in *. f_equal. apply map_id_on.
    eapply Forall_impl; [exact Hf|]. intros n Hcn. unfold replace_if_contains. by rewrite Hcn.
  - destruct fam as [n|]; [|done]. simpl in *. unfold replace_if_contains. by rewrite Hfam.
  - destruct full as [n|]; [|done]. simpl in *. unfold replace_if_contains. by rewrite Hfull.
Qed.

(** *** Renaming a family to itself *)

Lemma prefix_app (old text : string) :
  String.prefix old text = true -> exists tail, text = (old ++ tail)%string.
Proof.
  revert text. induction old as [|c old IH]; intros text; simpl.
  - intros _. by exists text.
  - destruct text as [|c' text]; simpl; [done|].
    destruct (Ascii.ascii_dec c c') as [->|]; [|done].
    intros (tail & ->)%IH. by exists tail.
Qed.

Lemma replace_scan_skip (old new p t : string) :
  replace_scan old new (String.length p) (p ++ t) = replace_scan old new 0 t.
Proof.
  induction p as [|c p IH]; simpl; [|exact IH].
  destruct t; reflexivity.
Qed.

Lemma replace_scan_same (old : string) : old ≠ ""%string ->
  forall n text, String.length text <= n -> replace_scan old old 0 text = text.
Proof.
  intros Hold. induction n as [|n IH]; intros text Hlen.
  - destruct text; [done|simpl in Hlen; lia].
  - destruct text as [|c rest]; [done|]. cbn [replace_scan].
    destruct (String.prefix old (String c rest)) eqn:Hp.
    + apply prefix_app in Hp as (tail & Htext).
      destruct old as [|c0 old']; [done|]. simpl in Htext. injection Htext as -> ->.
      cbn [String.length Nat.pred]. rewrite replace_scan_skip, IH; [done|].
      simpl in Hlen. rewrite string_app_length in Hlen. lia.
    + rewrite IH; [done|]. simpl in Hlen. lia.
Qed.

Lemma intersperse_empty (text : string) : intersperse_all "" text = text.
Proof. induction text as [|c text IH]; simpl; [done|]. by rewrite IH. Qed.

Lemma py_replace_same (text old : string) : py_replace text old old = text.
Proof.
  unfold py_replace. destruct old as [|c old]; [apply intersperse_empty|].
  apply (replace_scan_same (String c old)) with (n := String.length text); [done|lia].
Qed.

Lemma renamed_same old r : renamed old old r = r.
Proof.
  unfold renamed, toUnicode. destruct r as [n p e l [text|]]; simpl; [|done].
  rewrite !py_replace_same. unfold with_text. simpl.
  destruct (contains old text); [done|]. by destruct (contains (nospace old) text).
Qed.

(** X18.  Renaming a family to itself changes nothing, when no two name
    records share their identifiers. *)
Theorem rename_to_itself font family :
  from_option (fun names => NoDup (ids <$> names)) True (name font) ->
  rename_if_requested font (Some family) (Some family) = font.
Proof.
  intros Hnd. unfold rename_if_requested.
  destruct (_ && _); [|done].
  unfold rename_font. destruct font as [nm cff g hm vm hd hh os vh po ke gp].
  simpl in Hnd. cbn -[rename_names_from].
  destruct nm as [names|]; [|done]. simpl in Hnd. cbn -[rename_names_from].
  pose proof (rename_names_from_renamed family family names Hnd (length names) 0
                (S (length names)) ltac:(lia) ltac:(lia)) as Hloop.
  rewrite take_0, drop_0 in Hloop. cbn [fmap list_fmap app] in Hloop.
  rewrite Hloop. simpl.
  assert (Hid : renamed family family <$> names = names).
  { apply map_id_on, Forall_forall. intros r _. apply renamed_same. }
  rewrite Hid. f_equal.
  destruct cff as [[fns fam full css]|]; [|done]. simpl. unfold rename_cff. simpl.
  assert (Hrep : forall old text, replace_if_contains old old text = text).
  { intros old text. unfold replace_if_contains.
    destruct (contains old text); [apply py_replace_same|done]. }
  f_equal. f_equal.
  - destruct fns as [l|]; [|done]. simpl. f_equal. apply map_id_on, Forall_forall.
    intros n _. apply Hrep.
  - destruct fam as [n|]; [|done]. simpl. by rewrite Hrep.
  - destruct full as [n|]; [|done]. simpl. by rewrite Hrep.
Qed.

End RenamingMore.

Lemma rename_absent_family_witness :
  rename_if_requested named_font (Some "Inter"%string) (Some "Inter Display"%string)
  = named_font.
Proof.
  apply rename_absent_family.
  unfold family_absent, named_font. simpl. split.
  - repeat constructor; by vm_compute.
  - repeat split; repeat constructor; by vm_compute.
Defined.

Lemma rename_to_itself_witness :
  rename_if_requested named_font (Some "Reddit Mono"%string) (Some "Reddit Mono"%string)
  = named_font.
Proof.
  apply rename_to_itself. simpl. compute_done.
Defined.

(** ** The command line *)

Section CommandLineTheorems.

Context {CharString : Type}.
Variable draw_scaled : spec_float -> dict string CharString -> CharString -> result CharString.
Context {Dir : Type}.
Variable joinpath : Dir -> string -> Dir.
Variable dir_exists : Dir -> bool.
Variable glob : Dir -> string -> list Path.
Variable sorted : list Path -> list Path.
Variable os_path_exists : string -> bool.
Variable script_dir : Dir.

Lemma prefix_colon c rest :
  String.prefix ":" (String c rest) = true -> contains ":" (String c rest) = true.
Proof. intros H. cbn [contains]. by rewrite H. Qed.

Lemma contains_colon_split text :
  contains ":" text = true -> exists before after, split_colon text = (before, Some after).
Proof.
  induction text as [|c rest IH]; [done|]. cbn [contains split_colon].
  destruct (String.prefix ":" (String c rest)); [by eexists _, _|]. simpl.
  intros (before & after & ->)%IH. by eexists _, _.
Qed.

Lemma prefix_colon_cons c (rest rest' : string) :
  String.prefix ":" (String c rest) = String.prefix ":" (String c rest').
Proof.
  cbn [String.prefix]. destruct (Ascii.ascii_dec _ c); [|done]. by destruct rest, rest'.
Qed.

Lemma split_colon_app before after :
  contains ":" before = false -> split_colon (before ++ ":" ++ after) = (before, Some after).
Proof.
  induction before as [|c rest IH]; [intros _; simpl; by destruct after|]. cbn [contains].
  intros [Hp Hc]%orb_false_elim.
  change ((String c rest ++ ":" ++ after)%string) with (String c (rest ++ ":" ++ after)).
  cbn [split_colon].
  by rewrite (prefix_colon_cons c _ rest), Hp, IH.
Qed.

Lemma contains_colon_app before after : contains ":" (before ++ ":" ++ after) = true.
Proof.
  induction before as [|c rest IH].
  - simpl. by destruct after.
  - change ((String c rest ++ ":" ++ after)%string) with (String c (rest ++ ":" ++ after)).
    cbn [contains]. rewrite IH. apply orb_true_r.
Qed.

(** X19.  [--rename 'Old:New'] is read back as the pair of names: whenever
    the old name has no colon, whatever the new name holds. *)
Theorem parse_rename_round_trip (rename_from rename_to : string) :
  contains ":" rename_from = false ->
  parse_rename (CharString := CharString) (Some (rename_from ++ ":" ++ rename_to)%string)
  = inr (Some rename_from, Some rename_to).
Proof.
  intros Hc. unfold parse_rename.
  assert (Ht : truthy (Some (rename_from ++ ":" ++ rename_to)%string) = true)
    by (by destruct rename_from).
  rewrite Ht. cbn [default from_option id].
  rewrite contains_colon_app. cbn [negb].
  unfold unpack_rename. by rewrite split_colon_app.
Qed.

Lemma parse_rename_exits rename outcome :
  parse_rename (CharString := CharString) rename = inl outcome ->
  outcome = SystemExit 1 RenameFormat.
Proof.
  unfold parse_rename. destruct (truthy rename); [|done].
  destruct (contains ":" _) eqn:Hc; simpl; [|by intros [= <-]].
  apply contains_colon_split in Hc as (before & after & Hs).
  unfold unpack_rename. by rewrite Hs.
Qed.

(** X20.  [main] never scales with a factor that is zero or negative: it
    exits with status 1 before any font is loaded, whatever the other
    arguments and the files. *)
Theorem main_rejects_non_positive args disk :
  SFleb (args_scale args) (S754_zero false) = true ->
  exists message,
    main draw_scaled joinpath dir_exists glob sorted os_path_exists script_dir args disk
    = SystemExit 1 message.
Proof.
  intros Hle. unfold main.
  destruct (parse_rename (args_rename args)) as [outcome|[rename_from rename_to]] eqn:Hp.
  - apply parse_rename_exits in Hp as ->. by eexists.
  - rewrite Hle. by eexists.
Qed.

Lemma batch_loop_all_fail s suffix_arg rename_from rename_to (font_files : list Path) :
  finite s = false ->
  forall st : Batch,
    let st' := batch_loop draw_scaled s suffix_arg rename_from rename_to font_files st in
    disk_of st' = disk_of st /\ (errors st').*1 = (errors st).*1 ++ font_files.
Proof.
  intros Hs. induction font_files as [|p l IH]; intros st; simpl.
  - by rewrite app_nil_r.
  - destruct (IH (batch_step draw_scaled s suffix_arg rename_from rename_to st p)) as [Hd He].
    unfold batch_loop in *. simpl. rewrite Hd, He. unfold batch_step.
    destruct (scale_font_never_Ok draw_scaled (disk_of st) (str p) (str (output_path suffix_arg p)) s
                rename_from rename_to Hs) as [e ->].
    simpl. split; [done|]. rewrite fmap_app. simpl. by rewrite <- app_assoc.
Qed.

(** X21.  A factor that is NaN or infinite gets through the validation of
    [main] unless it is minus infinity, but changes no file: in single-file
    mode the exception leaves [main], in batch mode every font is reported
    with an error. *)
Theorem main_not_finite_changes_nothing args disk st :
  finite (args_scale args) = false ->
  main draw_scaled joinpath dir_exists glob sorted os_path_exists script_dir args disk
  = Returned st ->
  disk_of st = disk /\
  (errors st).*1
  = find_mono_fonts joinpath dir_exists glob sorted (joinpath script_dir (args_fonts_dir args)).
Proof.
  intros Hs. unfold main.
  destruct (parse_rename (args_rename args)) as [outcome|[rename_from rename_to]] eqn:Hp.
  { apply parse_rename_exits in Hp as ->. done. }
  destruct (SFleb _ _); [done|].
  destruct (truthy (args_input args)).
  - destruct (negb (truthy (args_output args))); [done|].
    destruct (negb (os_path_exists _)); [done|].
    by destruct (scale_font_never_Ok draw_scaled disk (default EmptyString (args_input args))
                   (default EmptyString (args_output args)) (args_scale args)
                   rename_from rename_to Hs) as [e ->].
  - set (font_files := find_mono_fonts _ _ _ _ _).
    destruct font_files as [|p l] eqn:Hf; [done|]. intros [= <-].
    destruct (batch_loop_all_fail (args_scale args) (args_suffix args) rename_from rename_to
                (p :: l) Hs {| disk_of := disk; errors := [] |}) as [Hd He].
    split; [exact Hd|exact He].
Qed.

Lemma scale_font_empty_rename (disk : gmap string Font) input_path output_path s rename_from :
  scale_font draw_scaled disk input_path output_path s (Some rename_from) (Some ""%string)
  = scale_font draw_scaled disk input_path output_path s None None.
Proof.
  unfold scale_font, scale_font_tables, rename_if_requested.
  cbn [String.eqb negb]. by rewrite andb_false_r.
Qed.

(** X22.  An empty new name disables renaming without a word: with
    [--rename 'Old:'] the run is the run without [--rename]. *)
Theorem main_empty_rename args disk (rename_from : string) :
  contains ":" rename_from = false ->
  main draw_scaled joinpath dir_exists glob sorted os_path_exists script_dir
    (with_rename args (Some (rename_from ++ ":")%string)) disk
  = main draw_scaled joinpath dir_exists glob sorted os_path_exists script_dir
      (with_rename args None) disk.
Proof.
  intros Hc. unfold main. cbn [with_rename args_rename args_scale args_input args_output
                                 args_suffix args_fonts_dir].
  change (rename_from ++ ":")%string with (rename_from ++ ":" ++ "")%string.
  rewrite (parse_rename_round_trip rename_from "" Hc).
  unfold parse_rename. cbn [truthy]. cbv beta iota.
  destruct (SFleb _ _); [done|].
  destruct (truthy (args_input args)).
  - destruct (negb (truthy (args_output args))); [done|].
    destruct (negb (os_path_exists _)); [done|].
    by rewrite scale_font_empty_rename.
  - destruct (find_mono_fonts _ _ _ _ _) as [|p l]; [done|]. f_equal.
    unfold batch_loop. generalize ({| disk_of := disk; errors := [] |} : @Batch CharString).
    induction (p :: l) as [|q l' IH]; intros st; [done|]. simpl.
    rewrite <- IH. f_equal. unfold batch_step. by rewrite scale_font_empty_rename.
Qed.

End CommandLineTheorems.

Lemma parse_rename_round_trip_witness :
  contains ":" "Reddit Mono" = false /\
  parse_rename (CharString := unit) (Some "Reddit Mono:RedditRadon Mono:Nerd"%string)
  = inr (Some "Reddit Mono"%string, Some "RedditRadon Mono:Nerd"%string).
Proof.
  split; [reflexivity|].
  apply (parse_rename_round_trip "Reddit Mono" "RedditRadon Mono:Nerd"). reflexivity.
Defined.

Lemma main_rejects_non_positive_witness :
  SFleb (args_scale (batch_args minus_one)) (S754_zero false) = true /\
  exists message,
    example_main (batch_args minus_one) (disk_of two_fonts_on_disk) = SystemExit 1 message.
Proof.
  split; [reflexivity|]. apply main_rejects_non_positive. reflexivity.
Defined.

Lemma main_not_finite_changes_nothing_witness :
  let st := {| disk_of := disk_of two_fonts_on_disk;
               errors := [(path_A, ValueError);
                          (path_B, TTLibError "fonts/mono/ttf/B.ttf");
                          (path_C, ValueError)] |} in
  example_main (batch_args S754_nan) (disk_of two_fonts_on_disk) = Returned st /\
  disk_of st = disk_of two_fonts_on_disk /\
  (errors st).*1
  = find_mono_fonts join_names example_dirs example_glob example_sorted
      (join_names "." (args_fonts_dir (batch_args S754_nan))).
Proof.
  intros st.
  assert (H : example_main (batch_args S754_nan) (disk_of two_fonts_on_disk) = Returned st)
    by (vm_compute; reflexivity).
  split; [exact H|].
  exact (main_not_finite_changes_nothing keep_charstring join_names example_dirs example_glob
           example_sorted example_files "."%string (batch_args S754_nan) (disk_of two_fonts_on_disk) st
           eq_refl H).
Defined.

Lemma main_empty_rename_witness :
  contains ":" "Reddit Mono" = false /\
  example_main (with_rename (batch_args default_scale) (Some "Reddit Mono:"%string))
    (disk_of two_fonts_on_disk)
  = example_main (with_rename (batch_args default_scale) None) (disk_of two_fonts_on_disk).
Proof.
  split; [reflexivity|].
  apply (main_empty_rename keep_charstring join_names example_dirs example_glob example_sorted
           example_files "."%string (batch_args default_scale) (disk_of two_fonts_on_disk) "Reddit Mono").
  reflexivity.
Defined.

(** ** What a glyph keeps *)

Section GlyphInvariants.

Implicit Types (s : spec_float) (glyph : Glyph) (o : obj).

(** The two stages of [scale_glyph_ttf], read back from a successful run. *)
Lemma scale_glyph_ttf_inv glyph glyf_table s glyph' :
  scale_glyph_ttf glyph glyf_table s = Ok glyph' ->
  numberOfContours glyph' = numberOfContours glyph /\
  (if isComposite glyph
   then traverse (scale_component s) (components glyph) = Ok (components glyph')
   else components glyph' = components glyph) /\
  (if negb (isComposite glyph) && (0 <? numberOfContours glyph)
   then traverse (scale_point s) (coordinates glyph) = Ok (coordinates glyph')
   else coordinates glyph' = coordinates glyph) /\
  (if hasattr (glyph_attrs glyph) "xMin" && negb (numberOfContours glyph =? 0)
   then scale_attrs s bbox_fields (glyph_attrs glyph) = Ok (glyph_attrs glyph')
   else glyph_attrs glyph' = glyph_attrs glyph).
Proof.
  unfold scale_glyph_ttf.
  destruct (isComposite glyph); [|destruct (0 <? numberOfContours glyph)]; simpl.
  - destruct (traverse (scale_component s) _) as [cs|]; [|done]. simpl.
    destruct (hasattr _ _ && _).
    + destruct (scale_attrs _ _ _) as [a|]; [|done]. simpl. by intros [= <-].
    + by intros [= <-].
  - destruct (traverse (scale_point s) _) as [cs|]; [|done]. simpl.
    destruct (hasattr _ _ && _).
    + destruct (scale_attrs _ _ _) as [a|]; [|done]. simpl. by intros [= <-].
    + by intros [= <-].
  - destruct (hasattr _ _ && _).
    + destruct (scale_attrs _ _ _) as [a|]; [|done]. simpl. by intros [= <-].
    + by intros [= <-].
Qed.

Lemma scale_attr_dom s o a o' : scale_attr s o a = Ok o' -> dom o' = dom o.
Proof.
  intros (v & v' & Hv & _ & ->)%scale_attr_inv. apply dom_insert_lookup_L. by eexists.
Qed.

Lemma for_each_dom (step : obj -> string -> result obj) fields :
  (forall o a o', step o a = Ok o' -> dom o' = dom o) ->
  forall o o', for_each step fields o = Ok o' -> dom o' = dom o.
Proof.
  intros Hstep. induction fields as [|a fields IH]; intros o o'; simpl.
  - by intros [= <-].
  - intros (o1 & H1 & H2)%bind_Ok. rewrite (IH _ _ H2). by eapply Hstep.
Qed.

Lemma scale_attr_if_present_dom s o a o' :
  scale_attr_if_present s o a = Ok o' -> dom o' = dom o.
Proof.
  unfold scale_attr_if_present. destruct (hasattr o a); [apply scale_attr_dom|by intros [= <-]].
Qed.

(** X23.  A scaled glyph keeps its shape, whatever the factor: the number
    of contours, the number of points, the components with their glyph names
    and the attributes they have, and the attributes of the glyph; nothing is
    added and nothing is dropped. *)
Theorem scale_glyph_ttf_shape glyph glyf_table s glyph' :
  scale_glyph_ttf glyph glyf_table s = Ok glyph' ->
  numberOfContours glyph' = numberOfContours glyph /\
  length (coordinates glyph') = length (coordinates glyph) /\
  Forall2 (fun c c' => glyphName c' = glyphName c /\
                       dom (component_attrs c') = dom (component_attrs c))
    (components glyph) (components glyph') /\
  dom (glyph_attrs glyph') = dom (glyph_attrs glyph).
Proof.
  intros (Hn & Hc & Hp & Ha)%scale_glyph_ttf_inv.
  split; [done|]. split; [|split].
  - destruct (negb (isComposite glyph) && _); [by eapply traverse_length|by rewrite Hp].
  - destruct (isComposite glyph).
    + apply traverse_Forall2 in Hc. eapply Forall2_impl; [exact Hc|].
      intros c c' (a & Hfe & [= <-])%bind_Ok. simpl. split; [done|].
      by eapply (for_each_dom _ _ (scale_attr_if_present_dom s)).
    + rewrite Hc. by apply Forall2_same_length_lookup_2; [|intros ??? -> [= <-]].
  - destruct (hasattr (glyph_attrs glyph) "xMin" && _); [|by rewrite Ha].
    by eapply (for_each_dom _ _ (scale_attr_dom s)).
Qed.

Lemma scale_glyph_ttf_shape_witness :
  let glyph' :=
    {| numberOfContours := -1;
       components := [ {| glyphName := "A"; component_attrs := {[ "x" := 1; "y" := 1 ]} |} ];
       coordinates := [];
       glyph_attrs := {[ "xMin" := 3; "yMin" := 3; "xMax" := 6; "yMax" := 6 ]} |} in
  scale_glyph_ttf glyph_B glyf_AB one_and_a_half = Ok glyph' /\
  numberOfContours glyph' = numberOfContours glyph_B /\
  length (coordinates glyph') = length (coordinates glyph_B) /\
  Forall2 (fun c c' => glyphName c' = glyphName c /\
                       dom (component_attrs c') = dom (component_attrs c))
    (components glyph_B) (components glyph') /\
  dom (glyph_attrs glyph') = dom (glyph_attrs glyph_B).
Proof.
  intros glyph'.
  assert (H : scale_glyph_ttf glyph_B glyf_AB one_and_a_half = Ok glyph')
    by (vm_compute; reflexivity).
  split; [exact H|]. exact (scale_glyph_ttf_shape glyph_B glyf_AB one_and_a_half glyph' H).
Defined.

(** X24.  The stored bounding box stays ordered: two bounds with
    [lo <= hi], such as [xMin] and [xMax], are still in that order after
    scaling by a positive factor below [2^24]. *)
Theorem scale_glyph_ttf_bbox_ordered glyph glyf_table s glyph' lo hi a b :
  positive_normal s -> factor_below 24 s -> obj_below 24 (glyph_attrs glyph) ->
  lo ∈ bbox_fields -> hi ∈ bbox_fields ->
  glyph_attrs glyph !! lo = Some a -> glyph_attrs glyph !! hi = Some b -> a <= b ->
  scale_glyph_ttf glyph glyf_table s = Ok glyph' ->
  exists a' b', glyph_attrs glyph' !! lo = Some a' /\ glyph_attrs glyph' !! hi = Some b' /\
    a' <= b'.
Proof.
  intros Hs Hf Hbelow Hlo Hhi Ha Hb Hab (_ & _ & _ & Hattrs)%scale_glyph_ttf_inv.
  destruct (hasattr (glyph_attrs glyph) "xMin" && _).
  - apply scale_attrs_inv in Hattrs as [Hin _]; [|apply NoDup_bbox_fields].
    destruct (Hin lo Hlo) as (v & a' & Hv & Hsa & Ha').
    destruct (Hin hi Hhi) as (w & b' & Hw & Hsb & Hb').
    assert (v = a) by congruence. assert (w = b) by congruence. subst v w.
    exists a', b'. split; [done|]. split; [done|].
    apply (scale_int_le s a b); try done; by eapply Hbelow.
  - rewrite Hattrs. by exists a, b.
Qed.

Lemma scale_glyph_ttf_bbox_ordered_witness :
  scale_glyph_ttf glyph_A glyf_AB one_and_a_half
  = Ok {| numberOfContours := 1; components := []; coordinates := [(1, 1); (4, 4)];
          glyph_attrs := {[ "xMin" := 1; "yMin" := 1; "xMax" := 4; "yMax" := 4 ]} |} /\
  exists a' b',
    ({[ "xMin" := 1; "yMin" := 1; "xMax" := 4; "yMax" := 4 ]} : obj) !! "xMin" = Some a' /\
    ({[ "xMin" := 1; "yMin" := 1; "xMax" := 4; "yMax" := 4 ]} : obj) !! "xMax" = Some b' /\
    a' <= b'.
Proof.
  assert (H : scale_glyph_ttf glyph_A glyf_AB one_and_a_half
              = Ok {| numberOfContours := 1; components := []; coordinates := [(1, 1); (4, 4)];
                      glyph_attrs := {[ "xMin" := 1; "yMin" := 1; "xMax" := 4; "yMax" := 4 ]} |})
    by (vm_compute; reflexivity).
  split; [exact H|].
  apply (scale_glyph_ttf_bbox_ordered glyph_A glyf_AB one_and_a_half _ "xMin" "xMax" 1 3) in H;
    [exact H| | | | | | | |].
  - vm_compute. split; [reflexivity|]. split; discriminate.
  - by vm_compute.
  - simpl. concrete_obj_below.
  - unfold bbox_fields. set_solver.
  - unfold bbox_fields. set_solver.
  - by vm_compute.
  - by vm_compute.
  - lia.
Defined.

End GlyphInvariants.

(** ** Batch mode, file by file *)

Section BatchInPlace.

Context {CharString : Type}.
Variable draw_scaled : spec_float -> dict string CharString -> CharString -> result CharString.
Context {Dir : Type}.
Variable joinpath : Dir -> string -> Dir.
Variable dir_exists : Dir -> bool.
Variable glob : Dir -> string -> list Path.
Variable sorted : list Path -> list Path.
Variable os_path_exists : string -> bool.
Variable script_dir : Dir.

Lemma output_path_empty (font_path : Path) : output_path "" font_path = font_path.
Proof. reflexivity. Qed.

(** One step of the batch loop without [--suffix], seen from one path. *)
Lemma batch_step_in_place scale rename_from rename_to (st : Batch) (q : Path) (path : string) :
  disk_of (batch_step draw_scaled scale "" rename_from rename_to st q) !! path
  = if decide (path = str q)
    then match disk_of st !! path with
         | Some font =>
             match scale_font_tables draw_scaled font scale rename_from rename_to with
             | Ok font' => Some font'
             | Raise _ => Some font
             end
         | None => None
         end
    else disk_of st !! path.
Proof.
  unfold batch_step. rewrite output_path_empty. unfold scale_font, TTFont.
  destruct (decide (path = str q)) as [->|Hne].
  - destruct (disk_of st !! str q) as [font|] eqn:Hf; simpl; [|by rewrite Hf].
    destruct (scale_font_tables _ _ _ _ _) as [font'|e]; simpl; [|by rewrite Hf].
    by rewrite lookup_insert_eq.
  - destruct (disk_of st !! str q) as [font|]; simpl; [|done].
    destruct (scale_font_tables _ _ _ _ _) as [font'|e]; simpl; [|done].
    by rewrite lookup_insert_ne.
Qed.


(** X26.  Without the directory [mono] under the fonts directory, batch
    mode finds no font and [main] exits with status 1, whatever else the
    fonts directory holds. *)
Theorem main_without_mono_dir args disk :
  truthy (args_input args) = false ->
  dir_exists (joinpath (joinpath script_dir (args_fonts_dir args)) "mono") = false ->
  exists message,
    main draw_scaled joinpath dir_exists glob sorted os_path_exists script_dir args disk
    = SystemExit 1 message.
Proof.
  intros Hin Hdir. unfold main.
  destruct (parse_rename (args_rename args)) as [outcome|[rename_from rename_to]] eqn:Hp.
  - apply parse_rename_exits in Hp as ->. by eexists.
  - destruct (SFleb _ _); [by eexists|].
    rewrite Hin. unfold find_mono_fonts. rewrite Hdir. simpl. by eexists.
Qed.

End BatchInPlace.


Lemma main_without_mono_dir_witness :
  truthy (args_input (batch_args default_scale)) = false /\
  example_dirs (join_names (join_names "." "assets") "mono") = false /\
  exists message,
    main keep_charstring join_names example_dirs example_glob example_sorted example_files "."
      {| args_scale := default_scale; args_input := None; args_output := None;
         args_suffix := ""; args_fonts_dir := "assets"; args_rename := None |}
      (disk_of two_fonts_on_disk)
    = SystemExit 1 message.
Proof.
  split; [reflexivity|]. split; [reflexivity|].
  apply (main_without_mono_dir keep_charstring join_names example_dirs example_glob
           example_sorted example_files "."%string
           {| args_scale := default_scale; args_input := None; args_output := None;
              args_suffix := ""; args_fonts_dir := "assets"; args_rename := None |}
           (disk_of two_fonts_on_disk)); reflexivity.
Defined.
